(** * Quoridor rules engine (maze.py, class QuoridorGame)

    A shallow embedding of the rule logic of [QuoridorGame]: the game
    object, move generation with jumps, the breadth-first reachability
    check, wall-placement legality, the two mutators and the board-click
    dispatch of the event loop, followed by the properties established
    about them.

    Conventions.
    - Python integers are [Z]; list indices and player numbers are [nat].
    - The sets [horizontal_walls] / [vertical_walls] are [gset (Z * Z)],
      the dict [player_walls] is a [gmap nat _], Python lists are lists
      with stdpp lookup [!!] and update [<[i:=x]>].
    - A method that can raise (IndexError on a list, KeyError on the dict,
      ZeroDivisionError in [%]) returns [option]; [None] is the uncaught
      exception.  A method returning a flag and mutating [self] returns
      the flag together with the new object.
    - Rendering attributes (colours, fonts, surfaces, button_states) are
      not part of the model. *)

From stdpp Require Import gmap strings list pretty relations.

(* The solvers of stdpp clear hypotheses that are sometimes gone already. *)
#[local] Set Warnings "-clear-no-such-hyp".

Local Open Scope Z_scope.

(** ** The game object *)

Record Game : Type := mkGame {
  BOARD_SIZE : Z;
  num_players : nat;
  player_positions : list (Z * Z);
  win_rows : list (option Z);
  win_cols : list (option Z);
  walls_remaining : list Z;
  player_walls : gmap nat (list (string * Z * Z));
  horizontal_walls : gset (Z * Z);
  vertical_walls : gset (Z * Z);
  current_player : nat;
  game_over : bool;
  winner : option nat;
  message : string;
  selected_wall_type : string;
  wall_placement_mode : bool;
  possible_moves : list (Z * Z);
  hover_position : option (Z * Z);
  hover_wall : option (Z * Z * string)
}.

(** Attribute assignments [self.x = v]. *)

Definition set_player_positions (v : list (Z * Z)) (g : Game) : Game :=
  mkGame (BOARD_SIZE g) (num_players g) v (win_rows g) (win_cols g)
    (walls_remaining g) (player_walls g) (horizontal_walls g)
    (vertical_walls g) (current_player g) (game_over g) (winner g)
    (message g) (selected_wall_type g) (wall_placement_mode g)
    (possible_moves g) (hover_position g) (hover_wall g).

Definition set_walls_remaining (v : list Z) (g : Game) : Game :=
  mkGame (BOARD_SIZE g) (num_players g) (player_positions g) (win_rows g)
    (win_cols g) v (player_walls g) (horizontal_walls g)
    (vertical_walls g) (current_player g) (game_over g) (winner g)
    (message g) (selected_wall_type g) (wall_placement_mode g)
    (possible_moves g) (hover_position g) (hover_wall g).

Definition set_player_walls (v : gmap nat (list (string * Z * Z)))
    (g : Game) : Game :=
  mkGame (BOARD_SIZE g) (num_players g) (player_positions g) (win_rows g)
    (win_cols g) (walls_remaining g) v (horizontal_walls g)
    (vertical_walls g) (current_player g) (game_over g) (winner g)
    (message g) (selected_wall_type g) (wall_placement_mode g)
    (possible_moves g) (hover_position g) (hover_wall g).

Definition set_horizontal_walls (v : gset (Z * Z)) (g : Game) : Game :=
  mkGame (BOARD_SIZE g) (num_players g) (player_positions g) (win_rows g)
    (win_cols g) (walls_remaining g) (player_walls g) v
    (vertical_walls g) (current_player g) (game_over g) (winner g)
    (message g) (selected_wall_type g) (wall_placement_mode g)
    (possible_moves g) (hover_position g) (hover_wall g).

Definition set_vertical_walls (v : gset (Z * Z)) (g : Game) : Game :=
  mkGame (BOARD_SIZE g) (num_players g) (player_positions g) (win_rows g)
    (win_cols g) (walls_remaining g) (player_walls g) (horizontal_walls g)
    v (current_player g) (game_over g) (winner g)
    (message g) (selected_wall_type g) (wall_placement_mode g)
    (possible_moves g) (hover_position g) (hover_wall g).

Definition set_current_player (v : nat) (g : Game) : Game :=
  mkGame (BOARD_SIZE g) (num_players g) (player_positions g) (win_rows g)
    (win_cols g) (walls_remaining g) (player_walls g) (horizontal_walls g)
    (vertical_walls g) v (game_over g) (winner g)
    (message g) (selected_wall_type g) (wall_placement_mode g)
    (possible_moves g) (hover_position g) (hover_wall g).

Definition set_game_over (v : bool) (g : Game) : Game :=
  mkGame (BOARD_SIZE g) (num_players g) (player_positions g) (win_rows g)
    (win_cols g) (walls_remaining g) (player_walls g) (horizontal_walls g)
    (vertical_walls g) (current_player g) v (winner g)
    (message g) (selected_wall_type g) (wall_placement_mode g)
    (possible_moves g) (hover_position g) (hover_wall g).

Definition set_winner (v : option nat) (g : Game) : Game :=
  mkGame (BOARD_SIZE g) (num_players g) (player_positions g) (win_rows g)
    (win_cols g) (walls_remaining g) (player_walls g) (horizontal_walls g)
    (vertical_walls g) (current_player g) (game_over g) v
    (message g) (selected_wall_type g) (wall_placement_mode g)
    (possible_moves g) (hover_position g) (hover_wall g).

Definition set_message (v : string) (g : Game) : Game :=
  mkGame (BOARD_SIZE g) (num_players g) (player_positions g) (win_rows g)
    (win_cols g) (walls_remaining g) (player_walls g) (horizontal_walls g)
    (vertical_walls g) (current_player g) (game_over g) (winner g)
    v (selected_wall_type g) (wall_placement_mode g)
    (possible_moves g) (hover_position g) (hover_wall g).

Definition set_possible_moves (v : list (Z * Z)) (g : Game) : Game :=
  mkGame (BOARD_SIZE g) (num_players g) (player_positions g) (win_rows g)
    (win_cols g) (walls_remaining g) (player_walls g) (horizontal_walls g)
    (vertical_walls g) (current_player g) (game_over g) (winner g)
    (message g) (selected_wall_type g) (wall_placement_mode g)
    v (hover_position g) (hover_wall g).

Definition clear_hover (g : Game) : Game :=
  mkGame (BOARD_SIZE g) (num_players g) (player_positions g) (win_rows g)
    (win_cols g) (walls_remaining g) (player_walls g) (horizontal_walls g)
    (vertical_walls g) (current_player g) (game_over g) (winner g)
    (message g) (selected_wall_type g) (wall_placement_mode g)
    (possible_moves g) None None.

(** ** Geometry shared by the move generator and the search *)

(** [0 <= r < BOARD_SIZE and 0 <= c < BOARD_SIZE] *)
Definition in_board (N r c : Z) : bool :=
  bool_decide (0 ≤ r < N) && bool_decide (0 ≤ c < N).

(** The four consecutive [if ...: continue] wall tests for a step
    [(dr, dc)] leaving cell [(r, c)]: any one of them skips the step. *)
Definition wall_blocks (H V : gset (Z * Z)) (r c dr dc : Z) : bool :=
  (bool_decide (dr = -1) && bool_decide ((r - 1, c) ∈ H))
  || (bool_decide (dr = 1) && bool_decide ((r, c) ∈ H))
  || (bool_decide (dc = -1) && bool_decide ((r, c - 1) ∈ V))
  || (bool_decide (dc = 1) && bool_decide ((r, c) ∈ V)).

(** Up, Down, Left, Right *)
Definition directions : list (Z * Z) := [(-1, 0); (1, 0); (0, -1); (0, 1)].

(** ** get_possible_moves *)

(** The list iterated by the inner loop of the off-board branch:
    [[(-dr, dc), (dr, -dc)] if dr != 0 and dc != 0
     else [(dr+1, dc), (dr-1, dc)] if dr != 0
     else [(dr, dc+1), (dr, dc-1)]]. *)
Definition side_steps (dr dc : Z) : list (Z * Z) :=
  if bool_decide (dr ≠ 0) && bool_decide (dc ≠ 0)
  then [(- dr, dc); (dr, - dc)]
  else if bool_decide (dr ≠ 0)
  then [(dr + 1, dc); (dr - 1, dc)]
  else [(dr, dc + 1); (dr, dc - 1)].

(** Body of the inner loop for one [(side_dr, side_dc)]: what it appends. *)
Definition side_jump (g : Game) (new_r new_c : Z) (side : Z * Z)
    : list (Z * Z) :=
  let '(side_dr, side_dc) := side in
  let diag_r := new_r + side_dr in
  let diag_c := new_c + side_dc in
  if in_board (BOARD_SIZE g) diag_r diag_c then
    if wall_blocks (horizontal_walls g) (vertical_walls g)
         new_r new_c side_dr side_dc then []
    else if bool_decide ((diag_r, diag_c) ∉ player_positions g)
    then [(diag_r, diag_c)]
    else []
  else [].

(** Body of the outer loop for one direction: what it appends to
    [possible]. *)
Definition moves_in_direction (g : Game) (r c : Z) (d : Z * Z)
    : list (Z * Z) :=
  let '(dr, dc) := d in
  let new_r := r + dr in
  let new_c := c + dc in
  if negb (in_board (BOARD_SIZE g) new_r new_c) then []
  else if wall_blocks (horizontal_walls g) (vertical_walls g) r c dr dc
  then []
  else if bool_decide ((new_r, new_c) ∈ player_positions g) then
    let jump_r := new_r + dr in
    let jump_c := new_c + dc in
    if negb (in_board (BOARD_SIZE g) jump_r jump_c) then
      flat_map (side_jump g new_r new_c) (side_steps dr dc)
    else if wall_blocks (horizontal_walls g) (vertical_walls g)
              new_r new_c dr dc then []
    else if bool_decide ((jump_r, jump_c) ∈ player_positions g) then []
    else [(jump_r, jump_c)]
  else [(new_r, new_c)].

Definition get_possible_moves (g : Game) : option (list (Z * Z)) :=
  '(r, c) ← player_positions g !! current_player g;
  Some (flat_map (moves_in_direction g r c) directions).

(** ** The goal test

    [(win_rows[i] is not None and row == win_rows[i]) or
     (win_cols[i] is not None and col == win_cols[i])], evaluated left to
    right with short-circuiting.  [pos] is the cell whose coordinates are
    compared; it is [None] when the source reads it from
    [player_positions[i]] and that lookup raises. *)
Definition at_goal (g : Game) (idx : nat) (pos : option (Z * Z))
    : option bool :=
  wr ← win_rows g !! idx;
  row_hit ← match wr with
            | None => Some false
            | Some x => '(r, _) ← pos; Some (bool_decide (r = x))
            end;
  if (row_hit : bool) then Some true
  else
    wc ← win_cols g !! idx;
    match wc with
    | None => Some false
    | Some y => '(_, c) ← pos; Some (bool_decide (c = y))
    end.

(** ** find_path_to_goal *)

(** One pass of [for dr, dc in directions] for one direction, on the pair
    (queue, visited). *)
Definition bfs_visit (N : Z) (H V : gset (Z * Z)) (curr : Z * Z)
    (qv : list (Z * Z) * gset (Z * Z)) (d : Z * Z)
    : list (Z * Z) * gset (Z * Z) :=
  let '(curr_r, curr_c) := curr in
  let '(dr, dc) := d in
  let new_r := curr_r + dr in
  let new_c := curr_c + dc in
  if negb (in_board N new_r new_c) then qv
  else if wall_blocks H V curr_r curr_c dr dc then qv
  else if bool_decide ((new_r, new_c) ∉ qv.2)
  then (qv.1 ++ [(new_r, new_c)], {[ (new_r, new_c) ]} ∪ qv.2)
  else qv.

Definition bfs_expand (N : Z) (H V : gset (Z * Z)) (curr : Z * Z)
    (qv : list (Z * Z) * gset (Z * Z)) : list (Z * Z) * gset (Z * Z) :=
  foldl (bfs_visit N H V curr) qv directions.

(** [while queue:] with a bound on the number of iterations.  The outer
    [None] means the bound was hit; the inner option is the exception of
    the goal test. *)
Fixpoint bfs_loop (fuel : nat) (g : Game) (idx : nat) (H V : gset (Z * Z))
    (queue : list (Z * Z)) (visited : gset (Z * Z))
    : option (option bool) :=
  match fuel with
  | O => None
  | S fuel' =>
      match queue with
      | [] => Some (Some false)
      | curr :: rest =>
          match at_goal g idx (Some curr) with
          | None => Some None
          | Some true => Some (Some true)
          | Some false =>
              let qv := bfs_expand (BOARD_SIZE g) H V curr (rest, visited) in
              bfs_loop fuel' g idx H V qv.1 qv.2
          end
      end
  end.

(** Enough iterations for any board: every cell enters the queue at most
    once, and only the start cell can lie off the board. *)
Definition bfs_fuel (N : Z) : nat := S (S (Z.to_nat N * Z.to_nat N)).

(** [find_path_to_goal(player_idx, test_walls_h, test_walls_v)] with both
    wall sets given. *)
Definition find_path_to_goal (g : Game) (player_idx : nat)
    (test_walls_h test_walls_v : gset (Z * Z)) : option bool :=
  p ← player_positions g !! player_idx;
  mjoin (bfs_loop (bfs_fuel (BOARD_SIZE g)) g player_idx
           test_walls_h test_walls_v [p] {[ p ]}).

(** The default arguments: copies of the live sets. *)
Definition find_path_to_goal_live (g : Game) (player_idx : nat)
    : option bool :=
  find_path_to_goal g player_idx (horizontal_walls g) (vertical_walls g).

(** ** is_valid_wall_placement *)

Definition wall_in_range (g : Game) (r c : Z) : bool :=
  bool_decide (0 ≤ r < BOARD_SIZE g - 1)
  && bool_decide (0 ≤ c < BOARD_SIZE g - 1).

(** "Check if wall already exists" *)
Definition wall_exists (g : Game) (r c : Z) (wall_type : string) : bool :=
  if bool_decide (wall_type = "horizontal") then
    bool_decide ((r, c) ∈ horizontal_walls g)
    || bool_decide ((r, c + 1) ∈ horizontal_walls g)
  else
    bool_decide ((r, c) ∈ vertical_walls g)
    || bool_decide ((r + 1, c) ∈ vertical_walls g).

(** "Check for intersecting walls" *)
Definition wall_intersects (g : Game) (r c : Z) (wall_type : string)
    : bool :=
  (bool_decide (wall_type = "horizontal")
   && (bool_decide ((r, c) ∈ vertical_walls g)
       && bool_decide ((r + 1, c) ∈ vertical_walls g)))
  || (bool_decide (wall_type = "vertical")
      && (bool_decide ((r, c) ∈ horizontal_walls g)
          && bool_decide ((r, c + 1) ∈ horizontal_walls g))).

(** The trial sets: copies of the live sets with the two blockers added. *)
Definition test_walls (g : Game) (r c : Z) (wall_type : string)
    : gset (Z * Z) * gset (Z * Z) :=
  if bool_decide (wall_type = "horizontal") then
    ({[ (r, c + 1) ]} ∪ ({[ (r, c) ]} ∪ horizontal_walls g),
     vertical_walls g)
  else
    (horizontal_walls g,
     {[ (r + 1, c) ]} ∪ ({[ (r, c) ]} ∪ vertical_walls g)).

(** [for p_idx in range(self.num_players)]: skip a player standing on the
    goal, otherwise search. *)
Fixpoint paths_remain (g : Game) (th tv : gset (Z * Z)) (idxs : list nat)
    : option bool :=
  match idxs with
  | [] => Some true
  | p_idx :: rest =>
      won ← at_goal g p_idx (player_positions g !! p_idx);
      if (won : bool) then paths_remain g th tv rest
      else
        ok ← find_path_to_goal g p_idx th tv;
        if (ok : bool) then paths_remain g th tv rest else Some false
  end.

Definition is_valid_wall_placement (g : Game) (r c : Z)
    (wall_type : string) : option bool :=
  if negb (wall_in_range g r c) then Some false
  else if wall_exists g r c wall_type then Some false
  else if wall_intersects g r c wall_type then Some false
  else
    let tw := test_walls g r c wall_type in
    paths_remain g tw.1 tw.2 (seq 0 (num_players g)).

(** ** next_turn, place_wall, move_player *)

Definition turn_message (p : nat) : string :=
  "Player " +:+ pretty (p + 1)%nat +:+ "'s turn".

Definition next_turn (g : Game) : option Game :=
  if negb (game_over g) then
    if bool_decide (num_players g = 0%nat) then None
    else
      let g1 := set_current_player
                  ((current_player g + 1) `mod` num_players g)%nat g in
      let g2 := set_message (turn_message (current_player g1)) g1 in
      moves ← get_possible_moves g2;
      Some (clear_hover (set_possible_moves moves g2))
  else Some g.

(** The committing part of [place_wall]: add the two blockers, append the
    ownership record, decrement the count.  [left] and [mine] are the
    values of [walls_remaining[current_player]] and
    [player_walls[current_player]] read by the caller. *)
Definition commit_wall (g : Game) (r c : Z) (wall_type : string)
    (left : Z) (mine : list (string * Z * Z)) : Game :=
  let g1 :=
    if bool_decide (wall_type = "horizontal") then
      set_player_walls
        (<[current_player g := mine ++ [("h", r, c)]]> (player_walls g))
        (set_horizontal_walls
           ({[ (r, c + 1) ]} ∪ ({[ (r, c) ]} ∪ horizontal_walls g)) g)
    else
      set_player_walls
        (<[current_player g := mine ++ [("v", r, c)]]> (player_walls g))
        (set_vertical_walls
           ({[ (r + 1, c) ]} ∪ ({[ (r, c) ]} ∪ vertical_walls g)) g) in
  set_walls_remaining
    (<[current_player g := left - 1]> (walls_remaining g)) g1.

Definition place_wall (g : Game) (r c : Z) (wall_type : string)
    : option (bool * Game) :=
  left ← walls_remaining g !! current_player g;
  if bool_decide (left ≤ 0) then
    Some (false, set_message "No walls remaining!" g)
  else
    valid ← is_valid_wall_placement g r c wall_type;
    if negb valid then
      Some (false,
            set_message "Invalid wall placement! Can't block all paths." g)
    else
      mine ← player_walls g !! current_player g;
      g3 ← next_turn (commit_wall g r c wall_type left mine);
      Some (true, g3).

Definition win_message (p : nat) : string :=
  "Player " +:+ pretty (p + 1)%nat +:+ " wins!".

Definition move_player (g : Game) (r c : Z) : option (bool * Game) :=
  moves ← get_possible_moves g;
  if bool_decide ((r, c) ∉ moves) then
    Some (false, set_message "Invalid move!" g)
  else
    let g1 :=
      set_player_positions
        (<[current_player g := (r, c)]> (player_positions g)) g in
    won ← at_goal g1 (current_player g1) (Some (r, c));
    if (won : bool) then
      Some (true,
            set_message (win_message (current_player g1))
              (set_winner (Some (current_player g1))
                 (set_game_over true g1)))
    else
      g2 ← next_turn g1;
      Some (true, g2).

(** ** initialize_game and the constructor *)

(** [initialize_game] reads [self.BOARD_SIZE] and [self.num_players]. *)
Definition initialize_game (N : Z) (n : nat) : option Game :=
  let g :=
    mkGame N n
      (take n [(N - 1, N `div` 2); (0, N `div` 2);
               (N `div` 2, 0); (N `div` 2, N - 1)])
      (take n [Some 0; Some (N - 1); None; None])
      (take n [None; None; Some (N - 1); Some 0])
      (take n [10; 10; 5; 5])
      (list_to_map ((λ i, (i, [])) <$> seq 0 n))
      ∅ ∅ 0%nat false None (turn_message 0)
      "horizontal" false [] None None in
  moves ← get_possible_moves g;
  Some (set_possible_moves moves g).

(** [QuoridorGame()] : BOARD_SIZE = 9, num_players = 2. *)
Definition new_game : option Game := initialize_game 9 2.

(** ** The board-click branch of the event loop [run]

    Reached on MOUSEBUTTONDOWN when no button was hit; the only place
    where [move_player] and [place_wall] are called. *)

Definition SQUARE_SIZE : Z := 70.
Definition PADDING : Z := 60.
Definition GAME_SIZE (g : Game) : Z :=
  BOARD_SIZE g * SQUARE_SIZE + PADDING * 2.

Definition board_click (g : Game) (mouse_pos : Z * Z) : option Game :=
  let '(mx, my) := mouse_pos in
  if bool_decide (PADDING ≤ mx ≤ GAME_SIZE g - PADDING)
     && bool_decide (PADDING ≤ my ≤ GAME_SIZE g - PADDING) then
    let c := (mx - PADDING) `div` SQUARE_SIZE in
    let r := (my - PADDING) `div` SQUARE_SIZE in
    if negb (game_over g) then
      if negb (wall_placement_mode g) then
        snd <$> move_player g r c
      else
        let wall_r := 0 `max` (r `min` (BOARD_SIZE g - 2)) in
        let wall_c := 0 `max` (c `min` (BOARD_SIZE g - 2)) in
        snd <$> place_wall g wall_r wall_c (selected_wall_type g)
    else Some g
  else Some g.

(** ** Vocabulary of the specification

    These definitions follow the words of the data model, not the code:
    they are what the code above is compared with. *)

(** A blocker unit [(r, c)] of the horizontal set closes the edge between
    cells [(r, c)] and [(r + 1, c)]; one of the vertical set closes the
    edge between [(r, c)] and [(r, c + 1)].  [open_step N H V a b]: [b] is
    orthogonally adjacent to [a], on the board, and the edge is open. *)
Inductive open_step (N : Z) (H V : gset (Z * Z)) : Z * Z → Z * Z → Prop :=
  | step_up r c :
      0 ≤ r - 1 < N → 0 ≤ c < N → (r - 1, c) ∉ H →
      open_step N H V (r, c) (r - 1, c)
  | step_down r c :
      0 ≤ r + 1 < N → 0 ≤ c < N → (r, c) ∉ H →
      open_step N H V (r, c) (r + 1, c)
  | step_left r c :
      0 ≤ r < N → 0 ≤ c - 1 < N → (r, c - 1) ∉ V →
      open_step N H V (r, c) (r, c - 1)
  | step_right r c :
      0 ≤ r < N → 0 ≤ c + 1 < N → (r, c) ∉ V →
      open_step N H V (r, c) (r, c + 1).

(** The goal predicate: the row is the target row or the column is the
    target column. *)
Definition goal_cell (wr wc : option Z) (p : Z * Z) : Prop :=
  wr = Some p.1 ∨ wc = Some p.2.

(** Some sequence of open steps leads from [start] to a goal cell. *)
Definition reaches_goal (N : Z) (H V : gset (Z * Z)) (wr wc : option Z)
    (start : Z * Z) : Prop :=
  ∃ t, rtc (open_step N H V) start t ∧ goal_cell wr wc t.

(** A wall segment of the data model: an orientation and an anchor.  The
    code passes the orientation as the strings below. *)
Inductive orientation : Type := Horizontal | Vertical.

Definition wall_type_of (o : orientation) : string :=
  match o with Horizontal => "horizontal" | Vertical => "vertical" end.

Definition perpendicular (o : orientation) : orientation :=
  match o with Horizontal => Vertical | Vertical => Horizontal end.

(** The two blocker units of a segment anchored at [(r, c)]. *)
Definition blockers_of (o : orientation) (r c : Z) : list (Z * Z) :=
  match o with
  | Horizontal => [(r, c); (r, c + 1)]
  | Vertical => [(r, c); (r + 1, c)]
  end.

Definition blockers (g : Game) (o : orientation) : gset (Z * Z) :=
  match o with
  | Horizontal => horizontal_walls g
  | Vertical => vertical_walls g
  end.

(** The perpendicular-wall-crossing rule: both blocker units of the
    perpendicular segment anchored at the same intersection are present. *)
Definition crosses (g : Game) (o : orientation) (r c : Z) : Prop :=
  ∀ u, u ∈ blockers_of (perpendicular o) r c →
       u ∈ blockers g (perpendicular o).

(** The crossing rule in the words of the specification: a horizontal
    segment anchored at [(r, c)] lies over the columns [c] and [c + 1],
    and crosses when each of the two carries a vertical blocker there;
    a vertical segment lies beside the rows [r] and [r + 1], and crosses
    when each of the two carries a horizontal blocker there.  This is the
    reading to be compared with the test of [wall_intersects]. *)
Definition crosses_as_worded (g : Game) (o : orientation) (r c : Z)
    : Prop :=
  match o with
  | Horizontal =>
      (r, c) ∈ vertical_walls g ∧ (r, c + 1) ∈ vertical_walls g
  | Vertical =>
      (r, c) ∈ horizontal_walls g ∧ (r + 1, c) ∈ horizontal_walls g
  end.

(** The part of the object that the rules read and write, without the
    turn: everything except [current_player] and the display attributes
    (message, selection, hover, cached moves). *)
Definition board_of (g : Game) :=
  (BOARD_SIZE g, num_players g, player_positions g, win_rows g, win_cols g,
   walls_remaining g, player_walls g, horizontal_walls g, vertical_walls g,
   game_over g, winner g).

(** The game state of the specification: board, wall sets, players with
    their wall counts and placed walls, current player, terminal flag and
    winner. *)
Definition game_state (g : Game) := (board_of g, current_player g).

(** The shape every method relies on: one entry per player in each
    per-player container, and a current player among them. *)
Record well_formed (g : Game) : Prop := {
  wf_current : (current_player g < num_players g)%nat;
  wf_positions : length (player_positions g) = num_players g;
  wf_win_rows : length (win_rows g) = num_players g;
  wf_win_cols : length (win_cols g) = num_players g;
  wf_walls_remaining : length (walls_remaining g) = num_players g;
  wf_player_walls :
    ∀ i, (i < num_players g)%nat → is_Some (player_walls g !! i)
}.

(** States reachable from initialization by calls of the two mutators
    (accepted or rejected).  The source fixes BOARD_SIZE = 9 and
    num_players = 2; the layout tables of [initialize_game] serve any
    board of side at least 3 and one to four players. *)
Inductive reachable : Game → Prop :=
  | reachable_init N n g :
      3 ≤ N → (1 ≤ n ≤ 4)%nat → initialize_game N n = Some g →
      reachable g
  | reachable_move g r c b g' :
      reachable g → move_player g r c = Some (b, g') → reachable g'
  | reachable_wall g r c wall_type b g' :
      reachable g → place_wall g r c wall_type = Some (b, g') →
      reachable g'.

(** The initial allotment of walls, [[10, 10, 5, 5]]. *)
Definition initial_walls : list Z := [10; 10; 5; 5].

(** Wall accounting: every player's count is non-negative and is the
    allotment minus the number of walls recorded for that player. *)
Definition walls_accounted (g : Game) : Prop :=
  ∀ i, (i < num_players g)%nat →
    ∃ a left mine,
      initial_walls !! i = Some a
      ∧ walls_remaining g !! i = Some left
      ∧ player_walls g !! i = Some mine
      ∧ 0 ≤ left ∧ left = a - Z.of_nat (length mine).

(** ** Auxiliary notions for the proofs about the search *)

(** All cells of the board, and how many of them a search has not yet
    marked: the termination measure of the search loop. *)
Definition cells (N : Z) : list (Z * Z) := list_prod (seqZ 0 N) (seqZ 0 N).

Definition unvisited (N : Z) (visited : gset (Z * Z)) : nat :=
  length (filter (λ x, x ∉ visited) (cells N)).

(** A step of the code in direction [d]: on the board and not skipped by
    the wall tests. *)
Definition code_step (N : Z) (H V : gset (Z * Z)) (a : Z * Z) (d : Z * Z)
    (b : Z * Z) : Prop :=
  b = (a.1 + d.1, a.2 + d.2) ∧ in_board N b.1 b.2 = true
  ∧ wall_blocks H V a.1 a.2 d.1 d.2 = false.

(** What one pass of the search over the directions [ds] from [curr]
    achieves, from the pair (queue, visited) [qv] to [qv']: nothing is
    unmarked, the queue grows by newly marked neighbours only, every
    neighbour along [ds] is marked, and the measure pays for the growth. *)
Definition expand_ok (N : Z) (H V : gset (Z * Z)) (curr : Z * Z)
    (ds : list (Z * Z)) (qv qv' : list (Z * Z) * gset (Z * Z)) : Prop :=
  qv.2 ⊆ qv'.2
  ∧ (∃ new, qv'.1 = qv.1 ++ new
       ∧ Forall (λ y, (∃ d, d ∈ ds ∧ code_step N H V curr d y)
                      ∧ y ∈ qv'.2) new
       ∧ (∀ x, x ∈ qv'.2 → x ∈ qv.2 ∨ x ∈ new)
       ∧ (unvisited N qv'.2 + length new ≤ unvisited N qv.2)%nat)
  ∧ (∀ d y, d ∈ ds → code_step N H V curr d y → y ∈ qv'.2).

(** The loop invariant of the search from [start]: queued cells are marked
    and reachable; a marked cell that has left the queue is no goal cell
    and all its open neighbours are marked. *)
Definition search_inv (N : Z) (H V : gset (Z * Z)) (wr wc : option Z)
    (start : Z * Z) (queue : list (Z * Z)) (visited : gset (Z * Z))
    : Prop :=
  start ∈ visited
  ∧ (∀ x, x ∈ queue → x ∈ visited ∧ rtc (open_step N H V) start x)
  ∧ (∀ x, x ∈ visited → x ∉ queue →
       ¬ goal_cell wr wc x ∧ ∀ y, open_step N H V x y → y ∈ visited).

(** ** Scripts and concrete states *)

(** Scripts of calls, for building concrete states. *)
Inductive action : Type :=
  | Move (r c : Z)
  | Wall (r c : Z) (wall_type : string).

Definition perform (g : Game) (a : action) : option Game :=
  match a with
  | Move r c => snd <$> move_player g r c
  | Wall r c wall_type => snd <$> place_wall g r c wall_type
  end.

Fixpoint play (script : list action) (g : Game) : option Game :=
  match script with
  | [] => Some g
  | a :: rest => g' ← perform g a; play rest g'
  end.

(** Two-player states on the 9 x 9 board without walls: the cells of
    players 0 and 1, whose turn it is, the terminal flag and winner, and
    the display attributes. *)
Definition two_player_state (a b : Z * Z) (turn : nat) (over : bool)
    (win : option nat) (msg : string) (cached : list (Z * Z)) : Game :=
  mkGame 9 2 [a; b] [Some 0; Some 8] [None; None] [10; 10]
    (list_to_map [(0%nat, []); (1%nat, [])]) ∅ ∅ turn over win
    msg "horizontal" false cached None None.

Definition two_player_position (a b : Z * Z) : Game :=
  two_player_state a b 0 false None (turn_message 0) [].

(** The state built by the constructor. *)
Definition start_position : Game :=
  two_player_state (8, 4) (0, 4) 0 false None "Player 1's turn"
    [(7, 4); (8, 3); (8, 5)].

(** Player A at (4,4), player B directly above at (3,4), no walls. *)
Definition jump_example : Game := two_player_position (4, 4) (3, 4).

(** Player 0 walks up column 4 while player 1 steps aside and back;
    the last move takes player 0 onto row 0. *)
Definition winning_script : list action :=
  [Move 7 4; Move 0 3; Move 6 4; Move 0 4; Move 5 4; Move 0 3;
   Move 4 4; Move 0 4; Move 3 4; Move 0 3; Move 2 4; Move 0 4;
   Move 1 4; Move 0 3; Move 0 4].

Definition finished_example : Game :=
  two_player_state (0, 4) (0, 3) 0 true (Some 0%nat) "Player 1 wins!"
    [(0, 4); (2, 4); (1, 3); (1, 5)].

(** Player 0 walks to the left edge at (4,0); player 1 comes to stand
    next to it on (4,1) and is to move. *)
Definition edge_script : list action :=
  [Move 8 3; Move 0 3; Move 8 2; Move 0 2; Move 8 1; Move 0 1;
   Move 8 0; Move 1 1; Move 7 0; Move 2 1; Move 6 0; Move 3 1;
   Move 5 0; Move 4 1; Move 4 0].

Definition edge_example : Game :=
  two_player_state (4, 0) (4, 1) 1 false None "Player 2's turn"
    [(3, 1); (5, 1); (4, 2)].

(** Player 0 fences off row 3 up to column 7 with player 1's help and
    closes the gap beside column 8; the remaining way round leads through
    the edge between (1,8) and (2,8). *)
Definition fence_script : list action :=
  [Wall 3 0 "horizontal"; Wall 3 2 "horizontal"; Wall 3 4 "horizontal";
   Wall 3 6 "horizontal"; Wall 2 7 "vertical"].

(** Two vertical walls side by side, in the columns 3 and 4 of the rows
    2 and 3. *)
Definition side_by_side_script : list action :=
  [Wall 2 3 "vertical"; Wall 2 4 "vertical"].

(** Two vertical walls end to end along the boundary right of column 3:
    the first covers the rows 2 and 3, the second the rows 4 and 5. *)
Definition abutting_script : list action :=
  [Wall 2 3 "vertical"; Wall 4 3 "vertical"].

(** ** Further parts of the program

    The pieces of [draw_board], [draw_ui] and [run] that carry logic: who
    owns a blocker, which circles are highlighted, where the buttons are
    and how a mouse click is dispatched.  Drawing itself is left out. *)

Definition set_wall_placement_mode (v : bool) (g : Game) : Game :=
  mkGame (BOARD_SIZE g) (num_players g) (player_positions g) (win_rows g)
    (win_cols g) (walls_remaining g) (player_walls g) (horizontal_walls g)
    (vertical_walls g) (current_player g) (game_over g) (winner g)
    (message g) (selected_wall_type g) v
    (possible_moves g) (hover_position g) (hover_wall g).

Definition set_selected_wall_type (v : string) (g : Game) : Game :=
  mkGame (BOARD_SIZE g) (num_players g) (player_positions g) (win_rows g)
    (win_cols g) (walls_remaining g) (player_walls g) (horizontal_walls g)
    (vertical_walls g) (current_player g) (game_over g) (winner g)
    (message g) v (wall_placement_mode g)
    (possible_moves g) (hover_position g) (hover_wall g).

(** [draw_board], "Find which player placed this wall":
    [for player_idx, walls in self.player_walls.items():
       if a in walls or b in walls: wall_owner = player_idx; break].
    The dict is created with the keys 0 .. num_players - 1 in this order
    and no key is ever added, so [items()] visits the players in
    increasing order; [idxs] is that order. *)
Fixpoint first_owner (g : Game) (a b : string * Z * Z) (idxs : list nat)
    (default : nat) : nat :=
  match idxs with
  | [] => default
  | player_idx :: rest =>
      match player_walls g !! player_idx with
      | Some walls =>
          if bool_decide (a ∈ walls) || bool_decide (b ∈ walls)
          then player_idx
          else first_owner g a b rest default
      | None => first_owner g a b rest default
      end
  end.

(** Owner of the horizontal blocker [(r, c)]; "Default to first player". *)
Definition wall_owner_h (g : Game) (r c : Z) : nat :=
  first_owner g ("h", r, c) ("h", r, c - 1) (seq 0 (num_players g)) 0.

(** Owner of the vertical blocker [(r, c)]; "Default to second player". *)
Definition wall_owner_v (g : Game) (r c : Z) : nat :=
  first_owner g ("v", r, c) ("v", r - 1, c) (seq 0 (num_players g)) 1.

(** Centre of the cell [(r, c)] on the screen, as (x, y):
    [x = PADDING + c * SQUARE_SIZE + SQUARE_SIZE // 2], same for [y]. *)
Definition cell_centre (r c : Z) : Z * Z :=
  (PADDING + c * SQUARE_SIZE + SQUARE_SIZE `div` 2,
   PADDING + r * SQUARE_SIZE + SQUARE_SIZE `div` 2).

(** [draw_board], "Draw possible moves": the centres of the circles drawn
    for [self.possible_moves], when not in wall mode and not over. *)
Definition highlighted_moves (g : Game) : list (Z * Z) :=
  if negb (wall_placement_mode g) && negb (game_over g)
  then (λ p, cell_centre p.1 p.2) <$> possible_moves g
  else [].

(** A [pygame.Rect] as (left, top, width, height), and
    [Rect.collidepoint]: a point on the right or bottom edge is outside. *)
Definition Rect : Type := Z * Z * Z * Z.

Definition collidepoint (rect : Rect) (p : Z * Z) : bool :=
  let '(x, y, width, height) := rect in
  bool_decide (x ≤ p.1 < x + width) && bool_decide (y ≤ p.2 < y + height).

Definition PANEL_WIDTH : Z := 320.
Definition HEIGHT (g : Game) : Z := GAME_SIZE g.

(** The dict returned by [draw_ui]. *)
Record ui_buttons : Type := mkButtons {
  move_button : Rect;
  wall_button : Rect;
  h_wall_button : option Rect;
  v_wall_button : option Rect;
  restart_button : Rect
}.

(** [draw_ui], the rectangles only: [y_offset] runs down the panel, 30
    pixels per player in the "Walls Remaining" loop. *)
Definition draw_ui (g : Game) : ui_buttons :=
  let panel_x := GAME_SIZE g in
  let y_pos := 95 in
  let y_offset := y_pos + 100 in
  let y_offset := y_offset + 40 in
  let y_offset := y_offset + 30 * Z.of_nat (num_players g) in
  let y_offset := y_offset + 20 in
  let y_offset := y_offset + 40 in
  mkButtons
    (panel_x + 25, y_offset, 125, 45)
    (panel_x + 165, y_offset, 125, 45)
    (if wall_placement_mode g
     then Some (panel_x + 30, y_offset + 90, 110, 40) else None)
    (if wall_placement_mode g
     then Some (panel_x + 160, y_offset + 90, 110, 40) else None)
    (panel_x + 30, HEIGHT g - 70, PANEL_WIDTH - 60, 40).

(** [button and button.collidepoint(mouse_pos)] *)
Definition hits (button : option Rect) (p : Z * Z) : bool :=
  match button with
  | Some rect => collidepoint rect p
  | None => false
  end.

(** [run], the MOUSEBUTTONDOWN branch: the [if / elif] chain over the
    buttons drawn at the start of the frame, ending in the board click.
    "New Game" calls [initialize_game] on the object, which keeps its
    [BOARD_SIZE] and [num_players]. *)
Definition on_mouse_down (ui : ui_buttons) (g : Game) (mouse_pos : Z * Z)
    : option Game :=
  if collidepoint (move_button ui) mouse_pos then
    Some (set_wall_placement_mode false g)
  else if collidepoint (wall_button ui) mouse_pos then
    Some (set_wall_placement_mode true g)
  else if collidepoint (restart_button ui) mouse_pos then
    initialize_game (BOARD_SIZE g) (num_players g)
  else if hits (h_wall_button ui) mouse_pos then
    Some (set_selected_wall_type "horizontal" g)
  else if hits (v_wall_button ui) mouse_pos then
    Some (set_selected_wall_type "vertical" g)
  else board_click g mouse_pos.

(** The mouse clicks of one frame, all dispatched against the buttons
    drawn when the frame began. *)
Fixpoint clicks_from (ui : ui_buttons) (g : Game) (clicks : list (Z * Z))
    : option Game :=
  match clicks with
  | [] => Some g
  | p :: rest => g' ← on_mouse_down ui g p; clicks_from ui g' rest
  end.

Definition frame (g : Game) (clicks : list (Z * Z)) : option Game :=
  clicks_from (draw_ui g) g clicks.

(** States the running program can be in: the constructor's state, then
    any number of frames of clicks. *)
Inductive ui_reachable : Game → Prop :=
  | ui_reachable_start g : new_game = Some g → ui_reachable g
  | ui_reachable_frame g clicks g' :
      ui_reachable g → frame g clicks = Some g' → ui_reachable g'.

(** ** Invariants of the reachable states *)

(** Every pawn stands on the board. *)
Definition pawns_on_board (g : Game) : Prop :=
  ∀ p, p ∈ player_positions g →
       0 ≤ p.1 < BOARD_SIZE g ∧ 0 ≤ p.2 < BOARD_SIZE g.

(** Every player has a goal line that lies on the board. *)
Definition goals_on_board (g : Game) : Prop :=
  ∀ i wr wc,
    win_rows g !! i = Some wr → win_cols g !! i = Some wc →
    (∃ x, wr = Some x ∧ 0 ≤ x < BOARD_SIZE g)
    ∨ (∃ y, wc = Some y ∧ 0 ≤ y < BOARD_SIZE g).

(** Every player can reach a goal cell across the walls on the board. *)
Definition all_reach_goal (g : Game) : Prop :=
  ∀ i pos wr wc,
    player_positions g !! i = Some pos →
    win_rows g !! i = Some wr → win_cols g !! i = Some wc →
    reaches_goal (BOARD_SIZE g) (horizontal_walls g) (vertical_walls g)
      wr wc pos.

(** Every blocker separates two cells of the board. *)
Definition walls_in_range (g : Game) : Prop :=
  (∀ r c, (r, c) ∈ horizontal_walls g →
          0 ≤ r < BOARD_SIZE g - 1 ∧ 0 ≤ c < BOARD_SIZE g)
  ∧ (∀ r c, (r, c) ∈ vertical_walls g →
            0 ≤ r < BOARD_SIZE g ∧ 0 ≤ c < BOARD_SIZE g - 1).

(** The blockers of an ownership record, and the set they belong to. *)
Definition record_units (rec : string * Z * Z) : list (Z * Z) :=
  let '(tag, r, c) := rec in
  if bool_decide (tag = "h") then [(r, c); (r, c + 1)]
  else [(r, c); (r + 1, c)].

Definition record_set (g : Game) (rec : string * Z * Z) : gset (Z * Z) :=
  if bool_decide (rec.1.1 = "h") then horizontal_walls g
  else vertical_walls g.

(** [recorded g i rec]: player [i]'s list holds the record [rec]. *)
Definition recorded (g : Game) (i : nat) (rec : string * Z * Z) : Prop :=
  ∃ walls, player_walls g !! i = Some walls ∧ rec ∈ walls.

(** The wall ledger: the two sets hold exactly the blockers of the
    recorded walls, and two recorded walls of the same orientation that
    share a blocker are one wall of one player. *)
Record ledger (g : Game) : Prop := {
  ledger_tags :
    ∀ i rec, recorded g i rec → rec.1.1 = "h" ∨ rec.1.1 = "v";
  ledger_sound :
    ∀ i rec u, recorded g i rec → u ∈ record_units rec →
               u ∈ record_set g rec;
  ledger_complete_h :
    ∀ u, u ∈ horizontal_walls g →
         ∃ i r c, recorded g i ("h", r, c) ∧ u ∈ [(r, c); (r, c + 1)];
  ledger_complete_v :
    ∀ u, u ∈ vertical_walls g →
         ∃ i r c, recorded g i ("v", r, c) ∧ u ∈ [(r, c); (r + 1, c)];
  ledger_disjoint :
    ∀ i j rec rec' u,
      recorded g i rec → recorded g j rec' → rec.1.1 = rec'.1.1 →
      u ∈ record_units rec → u ∈ record_units rec' →
      i = j ∧ rec = rec'
}.

(** No player stands on a goal cell. *)
Definition nobody_home (g : Game) : Prop :=
  ∀ i pos wr wc,
    player_positions g !! i = Some pos →
    win_rows g !! i = Some wr → win_cols g !! i = Some wc →
    ¬ goal_cell wr wc pos.

(** No recorded horizontal wall and recorded vertical wall share their
    anchor. *)
Definition no_crossing (g : Game) : Prop :=
  ∀ i j r c, recorded g i ("h", r, c) → recorded g j ("v", r, c) → False.

(** The tag under which [place_wall] records a wall. *)
Definition wall_tag (o : orientation) : string :=
  match o with Horizontal => "h" | Vertical => "v" end.

(** Some player has a wall of orientation [o] anchored at [(r, c)]. *)
Definition wall_at (g : Game) (o : orientation) (r c : Z) : Prop :=
  ∃ i, recorded g i (wall_tag o, r, c).

(** Two walls of orientation [o] meet end to end at the intersection
    [(r, c)]: one is anchored one step before it along their direction,
    the other one step after it. *)
Definition abutting_walls (g : Game) (o : orientation) (r c : Z) : Prop :=
  match o with
  | Horizontal =>
      wall_at g Horizontal r (c - 1) ∧ wall_at g Horizontal r (c + 1)
  | Vertical =>
      wall_at g Vertical (r - 1) c ∧ wall_at g Vertical (r + 1) c
  end.

(** The object with its two input-mode attributes overwritten; the rule
    methods neither read nor write them. *)
Definition with_ui (mode : bool) (wall_type : string) (g : Game) : Game :=
  set_wall_placement_mode mode (set_selected_wall_type wall_type g).

(** What the induction over the frames of the running program carries:
    up to the input mode the state is reachable by calls of the two
    mutators, the board is the constructor's, the selected orientation is
    one of the two the buttons set, and no two recorded walls cross. *)
Definition ui_invariant (g : Game) : Prop :=
  reachable (with_ui false "horizontal" g)
  ∧ BOARD_SIZE g = 9 ∧ num_players g = 2%nat
  ∧ (selected_wall_type g = "horizontal" ∨ selected_wall_type g = "vertical")
  ∧ no_crossing g.

(** * Properties *)

(** ** Geometry *)

Lemma in_board_true N r c :
  in_board N r c = true ↔ 0 ≤ r < N ∧ 0 ≤ c < N.
Proof.
  unfold in_board. rewrite andb_true_iff, !bool_decide_eq_true. tauto.
Qed.

Lemma in_board_cells N r c : in_board N r c = true → (r, c) ∈ cells N.
Proof.
  rewrite in_board_true. intros [Hr Hc]. unfold cells.
  apply list_elem_of_In, in_prod; apply list_elem_of_In, elem_of_seqZ; lia.
Qed.

Lemma length_cells N : length (cells N) = (Z.to_nat N * Z.to_nat N)%nat.
Proof. unfold cells. by rewrite length_prod, length_seqZ. Qed.

Lemma wall_blocks_false H V r c dr dc :
  wall_blocks H V r c dr dc = false ↔
    (dr = -1 → (r - 1, c) ∉ H) ∧ (dr = 1 → (r, c) ∉ H)
    ∧ (dc = -1 → (r, c - 1) ∉ V) ∧ (dc = 1 → (r, c) ∉ V).
Proof.
  unfold wall_blocks. rewrite !orb_false_iff, !andb_false_iff.
  rewrite !bool_decide_eq_false.
  split.
  - intros [[[? ?] ?] ?]. repeat split; intros ->; naive_solver.
  - intros (H1 & H2 & H3 & H4).
    destruct (decide (dr = -1)), (decide (dr = 1)),
      (decide (dc = -1)), (decide (dc = 1)); naive_solver.
Qed.

Lemma open_step_code_step N H V a b :
  open_step N H V a b ↔ ∃ d, d ∈ directions ∧ code_step N H V a d b.
Proof.
  split.
  - intros Hs. destruct Hs as [r c ? ? ?|r c ? ? ?|r c ? ? ?|r c ? ? ?].
    + exists (-1, 0). split; [set_solver|]. split_and!; simpl.
      * f_equal; lia.
      * apply in_board_true; lia.
      * apply wall_blocks_false. split_and!; (done || lia).
    + exists (1, 0). split; [set_solver|]. split_and!; simpl.
      * f_equal; lia.
      * apply in_board_true; lia.
      * apply wall_blocks_false. split_and!; (done || lia).
    + exists (0, -1). split; [set_solver|]. split_and!; simpl.
      * f_equal; lia.
      * apply in_board_true; lia.
      * apply wall_blocks_false. split_and!; (done || lia).
    + exists (0, 1). split; [set_solver|]. split_and!; simpl.
      * f_equal; lia.
      * apply in_board_true; lia.
      * apply wall_blocks_false. split_and!; (done || lia).
  - intros (d & Hd & -> & Hb & Hw). destruct a as [r c].
    apply in_board_true in Hb. apply wall_blocks_false in Hw.
    destruct Hw as (H1 & H2 & H3 & H4). simpl in *.
    unfold directions in Hd.
    rewrite !elem_of_cons, elem_of_nil in Hd.
    destruct Hd as [->|[->|[->|[->|[]]]]]; simpl in *.
    + replace (r + -1) with (r - 1) in * by lia.
      replace (c + 0) with c in * by lia. constructor; (lia || auto).
    + replace (c + 0) with c in * by lia. constructor; (lia || auto).
    + replace (c + -1) with (c - 1) in * by lia.
      replace (r + 0) with r in * by lia. constructor; (lia || auto).
    + replace (r + 0) with r in * by lia. constructor; (lia || auto).
Qed.

(** ** The goal test against the goal predicate *)

Lemma at_goal_cell g idx wr wc p :
  win_rows g !! idx = Some wr → win_cols g !! idx = Some wc →
  ∃ b, at_goal g idx (Some p) = Some b ∧ (b = true ↔ goal_cell wr wc p).
Proof.
  intros Hr Hc. destruct p as [r c]. unfold at_goal, goal_cell.
  rewrite Hr; simpl.
  destruct wr as [x|]; simpl.
  - destruct (decide (r = x)) as [->|Hne].
    + rewrite bool_decide_eq_true_2 by done. simpl.
      exists true. split; [done|]. split; [by left|done].
    + rewrite bool_decide_eq_false_2 by done. rewrite Hc; simpl.
      destruct wc as [y|]; simpl.
      * eexists; split; [done|]. rewrite bool_decide_eq_true.
        split; [intros ->; by right|]. intros [?|?]; congruence.
      * exists false. split; [done|]. split; [done|].
        intros [?|?]; congruence.
  - rewrite Hc; simpl. destruct wc as [y|]; simpl.
    + eexists; split; [done|]. rewrite bool_decide_eq_true.
      split; [intros ->; by right|]. intros [?|?]; congruence.
    + exists false. split; [done|]. split; [done|].
      intros [?|?]; congruence.
Qed.

(** ** One expansion of the search *)

Section expansion.
Variables (N : Z) (H V : gset (Z * Z)) (curr : Z * Z).

Lemma unvisited_insert (y : Z * Z) (v : gset (Z * Z)) :
  y ∈ cells N → y ∉ v →
  (unvisited N ({[ y ]} ∪ v) < unvisited N v)%nat.
Proof.
  unfold unvisited. generalize (cells N) as l.
  assert (Hle : ∀ l : list (Z * Z),
    (length (filter (λ x, x ∉ {[ y ]} ∪ v) l)
     ≤ length (filter (λ x, x ∉ v) l))%nat).
  { induction l as [|a l IH]; [done|].
    rewrite !filter_cons. repeat case_decide; simpl; try lia.
    set_solver. }
  induction l as [|a l IH]; intros Hin Hy.
  - by apply elem_of_nil in Hin.
  - rewrite !filter_cons. apply elem_of_cons in Hin as [<-|Hin].
    + rewrite decide_False by set_solver.
      rewrite decide_True by done. simpl. specialize (Hle l). lia.
    + specialize (IH Hin Hy).
      repeat case_decide; simpl; try lia. set_solver.
Qed.

Lemma bfs_visit_cases (qv : list (Z * Z) * gset (Z * Z)) (d : Z * Z) :
  (bfs_visit N H V curr qv d = qv
   ∧ ∀ y, code_step N H V curr d y → y ∈ qv.2)
  ∨ (∃ y, code_step N H V curr d y ∧ (y ∉ qv.2)
        ∧ bfs_visit N H V curr qv d = (qv.1 ++ [y], {[ y ]} ∪ qv.2)).
Proof.
  unfold bfs_visit, code_step. destruct curr as [r c], d as [dr dc]; simpl.
  destruct (in_board N (r + dr) (c + dc)) eqn:Hb; simpl.
  2:{ left. split; [done|]. intros y (-> & Hb' & _). simpl in Hb'.
      congruence. }
  destruct (wall_blocks H V r c dr dc) eqn:Hw.
  { left. split; [done|]. intros y (_ & _ & ?). congruence. }
  case_bool_decide as Hv.
  - right. exists (r + dr, c + dc). done.
  - left. split; [done|]. intros y (-> & _ & _).
    destruct (decide ((r + dr, c + dc) ∈ qv.2)); tauto.
Qed.

Lemma foldl_bfs_visit_ok ds qv :
  expand_ok N H V curr ds qv (foldl (bfs_visit N H V curr) qv ds).
Proof.
  revert qv. induction ds as [|d ds IH]; intros qv; simpl.
  - split; [done|]. split.
    + exists []. rewrite app_nil_r. split_and!; auto.
      simpl. lia.
    + intros d y Hd. by apply elem_of_nil in Hd.
  - destruct (bfs_visit_cases qv d) as [[Heq Hcl]|(y & Hy & Hny & Heq)];
      rewrite Heq.
    + destruct (IH qv) as (Hsub & (new & Hq & Hnew & Hback & Hm) & Hcl').
      split; [done|]. split.
      * exists new. split_and!; auto.
        eapply Forall_impl; [exact Hnew|].
        intros z [(d' & Hd' & Hz) Hz']. split; [|done].
        exists d'. split; [set_solver|done].
      * intros d' z Hd' Hz. apply elem_of_cons in Hd' as [->|Hd'].
        -- apply Hsub. by apply Hcl.
        -- by eapply Hcl'.
    + destruct (IH (qv.1 ++ [y], {[ y ]} ∪ qv.2))
        as (Hsub & (new & Hq & Hnew & Hback & Hm) & Hcl').
      simpl in *.
      assert (Hcell : y ∈ cells N).
      { destruct Hy as (_ & Hb & _). destruct y. by apply in_board_cells. }
      pose proof (unvisited_insert y qv.2 Hcell Hny) as Hlt.
      split; [set_solver|]. split.
      * exists (y :: new). split_and!.
        -- rewrite Hq. by rewrite <- app_assoc.
        -- constructor.
           ++ split; [|set_solver]. exists d. split; [set_solver|done].
           ++ eapply Forall_impl; [exact Hnew|].
              intros z [(d' & Hd' & Hz) Hz']. split; [|done].
              exists d'. split; [set_solver|done].
        -- intros x Hx. apply Hback in Hx. set_solver.
        -- simpl. lia.
      * intros d' z Hd' Hz. apply elem_of_cons in Hd' as [->|Hd'].
        -- destruct Hz as (-> & _), Hy as (-> & _). set_solver.
        -- by eapply Hcl'.
Qed.

Lemma bfs_expand_ok qv :
  expand_ok N H V curr directions qv (bfs_expand N H V curr qv).
Proof. apply foldl_bfs_visit_ok. Qed.
End expansion.

(** ** The search loop *)

Section search.
Variables (g : Game) (idx : nat) (H V : gset (Z * Z)).
Variables (wr wc : option Z) (start : Z * Z).
Hypothesis Hwr : win_rows g !! idx = Some wr.
Hypothesis Hwc : win_cols g !! idx = Some wc.

Lemma search_inv_init :
  search_inv (BOARD_SIZE g) H V wr wc start [start] {[ start ]}.
Proof.
  split; [set_solver|]. split.
  - intros x Hx. apply list_elem_of_singleton in Hx as ->.
    split; [set_solver|done].
  - intros x Hx Hnx. set_solver.
Qed.

Lemma search_inv_closed visited :
  search_inv (BOARD_SIZE g) H V wr wc start [] visited →
  ¬ reaches_goal (BOARD_SIZE g) H V wr wc start.
Proof.
  intros (Hs & _ & Hcl) (t & Hpath & Hgoal).
  assert (Hin : t ∈ visited).
  { clear Hgoal. revert t Hpath.
    apply (rtc_ind_r (λ z, z ∈ visited) start); [done|].
    intros y z _ Hyz Hy.
    eapply Hcl; [exact Hy|apply not_elem_of_nil|done]. }
  destruct (Hcl t Hin (not_elem_of_nil _)) as [Hng _]. done.
Qed.

Lemma search_inv_step curr rest visited :
  search_inv (BOARD_SIZE g) H V wr wc start (curr :: rest) visited →
  ¬ goal_cell wr wc curr →
  let qv := bfs_expand (BOARD_SIZE g) H V curr (rest, visited) in
  search_inv (BOARD_SIZE g) H V wr wc start qv.1 qv.2
  ∧ (unvisited (BOARD_SIZE g) qv.2 + length qv.1
     < unvisited (BOARD_SIZE g) visited + length (curr :: rest))%nat.
Proof.
  intros (Hs & Hq & Hcl) Hng qv.
  destruct (bfs_expand_ok (BOARD_SIZE g) H V curr (rest, visited))
    as (Hsub & (new & Hq' & Hnew & Hback & Hm) & Hall).
  fold qv in Hsub, Hq', Hnew, Hback, Hm, Hall. simpl in *.
  destruct (Hq curr) as [Hcv Hcr]; [set_solver|].
  split.
  - split; [set_solver|]. split.
    + intros x Hx. rewrite Hq' in Hx. apply elem_of_app in Hx as [Hx|Hx].
      * destruct (Hq x); [set_solver|]. split; [set_solver|done].
      * rewrite Forall_forall in Hnew.
        destruct (Hnew x Hx) as [(d & Hd & Hst) Hxv]. split; [done|].
        eapply rtc_r; [exact Hcr|]. apply open_step_code_step. eauto.
    + intros x Hx Hnx.
      assert (Hxv : x ∈ visited).
      { destruct (Hback x Hx) as [|Hn]; [done|].
        exfalso. apply Hnx. rewrite Hq'. set_solver. }
      assert (Hxr : x ∉ rest).
      { intros ?. apply Hnx. rewrite Hq'. set_solver. }
      destruct (decide (x = curr)) as [->|Hne].
      * split; [done|]. intros y Hy.
        apply open_step_code_step in Hy as (d & Hd & Hy). eauto.
      * destruct (Hcl x Hxv) as [Hg Hn]; [set_solver|].
        split; [done|]. intros y Hy. apply Hsub. eauto.
  - rewrite Hq', length_app. simpl. lia.
Qed.

(** With fuel above the measure the loop returns, and what it returns is
    whether a goal cell is reachable. *)
Lemma bfs_loop_correct fuel queue visited :
  search_inv (BOARD_SIZE g) H V wr wc start queue visited →
  (unvisited (BOARD_SIZE g) visited + length queue < fuel)%nat →
  ∃ b, bfs_loop fuel g idx H V queue visited = Some (Some b)
       ∧ (b = true ↔ reaches_goal (BOARD_SIZE g) H V wr wc start).
Proof.
  revert queue visited.
  induction fuel as [|fuel IH]; intros queue visited Hinv Hfuel; [lia|].
  destruct queue as [|curr rest]; simpl.
  - exists false. split; [done|]. split; [done|].
    intros Hr. by apply search_inv_closed in Hinv.
  - destruct (at_goal_cell g idx wr wc curr Hwr Hwc) as (b & -> & Hb).
    destruct b.
    + exists true. split; [done|]. split; [|done]. intros _.
      exists curr. split; [|by apply Hb].
      destruct Hinv as (_ & Hq & _). apply Hq. set_solver.
    + assert (Hng : ¬ goal_cell wr wc curr).
      { intros Hg. apply Hb in Hg. done. }
      destruct (search_inv_step curr rest visited Hinv Hng) as [Hinv' Hm].
      apply IH; [done|]. simpl in *. lia.
Qed.

Lemma find_path_to_goal_correct :
  player_positions g !! idx = Some start →
  ∃ b, find_path_to_goal g idx H V = Some b
       ∧ (b = true ↔ reaches_goal (BOARD_SIZE g) H V wr wc start).
Proof.
  intros Hp. unfold find_path_to_goal. rewrite Hp.
  cbn [mbind option_bind].
  destruct (bfs_loop_correct (bfs_fuel (BOARD_SIZE g)) [start] {[ start ]})
    as (b & -> & Hb).
  - apply search_inv_init.
  - unfold bfs_fuel, unvisited. simpl.
    pose proof (length_filter (λ x, x ∉ ({[ start ]} : gset (Z * Z)))
                  (cells (BOARD_SIZE g))) as Hle.
    rewrite length_cells in Hle. lia.
  - exists b. done.
Qed.
End search.

(** ** Attribute bookkeeping *)

Lemma next_turn_over g : game_over g = true → next_turn g = Some g.
Proof. intros Hover. unfold next_turn. by rewrite Hover. Qed.

Lemma get_possible_moves_total g :
  well_formed g → is_Some (get_possible_moves g).
Proof.
  intros Hwf. unfold get_possible_moves.
  destruct (lookup_lt_is_Some_2 (player_positions g) (current_player g))
    as [[r c] ->]; [|by eexists].
  rewrite (wf_positions g Hwf). apply (wf_current g Hwf).
Qed.

Lemma next_turn_spec g :
  well_formed g →
  ∃ g', next_turn g = Some g' ∧ well_formed g' ∧ board_of g' = board_of g
        ∧ current_player g' =
            (if game_over g then current_player g
             else ((current_player g + 1) `mod` num_players g)%nat).
Proof.
  intros Hwf. unfold next_turn.
  destruct (game_over g) eqn:Hover; simpl.
  { by exists g. }
  pose proof (wf_current g Hwf) as Hcur.
  rewrite bool_decide_eq_false_2 by lia.
  set (g2 := set_message _ (set_current_player _ g)).
  assert (Hwf2 : well_formed g2).
  { destruct Hwf. split; simpl; try done.
    apply Nat.mod_upper_bound. lia. }
  destruct (get_possible_moves_total g2 Hwf2) as [moves ->]. simpl.
  eexists. split; [done|]. split_and!.
  - destruct Hwf2. by split.
  - unfold board_of. simpl. by rewrite Hover.
  - simpl. done.
Qed.

(** ** The move generator *)

Lemma in_board_false N r c :
  in_board N r c = false ↔ ¬ (0 ≤ r < N ∧ 0 ≤ c < N).
Proof. rewrite <- in_board_true. by destruct (in_board N r c). Qed.

Lemma open_step_dir N H V r c d :
  d ∈ directions →
  open_step N H V (r, c) (r + d.1, c + d.2) ↔
    in_board N (r + d.1) (c + d.2) = true
    ∧ wall_blocks H V r c d.1 d.2 = false.
Proof.
  intros Hd. rewrite open_step_code_step. split.
  - intros (d' & Hd' & Heq & Hb & Hw). simpl in *.
    assert (d' = d) as ->; [|done].
    destruct d, d'. simpl in *. f_equal; congruence || (injection Heq; lia).
  - intros [Hb Hw]. exists d. by repeat split.
Qed.

(** For the four directions the offsets tried in the off-board branch are
    the null offset and twice the direction, never a perpendicular one. *)
Lemma side_steps_directions d :
  d ∈ directions →
  side_steps d.1 d.2 = [(0, 0); (2 * d.1, 2 * d.2)]
  ∨ side_steps d.1 d.2 = [(2 * d.1, 2 * d.2); (0, 0)].
Proof.
  unfold directions. rewrite !elem_of_cons, elem_of_nil.
  intros [->|[->|[->|[->|[]]]]]; vm_compute; auto.
Qed.

(** In the off-board branch the side offsets are computed from the
    direction itself: one of them is the null offset, which lands on the
    occupied neighbour, the other doubles the direction and lands off the
    board.  The branch appends nothing. *)
Lemma side_jumps_empty g new_r new_c d :
  d ∈ directions →
  in_board (BOARD_SIZE g) new_r new_c = true →
  (new_r, new_c) ∈ player_positions g →
  in_board (BOARD_SIZE g) (new_r + d.1) (new_c + d.2) = false →
  flat_map (side_jump g new_r new_c) (side_steps d.1 d.2) = [].
Proof.
  intros Hd Hin Hocc Hout.
  apply in_board_true in Hin. apply in_board_false in Hout.
  assert (Hnull : side_jump g new_r new_c (0, 0) = []).
  { unfold side_jump. rewrite !Z.add_0_r.
    destruct (in_board _ _ _); [|done].
    destruct (wall_blocks _ _ _ _ _ _); [done|].
    by rewrite bool_decide_eq_false_2 by tauto. }
  assert (Hfar : ∀ s, s = (2 * d.1, 2 * d.2) →
                      side_jump g new_r new_c s = []).
  { intros s ->. unfold side_jump.
    destruct (in_board _ _ _) eqn:Hb; [|done].
    apply in_board_true in Hb. exfalso.
    unfold directions in Hd. rewrite !elem_of_cons, elem_of_nil in Hd.
    destruct Hd as [->|[->|[->|[->|[]]]]]; simpl in *; lia. }
  destruct (side_steps_directions d Hd) as [-> | ->];
    cbn [flat_map]; by rewrite Hnull, (Hfar _ eq_refl).
Qed.

Lemma moves_in_direction_cases g r c d :
  d ∈ directions →
  let N := BOARD_SIZE g in
  let H := horizontal_walls g in
  let V := vertical_walls g in
  let nb := (r + d.1, c + d.2) in
  let jump := (r + d.1 + d.1, c + d.2 + d.2) in
  let m := moves_in_direction g r c d in
  (¬ open_step N H V (r, c) nb ∧ m = [])
  ∨ (open_step N H V (r, c) nb ∧ (nb ∉ player_positions g) ∧ m = [nb])
  ∨ (open_step N H V (r, c) nb ∧ nb ∈ player_positions g
     ∧ open_step N H V nb jump ∧ (jump ∉ player_positions g)
     ∧ m = [jump])
  ∨ (open_step N H V (r, c) nb ∧ nb ∈ player_positions g
     ∧ ¬ (open_step N H V nb jump ∧ jump ∉ player_positions g) ∧ m = []).
Proof.
  intros Hd N H V nb jump m. subst m nb jump.
  pose proof (open_step_dir N H V r c d Hd) as Hfirst.
  pose proof (open_step_dir N H V (r + d.1) (c + d.2) d Hd) as Hsecond.
  unfold moves_in_direction. destruct d as [dr dc]. simpl in *.
  fold N H V.
  destruct (in_board N (r + dr) (c + dc)) eqn:Hb; simpl.
  2:{ left. split; [|done]. rewrite Hfirst. naive_solver. }
  destruct (wall_blocks H V r c dr dc) eqn:Hw.
  { left. split; [|done]. rewrite Hfirst. naive_solver. }
  assert (Hopen : open_step N H V (r, c) (r + dr, c + dc))
    by (by apply Hfirst).
  case_bool_decide as Hocc.
  2:{ right; left. done. }
  right; right.
  destruct (in_board N (r + dr + dr) (c + dc + dc)) eqn:Hb2; simpl.
  2:{ right. split_and!; [done..| |].
      - rewrite Hsecond. naive_solver.
      - by apply (side_jumps_empty g _ _ (dr, dc)). }
  destruct (wall_blocks H V (r + dr) (c + dc) dr dc) eqn:Hw2.
  { right. split_and!; [done..| |done]. rewrite Hsecond. naive_solver. }
  case_bool_decide as Hocc2.
  - right. split_and!; [done..| |done]. tauto.
  - left. split_and!; [done..| |done|done]. by apply Hsecond.
Qed.

Lemma elem_of_flat_map {A B} (f : A → list B) (l : list A) (y : B) :
  y ∈ flat_map f l ↔ ∃ x, x ∈ l ∧ y ∈ f x.
Proof.
  rewrite list_elem_of_In, in_flat_map.
  by setoid_rewrite list_elem_of_In.
Qed.

Lemma direction_unit d :
  d ∈ directions →
  (d.1 = -1 ∧ d.2 = 0) ∨ (d.1 = 1 ∧ d.2 = 0)
  ∨ (d.1 = 0 ∧ d.2 = -1) ∨ (d.1 = 0 ∧ d.2 = 1).
Proof.
  unfold directions. rewrite !elem_of_cons, elem_of_nil.
  intros [->|[->|[->|[->|[]]]]]; simpl; lia.
Qed.

Lemma get_possible_moves_eq g r c :
  player_positions g !! current_player g = Some (r, c) →
  get_possible_moves g
  = Some (flat_map (moves_in_direction g r c) directions).
Proof. intros Hp. unfold get_possible_moves. by rewrite Hp. Qed.

Lemma get_possible_moves_inv g moves :
  get_possible_moves g = Some moves →
  ∃ r c, player_positions g !! current_player g = Some (r, c)
         ∧ moves = flat_map (moves_in_direction g r c) directions.
Proof.
  intros Hm.
  destruct (player_positions g !! current_player g) as [[r c]|] eqn:Hp.
  - rewrite (get_possible_moves_eq g r c Hp) in Hm. injection Hm as <-.
    by exists r, c.
  - unfold get_possible_moves in Hm. by rewrite Hp in Hm.
Qed.

(** Everything the generator returns is a cell no player stands on. *)
Lemma possible_moves_unoccupied g moves x :
  get_possible_moves g = Some moves → x ∈ moves →
  x ∉ player_positions g.
Proof.
  intros (r & c & _ & ->)%get_possible_moves_inv.
  rewrite elem_of_flat_map. intros (d & Hd & Hx).
  destruct (moves_in_direction_cases g r c d Hd)
    as [[_ Hm]|[(_ & Hn & Hm)|[(_ & _ & _ & Hn & Hm)|(_ & _ & _ & Hm)]]];
    rewrite Hm in Hx.
  - by apply elem_of_nil in Hx.
  - by apply list_elem_of_singleton in Hx as ->.
  - by apply list_elem_of_singleton in Hx as ->.
  - by apply elem_of_nil in Hx.
Qed.

(** ** C5 *)

(** C5.  Let the active player stand on [(r, c)] and let the neighbour
    [nb] in direction [d] be on the board, not walled off and occupied.
    Then the cell [jump] two steps away in that direction is a legal
    destination exactly when both half-steps are open (which includes
    [jump] being on the board) and [jump] is unoccupied; if [jump] is on the
    board but the second half-step is walled, the direction contributes no
    destination; and [nb] itself is never a legal destination.  In the
    position with A on (4,4), B on (3,4) and no walls, A's legal moves
    contain (2,4) and not (3,4). *)
Theorem jump_over_opponent :
  (∀ g r c d moves,
     player_positions g !! current_player g = Some (r, c) →
     get_possible_moves g = Some moves →
     d ∈ directions →
     let N := BOARD_SIZE g in
     let H := horizontal_walls g in
     let V := vertical_walls g in
     let nb := (r + d.1, c + d.2) in
     let jump := (r + 2 * d.1, c + 2 * d.2) in
     open_step N H V (r, c) nb →
     nb ∈ player_positions g →
     (jump ∈ moves ↔
        open_step N H V (r, c) nb ∧ open_step N H V nb jump
        ∧ jump ∉ player_positions g)
     ∧ (0 ≤ jump.1 < N ∧ 0 ≤ jump.2 < N → ¬ open_step N H V nb jump →
        moves_in_direction g r c d = [])
     ∧ nb ∉ moves)
  ∧ (∃ moves, get_possible_moves jump_example = Some moves
              ∧ (2, 4) ∈ moves ∧ (3, 4) ∉ moves).
Proof.
  split.
  - intros g r c d moves Hpos Hmoves Hd N H V nb jump Hopen Hocc.
    assert (Hj : jump = (r + d.1 + d.1, c + d.2 + d.2))
      by (subst jump; f_equal; lia).
    split_and!.
    + rewrite (get_possible_moves_eq g r c Hpos) in Hmoves.
      assert (moves = flat_map (moves_in_direction g r c) directions)
        as -> by congruence.
      rewrite elem_of_flat_map. split.
      * intros (d' & Hd' & Hx).
        destruct (moves_in_direction_cases g r c d' Hd')
          as [[_ Hm]|[(_ & Hn & Hm)|[(_ & _ & Ho & Hn & Hm)
                                    |(_ & _ & _ & Hm)]]];
          rewrite Hm in Hx.
        -- by apply elem_of_nil in Hx.
        -- apply list_elem_of_singleton in Hx. exfalso.
           apply direction_unit in Hd, Hd'. subst jump.
           injection Hx as Hx1 Hx2. lia.
        -- apply list_elem_of_singleton in Hx.
           assert (d' = d) as ->.
           { apply direction_unit in Hd, Hd'. subst jump.
             injection Hx as Hx1 Hx2. destruct d, d'; simpl in *.
             f_equal; lia. }
           fold N H V in Ho. rewrite <- Hj in Ho, Hn. done.
        -- by apply elem_of_nil in Hx.
      * intros (_ & Ho & Hn). exists d. split; [done|].
        destruct (moves_in_direction_cases g r c d Hd)
          as [[Hno _]|[(_ & Hno & _)|[(_ & _ & _ & _ & Hm)
                                     |(_ & _ & Hno & _)]]].
        -- done.
        -- done.
        -- rewrite Hm, <- Hj. set_solver.
        -- exfalso. apply Hno. fold N H V. by rewrite <- Hj.
    + intros Hin Hblocked.
      destruct (moves_in_direction_cases g r c d Hd)
        as [[_ Hm]|[(_ & Hno & _)|[(_ & _ & Ho & _)|(_ & _ & _ & Hm)]]].
      * done.
      * done.
      * exfalso. apply Hblocked. fold N H V in Ho. by rewrite Hj.
      * done.
    + intros Hin. by eapply possible_moves_unoccupied in Hin.
  - eexists. split; [by vm_compute|]. split.
    + set_solver.
    + rewrite !elem_of_cons, elem_of_nil. naive_solver.
Qed.

(** ** The two mutators, case by case *)

Lemma at_goal_total g idx p :
  well_formed g → (idx < num_players g)%nat →
  ∃ wr wc b, win_rows g !! idx = Some wr ∧ win_cols g !! idx = Some wc
             ∧ at_goal g idx (Some p) = Some b
             ∧ (b = true ↔ goal_cell wr wc p).
Proof.
  intros Hwf Hidx.
  destruct (lookup_lt_is_Some_2 (win_rows g) idx) as [wr Hwr];
    [by rewrite (wf_win_rows g Hwf)|].
  destruct (lookup_lt_is_Some_2 (win_cols g) idx) as [wc Hwc];
    [by rewrite (wf_win_cols g Hwf)|].
  destruct (at_goal_cell g idx wr wc p Hwr Hwc) as (b & Hb & Hiff).
  by exists wr, wc, b.
Qed.

Lemma move_player_cases g r c b g' :
  move_player g r c = Some (b, g') →
  ∃ moves, get_possible_moves g = Some moves
    ∧ ((b = false ∧ ((r, c) ∉ moves) ∧ g' = set_message "Invalid move!" g)
       ∨ (b = true ∧ (r, c) ∈ moves
          ∧ let g1 := set_player_positions
                        (<[current_player g := (r, c)]> (player_positions g))
                        g in
            (at_goal g1 (current_player g) (Some (r, c)) = Some true
             ∧ g' = set_message (win_message (current_player g))
                      (set_winner (Some (current_player g))
                         (set_game_over true g1)))
            ∨ (at_goal g1 (current_player g) (Some (r, c)) = Some false
               ∧ next_turn g1 = Some g'))).
Proof.
  unfold move_player.
  destruct (get_possible_moves g) as [moves|]; [|done].
  cbn [mbind option_bind]. intros Hm. exists moves. split; [done|].
  case_bool_decide as Hin.
  - left. by injection Hm as <- <-.
  - right. cbn [current_player set_player_positions] in Hm.
    destruct (at_goal _ _ _) as [[|]|] eqn:Hgoal;
      cbn [mbind option_bind] in Hm; [| |done].
    + injection Hm as <- <-. split_and!; [done| |by left].
      destruct (decide ((r, c) ∈ moves)); tauto.
    + destruct (next_turn _) as [g2|] eqn:Hnext;
        cbn [mbind option_bind] in Hm; [|done].
      injection Hm as <- <-. split_and!; [done| |by right].
      destruct (decide ((r, c) ∈ moves)); tauto.
Qed.

Lemma set_positions_well_formed g i p :
  well_formed g →
  well_formed (set_player_positions (<[i := p]> (player_positions g)) g).
Proof.
  intros [? ? ? ? ? ?]. split; simpl; try done. by rewrite length_insert.
Qed.

Lemma move_player_total g r c :
  well_formed g → ∃ b g', move_player g r c = Some (b, g').
Proof.
  intros Hwf. unfold move_player.
  destruct (get_possible_moves_total g Hwf) as [moves ->].
  cbn [mbind option_bind]. case_bool_decide; [by eexists _, _|].
  set (g1 := set_player_positions _ g).
  assert (Hwf1 : well_formed g1) by by apply set_positions_well_formed.
  destruct (at_goal_total g1 (current_player g1) (r, c) Hwf1)
    as (wr & wc & b & _ & _ & -> & _); [apply (wf_current g1 Hwf1)|].
  cbn [mbind option_bind]. destruct b; [by eexists _, _|].
  destruct (next_turn_spec g1 Hwf1) as (g2 & -> & _).
  by eexists _, _.
Qed.

Lemma move_player_well_formed g r c b g' :
  well_formed g → move_player g r c = Some (b, g') → well_formed g'.
Proof.
  intros Hwf (moves & _ & Hcases)%move_player_cases.
  destruct Hcases as [(_ & _ & ->)|(_ & _ & [[_ ->]|[_ Hnext]])].
  - destruct Hwf. by split.
  - pose proof (set_positions_well_formed g (current_player g) (r, c) Hwf)
      as [? ? ? ? ? ?]. by split.
  - pose proof (set_positions_well_formed g (current_player g) (r, c) Hwf)
      as Hwf1.
    destruct (next_turn_spec _ Hwf1) as (g2 & Hg2 & Hwf2 & _).
    rewrite Hnext in Hg2. by injection Hg2 as <-.
Qed.

Lemma place_wall_cases g r c wall_type b g' :
  place_wall g r c wall_type = Some (b, g') →
  ∃ left, walls_remaining g !! current_player g = Some left
    ∧ ((b = false ∧ left ≤ 0 ∧ g' = set_message "No walls remaining!" g)
       ∨ (b = false ∧ 0 < left
          ∧ is_valid_wall_placement g r c wall_type = Some false
          ∧ g' = set_message
                   "Invalid wall placement! Can't block all paths." g)
       ∨ (b = true ∧ 0 < left
          ∧ is_valid_wall_placement g r c wall_type = Some true
          ∧ ∃ mine, player_walls g !! current_player g = Some mine
              ∧ next_turn (commit_wall g r c wall_type left mine)
                = Some g')).
Proof.
  unfold place_wall.
  destruct (walls_remaining g !! current_player g) as [left|]; [|done].
  cbn [mbind option_bind]. intros Hp. exists left. split; [done|].
  case_bool_decide as Hleft.
  { left. by injection Hp as <- <-. }
  right.
  destruct (is_valid_wall_placement g r c wall_type) as [[|]|];
    cbn [mbind option_bind negb] in Hp; [| |done].
  - right.
    destruct (player_walls g !! current_player g) as [mine|];
      cbn [mbind option_bind] in Hp; [|done].
    destruct (next_turn _) as [g3|] eqn:Hnext;
      cbn [mbind option_bind] in Hp; [|done].
    injection Hp as <- <-. split_and!; [done|lia|done|]. by exists mine.
  - left. injection Hp as <- <-. split_and!; [done|lia|done|done].
Qed.

Lemma commit_wall_well_formed g r c wall_type left mine :
  well_formed g → well_formed (commit_wall g r c wall_type left mine).
Proof.
  intros [? ? ? ? ? Hpw]. unfold commit_wall.
  case_bool_decide; split; simpl; try done;
    try (by rewrite length_insert);
    intros i Hi; (destruct (decide (i = current_player g)) as [->|Hne];
      [rewrite lookup_insert_eq; by eexists
      |rewrite lookup_insert_ne by done; by apply Hpw]).
Qed.

Lemma commit_wall_walls g r c wall_type left mine :
  let g2 := commit_wall g r c wall_type left mine in
  (horizontal_walls g2, vertical_walls g2) = test_walls g r c wall_type
  ∧ BOARD_SIZE g2 = BOARD_SIZE g ∧ num_players g2 = num_players g
  ∧ player_positions g2 = player_positions g
  ∧ win_rows g2 = win_rows g ∧ win_cols g2 = win_cols g
  ∧ current_player g2 = current_player g
  ∧ game_over g2 = game_over g ∧ winner g2 = winner g.
Proof.
  unfold commit_wall, test_walls. by case_bool_decide.
Qed.

Lemma place_wall_well_formed g r c wall_type b g' :
  well_formed g → place_wall g r c wall_type = Some (b, g') →
  well_formed g'.
Proof.
  intros Hwf (left & _ & Hcases)%place_wall_cases.
  destruct Hcases as [(_ & _ & ->)|[(_ & _ & _ & ->)
                                   |(_ & _ & _ & mine & _ & Hnext)]].
  - destruct Hwf. by split.
  - destruct Hwf. by split.
  - pose proof (commit_wall_well_formed g r c wall_type left mine Hwf)
      as Hwf2.
    destruct (next_turn_spec _ Hwf2) as (g3 & Hg3 & Hwf3 & _).
    rewrite Hnext in Hg3. by injection Hg3 as <-.
Qed.

(** ** Reachable states are well formed *)

Lemma initialize_game_well_formed N n g :
  (1 ≤ n ≤ 4)%nat → initialize_game N n = Some g → well_formed g.
Proof.
  intros Hn. unfold initialize_game.
  destruct (get_possible_moves _) as [moves|]; [|done].
  cbn [mbind option_bind]. intros [= <-].
  assert (n = 1 ∨ n = 2 ∨ n = 3 ∨ n = 4)%nat
    as [-> | [-> | [-> | ->]]] by lia;
    (split; simpl; try done; try lia;
     intros i Hi;
     repeat (destruct i as [|i]; [by eexists|]); lia).
Qed.

Lemma reachable_well_formed g : reachable g → well_formed g.
Proof.
  induction 1 as [N n g HN Hn Hinit|g r c b g' _ IH Hm|g r c w b g' _ IH Hp].
  - by eapply initialize_game_well_formed.
  - by eapply move_player_well_formed.
  - by eapply place_wall_well_formed.
Qed.

Lemma next_turn_inv g g' :
  next_turn g = Some g' →
  board_of g' = board_of g
  ∧ current_player g' =
      (if game_over g then current_player g
       else ((current_player g + 1) `mod` num_players g)%nat).
Proof.
  unfold next_turn. destruct (game_over g) eqn:Hover; simpl.
  { by intros [= <-]. }
  case_bool_decide; [done|].
  destruct (get_possible_moves _) as [moves|]; [|done].
  cbn [mbind option_bind]. intros [= <-].
  unfold board_of. simpl. by rewrite Hover.
Qed.

(** What [move_player] never touches. *)
Lemma move_player_frame g r c b g' :
  move_player g r c = Some (b, g') →
  BOARD_SIZE g' = BOARD_SIZE g ∧ num_players g' = num_players g
  ∧ win_rows g' = win_rows g ∧ win_cols g' = win_cols g
  ∧ walls_remaining g' = walls_remaining g
  ∧ player_walls g' = player_walls g
  ∧ horizontal_walls g' = horizontal_walls g
  ∧ vertical_walls g' = vertical_walls g.
Proof.
  intros (moves & _ & Hcases)%move_player_cases.
  destruct Hcases as [(_ & _ & ->)|(_ & _ & [[_ ->]|[_ Hnext]])]; [done..|].
  apply next_turn_inv in Hnext as [Hb _]. unfold board_of in Hb.
  simpl in Hb. by simplify_eq.
Qed.

(** What [place_wall] never touches. *)
Lemma place_wall_frame g r c wall_type b g' :
  place_wall g r c wall_type = Some (b, g') →
  BOARD_SIZE g' = BOARD_SIZE g ∧ num_players g' = num_players g
  ∧ player_positions g' = player_positions g
  ∧ win_rows g' = win_rows g ∧ win_cols g' = win_cols g
  ∧ game_over g' = game_over g ∧ winner g' = winner g.
Proof.
  intros (left & _ & Hcases)%place_wall_cases.
  destruct Hcases as [(_ & _ & ->)|[(_ & _ & _ & ->)
                                   |(_ & _ & _ & mine & _ & Hnext)]];
    [done..|].
  apply next_turn_inv in Hnext as [Hb _]. unfold board_of in Hb.
  destruct (commit_wall_walls g r c wall_type left mine)
    as (_ & ? & ? & ? & ? & ? & _ & ? & ?).
  simplify_eq. split_and!; congruence.
Qed.

(** ** C9 *)

Lemma NoDup_insert_fresh {A} (l : list A) (i : nat) (x : A) :
  NoDup l → x ∉ l → NoDup (<[i := x]> l).
Proof.
  intros Hnd. revert i. induction Hnd as [|a l Ha Hnd IH]; intros i Hx.
  - destruct i; apply NoDup_nil_2.
  - apply not_elem_of_cons in Hx as [Hxa Hxl]. destruct i as [|i]; simpl.
    + by constructor.
    + constructor; [|by apply IH]. intros Hin.
      apply list_elem_of_lookup in Hin as [j Hj].
      destruct (decide (i = j)) as [->|Hne].
      * destruct (decide (j < length l)%nat).
        -- rewrite list_lookup_insert_eq in Hj by done. congruence.
        -- rewrite list_insert_ge in Hj by lia.
           apply Ha. by eapply list_elem_of_lookup_2.
      * rewrite list_lookup_insert_ne in Hj by done.
        apply Ha. by eapply list_elem_of_lookup_2.
Qed.

Lemma initialize_game_positions N n g :
  3 ≤ N → (1 ≤ n ≤ 4)%nat → initialize_game N n = Some g →
  NoDup (player_positions g).
Proof.
  intros HN Hn. unfold initialize_game.
  destruct (get_possible_moves _) as [moves|]; [|done].
  cbn [mbind option_bind]. intros [= <-]. simpl.
  assert (Hhalf : 1 ≤ N `div` 2 < N - 1)
    by (Z.div_mod_to_equations; lia).
  assert (n = 1 ∨ n = 2 ∨ n = 3 ∨ n = 4)%nat
    as [-> | [-> | [-> | ->]]] by lia;
    simpl; rewrite ?NoDup_cons, ?not_elem_of_cons, ?elem_of_nil;
    split_and!; try (intros [=]; lia); try tauto; apply NoDup_nil_2.
Qed.

Lemma move_player_positions g r c g' :
  move_player g r c = Some (true, g') →
  ((r, c) ∉ player_positions g)
  ∧ player_positions g'
    = <[current_player g := (r, c)]> (player_positions g).
Proof.
  intros (moves & Hmoves & Hcases)%move_player_cases.
  destruct Hcases as [(? & _)|(_ & Hin & Hres)]; [done|].
  split; [by eapply possible_moves_unoccupied|].
  destruct Hres as [[_ ->]|[_ Hnext]]; [done|].
  apply next_turn_inv in Hnext as [Hb _]. unfold board_of in Hb.
  simpl in Hb. by simplify_eq.
Qed.

Lemma reachable_positions_NoDup g : reachable g → NoDup (player_positions g).
Proof.
  induction 1 as [N n g HN Hn Hinit|g r c b g' _ IH Hm|g r c w b g' _ IH Hp].
  - by eapply initialize_game_positions.
  - destruct b.
    + apply move_player_positions in Hm as [Hfree ->].
      by apply NoDup_insert_fresh.
    + apply move_player_cases in Hm as (moves & _ & Hcases).
      destruct Hcases as [(_ & _ & ->)|(? & _)]; done.
  - apply place_wall_frame in Hp as (_ & _ & -> & _). done.
Qed.

(** C9.  In every state reachable from initialization the player
    positions are pairwise distinct (this covers the starting layout);
    every destination in the legal-move set is a cell on which no player
    stands; and a successful move puts the active player on the requested
    cell, which was free, leaving the positions pairwise distinct. *)
Theorem one_player_per_cell g :
  reachable g →
  NoDup (player_positions g)
  ∧ (∀ moves x, get_possible_moves g = Some moves → x ∈ moves →
                x ∉ player_positions g)
  ∧ (∀ r c g', move_player g r c = Some (true, g') →
       ((r, c) ∉ player_positions g)
       ∧ player_positions g' !! current_player g = Some (r, c)
       ∧ NoDup (player_positions g')).
Proof.
  intros Hreach. split_and!.
  - by apply reachable_positions_NoDup.
  - intros moves x. apply possible_moves_unoccupied.
  - intros r c g' Hm.
    pose proof (reachable_move g r c true g' Hreach Hm) as Hreach'.
    apply reachable_positions_NoDup in Hreach'.
    apply move_player_positions in Hm as [Hfree Hpos].
    split_and!; [done| |done].
    rewrite Hpos. apply list_lookup_insert_eq.
    apply reachable_well_formed in Hreach as Hwf.
    rewrite (wf_positions g Hwf). apply (wf_current g Hwf).
Qed.

(** ** Concrete runs *)

Lemma new_game_start : new_game = Some start_position.
Proof. by vm_compute. Qed.

Lemma start_position_reachable : reachable start_position.
Proof. apply (reachable_init 9 2); [lia|lia|apply new_game_start]. Qed.

Lemma perform_reachable g a g' :
  reachable g → perform g a = Some g' → reachable g'.
Proof.
  intros Hr. destruct a as [r c|r c w]; simpl.
  - destruct (move_player g r c) as [[b g1]|] eqn:Hm; [|done].
    intros [= <-]. by eapply reachable_move.
  - destruct (place_wall g r c w) as [[b g1]|] eqn:Hp; [|done].
    intros [= <-]. by eapply reachable_wall.
Qed.

Lemma play_reachable script g g' :
  reachable g → play script g = Some g' → reachable g'.
Proof.
  revert g. induction script as [|a script IH]; intros g Hr; simpl.
  - by intros [= <-].
  - destruct (perform g a) as [g1|] eqn:Ha; [|done]. simpl.
    apply IH. by eapply perform_reachable.
Qed.

Lemma winning_script_run :
  play winning_script start_position = Some finished_example.
Proof. by vm_compute. Qed.

Lemma finished_example_reachable : reachable finished_example.
Proof.
  eapply play_reachable;
    [apply start_position_reachable|apply winning_script_run].
Qed.

Lemma edge_script_run :
  play edge_script start_position = Some edge_example.
Proof. by vm_compute. Qed.

Lemma edge_example_reachable : reachable edge_example.
Proof.
  eapply play_reachable;
    [apply start_position_reachable|apply edge_script_run].
Qed.

(** ** C2 *)

(** C2.  For a player index with a position and goal entries, and any pair
    of wall sets, [find_path_to_goal] returns, and it returns [True]
    exactly when some sequence of orthogonal steps, each onto the board
    and across an edge that no blocker unit of the given sets closes,
    leads from the player's cell to a cell whose row is the goal row or
    whose column is the goal column; it returns [False] exactly when there
    is no such sequence. *)
Theorem find_path_to_goal_iff_path g player_idx H V start wr wc :
  player_positions g !! player_idx = Some start →
  win_rows g !! player_idx = Some wr →
  win_cols g !! player_idx = Some wc →
  (find_path_to_goal g player_idx H V = Some true
   ↔ reaches_goal (BOARD_SIZE g) H V wr wc start)
  ∧ (find_path_to_goal g player_idx H V = Some false
     ↔ ¬ reaches_goal (BOARD_SIZE g) H V wr wc start).
Proof.
  intros Hp Hwr Hwc.
  destruct (find_path_to_goal_correct g player_idx H V wr wc start
              Hwr Hwc Hp) as (b & -> & Hb).
  destruct b; split; split; try done.
  - intros _. by apply Hb.
  - intros Hn. exfalso. apply Hn. by apply Hb.
  - intros Hr. apply Hb in Hr. done.
  - intros _ Hr. apply Hb in Hr. done.
Qed.

Lemma find_path_to_goal_iff_path_witness :
  (find_path_to_goal start_position 0 ∅ ∅ = Some true
   ↔ reaches_goal 9 ∅ ∅ (Some 0) None (8, 4))
  ∧ (find_path_to_goal start_position 0 ∅ ∅ = Some false
     ↔ ¬ reaches_goal 9 ∅ ∅ (Some 0) None (8, 4)).
Proof.
  apply (find_path_to_goal_iff_path start_position 0 ∅ ∅ (8, 4)
           (Some 0) None); reflexivity.
Defined.

(** ** C3 *)

Lemma at_goal_same_goals g1 g idx p :
  win_rows g1 = win_rows g → win_cols g1 = win_cols g →
  at_goal g1 idx p = at_goal g idx p.
Proof. intros Hr Hc. unfold at_goal. by rewrite Hr, Hc. Qed.

(** C3.  In a well-formed state that is not terminal, [move_player]
    returns; it fails (with the message "Invalid move!" and the game state
    unchanged) exactly when the requested cell is not among the legal
    moves; on success the active player's position is that cell, and if
    the cell satisfies the player's goal predicate the game is over with
    that player as winner, otherwise the game is not over and the turn
    passes to [(current_player + 1) mod num_players]. *)
Theorem move_player_spec g r c :
  well_formed g → game_over g = false →
  ∃ moves b g',
    get_possible_moves g = Some moves
    ∧ move_player g r c = Some (b, g')
    ∧ (b = false ↔ (r, c) ∉ moves)
    ∧ (b = false →
       message g' = "Invalid move!" ∧ game_state g' = game_state g)
    ∧ (b = true →
       player_positions g'
       = <[current_player g := (r, c)]> (player_positions g)
       ∧ player_positions g' !! current_player g = Some (r, c)
       ∧ ∃ wr wc,
           win_rows g !! current_player g = Some wr
           ∧ win_cols g !! current_player g = Some wc
           ∧ (goal_cell wr wc (r, c) →
              game_over g' = true ∧ winner g' = Some (current_player g)
              ∧ current_player g' = current_player g)
           ∧ (¬ goal_cell wr wc (r, c) →
              game_over g' = false ∧ winner g' = winner g
              ∧ current_player g'
                = ((current_player g + 1) `mod` num_players g)%nat)).
Proof.
  intros Hwf Hlive.
  destruct (move_player_total g r c Hwf) as (b & g' & Hm).
  pose proof Hm as (moves & Hmoves & Hcases)%move_player_cases.
  exists moves, b, g'. split_and!; [done|done| | |].
  - destruct Hcases as [(-> & Hn & _)|(-> & Hin & _)];
      split; first [done | intros Hn; by destruct Hn].
  - intros ->. destruct Hcases as [(_ & _ & ->)|(? & _)]; done.
  - intros ->. destruct Hcases as [(? & _)|(_ & Hin & Hres)]; [done|].
    apply move_player_positions in Hm as [_ Hpos].
    pose proof (wf_current g Hwf) as Hcur.
    destruct (at_goal_total g (current_player g) (r, c) Hwf Hcur)
      as (wr & wc & w & Hwr & Hwc & Hgoal & Hiff).
    split_and!; [done| |].
    { rewrite Hpos. apply list_lookup_insert_eq.
      by rewrite (wf_positions g Hwf). }
    exists wr, wc. split_and!; [done|done| |].
    + intros Hg. apply Hiff in Hg as ->.
      destruct Hres as [[_ ->]|[Hno _]]; [done|].
      rewrite (at_goal_same_goals _ g) in Hno by done. congruence.
    + intros Hng. assert (w = false) as ->.
      { destruct w; [|done]. destruct Hng. by apply Hiff. }
      destruct Hres as [[Hyes _]|[_ Hnext]].
      { rewrite (at_goal_same_goals _ g) in Hyes by done. congruence. }
      apply next_turn_inv in Hnext as [Hb Hcp]. simpl in Hcp.
      rewrite Hlive in Hcp. unfold board_of in Hb. simpl in Hb.
      simplify_eq. split_and!; congruence.
Qed.

Lemma move_player_spec_witness :
  ∃ moves b g',
    get_possible_moves start_position = Some moves
    ∧ move_player start_position 7 4 = Some (b, g')
    ∧ (b = false ↔ (7, 4) ∉ moves)
    ∧ (b = false →
       message g' = "Invalid move!"
       ∧ game_state g' = game_state start_position)
    ∧ (b = true →
       player_positions g'
       = <[current_player start_position := (7, 4)]>
           (player_positions start_position)
       ∧ player_positions g' !! current_player start_position
         = Some (7, 4)
       ∧ ∃ wr wc,
           win_rows start_position !! current_player start_position
           = Some wr
           ∧ win_cols start_position !! current_player start_position
             = Some wc
           ∧ (goal_cell wr wc (7, 4) →
              game_over g' = true
              ∧ winner g' = Some (current_player start_position)
              ∧ current_player g' = current_player start_position)
           ∧ (¬ goal_cell wr wc (7, 4) →
              game_over g' = false ∧ winner g' = winner start_position
              ∧ current_player g'
                = ((current_player start_position + 1)
                   `mod` num_players start_position)%nat)).
Proof.
  apply (move_player_spec start_position 7 4).
  - apply reachable_well_formed, start_position_reachable.
  - reflexivity.
Defined.

(** ** C7 *)

(** C7.  A rejected [move_player] and a rejected [place_wall] (whether for
    an exhausted wall count or for an illegal placement) leave the game
    state - positions, both wall sets, wall counts, placed-wall lists,
    current player, terminal flag and winner - equal to the state before
    the call: the returned object is the old one with a new message.  The
    trial sets of the validation are copies, so the validation is a
    function of the object and returns nothing but its verdict. *)
Theorem rejected_call_changes_nothing g r c wall_type g' :
  move_player g r c = Some (false, g')
  ∨ place_wall g r c wall_type = Some (false, g') →
  game_state g' = game_state g ∧ g' = set_message (message g') g.
Proof.
  intros [Hm|Hp].
  - apply move_player_cases in Hm as (moves & _ & Hcases).
    destruct Hcases as [(_ & _ & ->)|(? & _)]; done.
  - apply place_wall_cases in Hp as (left & _ & Hcases).
    destruct Hcases as [(_ & _ & ->)|[(_ & _ & _ & ->)|(? & _)]]; done.
Qed.

Lemma rejected_call_changes_nothing_witness :
  game_state (set_message "Invalid move!" start_position)
  = game_state start_position
  ∧ set_message "Invalid move!" start_position
    = set_message (message (set_message "Invalid move!" start_position))
        start_position.
Proof.
  apply (rejected_call_changes_nothing start_position 0 0 "horizontal").
  left. vm_compute. reflexivity.
Defined.

(** ** C10 *)

(** The ownership record appended by a placement. *)
Lemma place_wall_commit g r c wall_type g' :
  place_wall g r c wall_type = Some (true, g') →
  ∃ left mine,
    walls_remaining g !! current_player g = Some left ∧ 0 < left
    ∧ player_walls g !! current_player g = Some mine
    ∧ is_valid_wall_placement g r c wall_type = Some true
    ∧ walls_remaining g'
      = <[current_player g := left - 1]> (walls_remaining g)
    ∧ player_walls g'
      = <[current_player g :=
            mine ++ [(if bool_decide (wall_type = "horizontal")
                      then "h" else "v", r, c)]]> (player_walls g)
    ∧ (horizontal_walls g', vertical_walls g') = test_walls g r c wall_type.
Proof.
  intros (left & Hleft & Hcases)%place_wall_cases.
  destruct Hcases as [(? & _)|[(? & _)|(_ & Hpos & Hvalid & mine & Hmine
                                       & Hnext)]]; [done..|].
  exists left, mine. split_and!; [done..| | |].
  - apply next_turn_inv in Hnext as [Hb _]. unfold board_of in Hb.
    simplify_eq. unfold commit_wall in *. by case_bool_decide.
  - apply next_turn_inv in Hnext as [Hb _]. unfold board_of in Hb.
    simplify_eq. unfold commit_wall in *. by case_bool_decide.
  - apply next_turn_inv in Hnext as [Hb _]. unfold board_of in Hb.
    destruct (commit_wall_walls g r c wall_type left mine) as [<- _].
    simplify_eq. congruence.
Qed.

Lemma initialize_game_accounted N n g :
  (1 ≤ n ≤ 4)%nat → initialize_game N n = Some g → walls_accounted g.
Proof.
  intros Hn. unfold initialize_game.
  destruct (get_possible_moves _) as [moves|]; [|done].
  cbn [mbind option_bind]. intros [= <-].
  assert (n = 1 ∨ n = 2 ∨ n = 3 ∨ n = 4)%nat
    as [-> | [-> | [-> | ->]]] by lia;
    intros i Hi; simpl in Hi;
    repeat (destruct i as [|i];
            [eexists _, _, _; split_and!; [reflexivity..| |]; simpl; lia|]);
    lia.
Qed.

Lemma reachable_walls_accounted g : reachable g → walls_accounted g.
Proof.
  induction 1 as [N n g HN Hn Hinit|g r c b g' _ IH Hm|g r c w b g' Hr IH Hp].
  - by eapply initialize_game_accounted.
  - apply move_player_frame in Hm as (_ & Hn & _ & _ & Hw & Hpw & _).
    unfold walls_accounted. by rewrite Hn, Hw, Hpw.
  - pose proof (place_wall_frame _ _ _ _ _ _ Hp) as (_ & Hn & _).
    destruct b.
    + apply place_wall_commit in Hp
        as (left & mine & Hleft & Hpos & Hmine & _ & Hw & Hpw & _).
      intros i Hi. rewrite Hn in Hi. rewrite Hw, Hpw.
      destruct (IH i Hi) as (a & l & m & Ha & Hl & Hm & Hge & Heq).
      destruct (decide (i = current_player g)) as [->|Hne].
      * exists a, (left - 1), (mine ++ [(if bool_decide (w = "horizontal")
                                          then "h" else "v", r, c)]).
        split_and!; [done| |apply lookup_insert_eq|lia|].
        -- apply list_lookup_insert_eq. by eapply lookup_lt_Some.
        -- rewrite length_app. simpl. simplify_eq. lia.
      * exists a, l, m. split_and!; [done| | |done|done].
        -- by rewrite list_lookup_insert_ne.
        -- by rewrite lookup_insert_ne.
    + apply place_wall_cases in Hp as (left & _ & Hcases).
      destruct Hcases as [(_ & _ & ->)|[(_ & _ & _ & ->)|(? & _)]];
        done.
Qed.

(** C10.  In every state reachable from initialization each player's wall
    count is non-negative and equals the player's allotment (10, 10, 5, 5)
    minus the length of the player's placed-wall list; a request by a
    player whose count is zero (or below) is rejected with the game state
    untouched; and a successful placement appends exactly one ownership
    record to the active player's list and lowers that player's count by
    exactly one. *)
Theorem wall_accounting g :
  reachable g →
  walls_accounted g
  ∧ (∀ r c wall_type left,
       walls_remaining g !! current_player g = Some left → left ≤ 0 →
       place_wall g r c wall_type
       = Some (false, set_message "No walls remaining!" g))
  ∧ (∀ r c wall_type g',
       place_wall g r c wall_type = Some (true, g') →
       ∃ left mine tag,
         walls_remaining g !! current_player g = Some left
         ∧ player_walls g !! current_player g = Some mine
         ∧ walls_remaining g'
           = <[current_player g := left - 1]> (walls_remaining g)
         ∧ player_walls g'
           = <[current_player g := mine ++ [(tag, r, c)]]>
               (player_walls g)).
Proof.
  intros Hreach. split_and!.
  - by apply reachable_walls_accounted.
  - intros r c wall_type left Hleft Hle. unfold place_wall.
    rewrite Hleft. cbn [mbind option_bind].
    by rewrite bool_decide_eq_true_2.
  - intros r c wall_type g' Hp.
    apply place_wall_commit in Hp
      as (left & mine & Hleft & _ & Hmine & _ & Hw & Hpw & _).
    by eexists left, mine, _.
Qed.

Lemma wall_accounting_witness :
  walls_accounted start_position
  ∧ (∀ r c wall_type left,
       walls_remaining start_position !! current_player start_position
       = Some left → left ≤ 0 →
       place_wall start_position r c wall_type
       = Some (false, set_message "No walls remaining!" start_position))
  ∧ (∀ r c wall_type g',
       place_wall start_position r c wall_type = Some (true, g') →
       ∃ left mine tag,
         walls_remaining start_position !! current_player start_position
         = Some left
         ∧ player_walls start_position !! current_player start_position
           = Some mine
         ∧ walls_remaining g'
           = <[current_player start_position := left - 1]>
               (walls_remaining start_position)
         ∧ player_walls g'
           = <[current_player start_position := mine ++ [(tag, r, c)]]>
               (player_walls start_position)).
Proof.
  apply (wall_accounting start_position).
  apply (reachable_init 9 2); [lia|lia|by vm_compute].
Defined.

Lemma one_player_per_cell_witness :
  NoDup (player_positions start_position)
  ∧ (∀ moves x, get_possible_moves start_position = Some moves →
                x ∈ moves → x ∉ player_positions start_position)
  ∧ (∀ r c g', move_player start_position r c = Some (true, g') →
       ((r, c) ∉ player_positions start_position)
       ∧ player_positions g' !! current_player start_position
         = Some (r, c)
       ∧ NoDup (player_positions g')).
Proof.
  apply (one_player_per_cell start_position).
  apply (reachable_init 9 2); [lia|lia|by vm_compute].
Defined.

(** ** C1 *)

Lemma paths_remain_true g th tv idxs :
  paths_remain g th tv idxs = Some true →
  ∀ i pos wr wc,
    i ∈ idxs →
    player_positions g !! i = Some pos →
    win_rows g !! i = Some wr → win_cols g !! i = Some wc →
    ¬ goal_cell wr wc pos →
    reaches_goal (BOARD_SIZE g) th tv wr wc pos.
Proof.
  induction idxs as [|p rest IH]; intros Hall i pos wr wc Hi Hpos Hwr Hwc Hng.
  - by apply elem_of_nil in Hi.
  - simpl in Hall.
    destruct (at_goal g p (player_positions g !! p)) as [won|] eqn:Hwon;
      [|done].
    cbn [mbind option_bind] in Hall.
    apply elem_of_cons in Hi as [->|Hi].
    + rewrite Hpos in Hwon.
      destruct (at_goal_cell g p wr wc pos Hwr Hwc) as (b & Hb & Hiff).
      assert (won = false) as ->.
      { destruct won; [|done]. destruct Hng. apply Hiff. congruence. }
      destruct (find_path_to_goal_correct g p th tv wr wc pos Hwr Hwc Hpos)
        as (ok & Hok & Hreach).
      rewrite Hok in Hall. cbn [mbind option_bind] in Hall.
      destruct ok; [by apply Hreach|done].
    + assert (Hrest : paths_remain g th tv rest = Some true).
      { destruct won; [done|].
        destruct (find_path_to_goal g p th tv) as [[|]|];
          cbn [mbind option_bind] in Hall; done. }
      by eapply IH.
Qed.

Lemma paths_remain_total g th tv idxs :
  well_formed g → (∀ i, i ∈ idxs → (i < num_players g)%nat) →
  is_Some (paths_remain g th tv idxs).
Proof.
  intros Hwf. induction idxs as [|p rest IH]; intros Hidx; simpl.
  - by eexists.
  - assert (Hp : (p < num_players g)%nat) by (apply Hidx; set_solver).
    assert (Hrest : is_Some (paths_remain g th tv rest))
      by (apply IH; intros i Hi; apply Hidx; set_solver).
    destruct (lookup_lt_is_Some_2 (player_positions g) p) as [pos Hpos];
      [by rewrite (wf_positions g Hwf)|].
    destruct (at_goal_total g p pos Hwf Hp)
      as (wr & wc & b & Hwr & Hwc & Hb & _).
    rewrite Hpos, Hb. cbn [mbind option_bind]. destruct b; [done|].
    destruct (find_path_to_goal_correct g p th tv wr wc pos Hwr Hwc Hpos)
      as (ok & -> & _).
    cbn [mbind option_bind]. destruct ok; [done|by eexists].
Qed.

Lemma is_valid_wall_placement_total g r c wall_type :
  well_formed g → is_Some (is_valid_wall_placement g r c wall_type).
Proof.
  intros Hwf. unfold is_valid_wall_placement.
  destruct (negb _); [by eexists|].
  destruct (wall_exists _ _ _ _); [by eexists|].
  destruct (wall_intersects _ _ _ _); [by eexists|].
  apply paths_remain_total; [done|]. intros i Hi.
  apply elem_of_seq in Hi. lia.
Qed.

Lemma is_valid_wall_placement_paths g r c wall_type :
  is_valid_wall_placement g r c wall_type = Some true →
  paths_remain g (test_walls g r c wall_type).1
    (test_walls g r c wall_type).2 (seq 0 (num_players g)) = Some true.
Proof.
  unfold is_valid_wall_placement.
  destruct (negb _); [done|].
  destruct (wall_exists _ _ _ _); [done|].
  destruct (wall_intersects _ _ _ _); done.
Qed.

Lemma place_wall_total g r c wall_type :
  well_formed g → ∃ b g', place_wall g r c wall_type = Some (b, g').
Proof.
  intros Hwf. unfold place_wall.
  destruct (lookup_lt_is_Some_2 (walls_remaining g) (current_player g))
    as [left ->].
  { rewrite (wf_walls_remaining g Hwf). apply (wf_current g Hwf). }
  cbn [mbind option_bind]. case_bool_decide; [by eexists _, _|].
  destruct (is_valid_wall_placement_total g r c wall_type Hwf)
    as [valid ->].
  cbn [mbind option_bind]. destruct valid; simpl; [|by eexists _, _].
  destruct (wf_player_walls g Hwf (current_player g) (wf_current g Hwf))
    as [mine ->].
  cbn [mbind option_bind].
  destruct (next_turn_spec _
              (commit_wall_well_formed g r c wall_type left mine Hwf))
    as (g3 & -> & _).
  by eexists _, _.
Qed.

(** C1.  In a state reachable from initialization: when [place_wall]
    accepts a segment, the wall sets of the resulting state are the old
    ones with the segment's two blockers, and every player who does not
    stand on a goal cell has a path of open steps to a goal cell across
    them; and a segment with which some such player would have no path is
    rejected. *)
Theorem place_wall_keeps_paths g r c wall_type :
  reachable g →
  (∀ g', place_wall g r c wall_type = Some (true, g') →
     (horizontal_walls g', vertical_walls g') = test_walls g r c wall_type
     ∧ ∀ i pos wr wc,
         player_positions g' !! i = Some pos →
         win_rows g' !! i = Some wr → win_cols g' !! i = Some wc →
         ¬ goal_cell wr wc pos →
         reaches_goal (BOARD_SIZE g') (horizontal_walls g')
           (vertical_walls g') wr wc pos)
  ∧ ((∃ i pos wr wc,
        player_positions g !! i = Some pos
        ∧ win_rows g !! i = Some wr ∧ win_cols g !! i = Some wc
        ∧ ¬ goal_cell wr wc pos
        ∧ ¬ reaches_goal (BOARD_SIZE g) (test_walls g r c wall_type).1
              (test_walls g r c wall_type).2 wr wc pos) →
     ∃ g', place_wall g r c wall_type = Some (false, g')).
Proof.
  intros Hreach. pose proof (reachable_well_formed g Hreach) as Hwf.
  assert (Hpaths : ∀ g', place_wall g r c wall_type = Some (true, g') →
    ∀ i pos wr wc,
      player_positions g !! i = Some pos →
      win_rows g !! i = Some wr → win_cols g !! i = Some wc →
      ¬ goal_cell wr wc pos →
      reaches_goal (BOARD_SIZE g) (test_walls g r c wall_type).1
        (test_walls g r c wall_type).2 wr wc pos).
  { intros g' Hp i pos wr wc Hpos Hwr Hwc Hng.
    apply place_wall_commit in Hp as (_ & _ & _ & _ & _ & Hvalid & _).
    apply is_valid_wall_placement_paths in Hvalid.
    eapply paths_remain_true; try done.
    apply elem_of_seq. apply lookup_lt_Some in Hpos.
    rewrite (wf_positions g Hwf) in Hpos. lia. }
  split.
  - intros g' Hp.
    pose proof (place_wall_frame _ _ _ _ _ _ Hp)
      as (HN & _ & Hpos & Hwr & Hwc & _).
    pose proof (place_wall_commit _ _ _ _ _ Hp)
      as (_ & _ & _ & _ & _ & _ & _ & _ & Hwalls).
    split; [done|]. intros i pos wr wc.
    rewrite HN, Hpos, Hwr, Hwc. intros ? ? ? ?.
    replace (horizontal_walls g') with (test_walls g r c wall_type).1
      by (by rewrite <- Hwalls).
    replace (vertical_walls g') with (test_walls g r c wall_type).2
      by (by rewrite <- Hwalls).
    by eapply Hpaths.
  - intros (i & pos & wr & wc & Hpos & Hwr & Hwc & Hng & Hcut).
    destruct (place_wall_total g r c wall_type Hwf) as (b & g' & Hp).
    destruct b; [|by exists g'].
    destruct Hcut. by eapply Hpaths.
Qed.

Lemma place_wall_keeps_paths_witness :
  (∀ g', place_wall start_position 3 3 "horizontal" = Some (true, g') →
     (horizontal_walls g', vertical_walls g')
     = test_walls start_position 3 3 "horizontal"
     ∧ ∀ i pos wr wc,
         player_positions g' !! i = Some pos →
         win_rows g' !! i = Some wr → win_cols g' !! i = Some wc →
         ¬ goal_cell wr wc pos →
         reaches_goal (BOARD_SIZE g') (horizontal_walls g')
           (vertical_walls g') wr wc pos)
  ∧ ((∃ i pos wr wc,
        player_positions start_position !! i = Some pos
        ∧ win_rows start_position !! i = Some wr
        ∧ win_cols start_position !! i = Some wc
        ∧ ¬ goal_cell wr wc pos
        ∧ ¬ reaches_goal (BOARD_SIZE start_position)
              (test_walls start_position 3 3 "horizontal").1
              (test_walls start_position 3 3 "horizontal").2 wr wc pos) →
     ∃ g', place_wall start_position 3 3 "horizontal" = Some (false, g')).
Proof.
  apply (place_wall_keeps_paths start_position 3 3 "horizontal").
  apply (reachable_init 9 2); [lia|lia|by vm_compute].
Defined.

(** A run in which the check fires: with row 3 fenced up to column 7 and
    the gap beside column 8 closed, the segment that would seal the last
    way round is rejected, the one next to it is accepted. *)
Example fence_completion_rejected :
  ∃ g, play fence_script start_position = Some g
       ∧ fst <$> place_wall g 1 7 "horizontal" = Some false
       ∧ fst <$> place_wall g 1 6 "horizontal" = Some true.
Proof. eexists. split; [by vm_compute|]. by vm_compute. Qed.

(** In that run the rejected segment is one that cuts player 0 off: with
    its two blockers added no sequence of open steps leads from (8,4) to
    row 0. *)
Example fence_completion_cuts_off :
  ∃ g, play fence_script start_position = Some g
       ∧ player_positions g !! 0%nat = Some (8, 4)
       ∧ ¬ reaches_goal 9 (test_walls g 1 7 "horizontal").1
             (test_walls g 1 7 "horizontal").2 (Some 0) None (8, 4).
Proof.
  destruct (play fence_script start_position) as [g|] eqn:Hplay;
    [|by vm_compute in Hplay].
  exists g. split; [done|].
  assert (Hpos : player_positions g !! 0%nat = Some (8, 4)).
  { vm_compute in Hplay. by injection Hplay as <-. }
  split; [done|].
  destruct (find_path_to_goal_correct g 0
              (test_walls g 1 7 "horizontal").1
              (test_walls g 1 7 "horizontal").2 (Some 0) None (8, 4))
    as (b & Hb & Hiff).
  - vm_compute in Hplay. by injection Hplay as <-.
  - vm_compute in Hplay. by injection Hplay as <-.
  - done.
  - assert (BOARD_SIZE g = 9) as HN
      by (vm_compute in Hplay; by injection Hplay as <-).
    rewrite HN in Hiff. intros Hr. apply Hiff in Hr. subst b.
    vm_compute in Hplay. injection Hplay as <-. by vm_compute in Hb.
Qed.

(** ** C8 *)

(** The test of [wall_intersects] in terms of blockers.  For a segment
    that passes the range and overlap checks it fires exactly when the
    two blocker units [(r, c)] and [(r + 1, c)] of the vertical set (for
    a horizontal segment), or [(r, c)] and [(r, c + 1)] of the horizontal
    set (for a vertical one), are present.  When it fires the segment is
    rejected; when it does not, the verdict is that of the path check
    alone. *)
Lemma crossing_check_blockers g o r c :
  wall_in_range g r c = true →
  wall_exists g r c (wall_type_of o) = false →
  (wall_intersects g r c (wall_type_of o) = true ↔ crosses g o r c)
  ∧ (crosses g o r c →
     is_valid_wall_placement g r c (wall_type_of o) = Some false)
  ∧ (¬ crosses g o r c →
     is_valid_wall_placement g r c (wall_type_of o)
     = paths_remain g (test_walls g r c (wall_type_of o)).1
         (test_walls g r c (wall_type_of o)).2 (seq 0 (num_players g))).
Proof.
  intros Hrange Hfree.
  assert (Hrule : wall_intersects g r c (wall_type_of o) = true
                  ↔ crosses g o r c).
  { unfold wall_intersects, crosses. destruct o; simpl.
    - rewrite orb_false_r, andb_true_iff, !bool_decide_eq_true.
      split.
      + intros [? ?] u. rewrite !elem_of_cons, elem_of_nil.
        intros [->|[->|[]]]; done.
      + intros Hu. split; apply Hu; set_solver.
    - rewrite andb_true_iff, !bool_decide_eq_true.
      split.
      + intros [? ?] u. rewrite !elem_of_cons, elem_of_nil.
        intros [->|[->|[]]]; done.
      + intros Hu. split; apply Hu; set_solver. }
  split; [done|].
  unfold is_valid_wall_placement. rewrite Hrange, Hfree. simpl.
  split.
  - intros Hc. apply Hrule in Hc. by rewrite Hc.
  - intros Hc.
    destruct (wall_intersects g r c (wall_type_of o)); [|done].
    destruct Hc. by apply Hrule.
Qed.

(** A run in which the crossing check fires: a horizontal segment across
    a vertical one at the same intersection is rejected. *)
Example crossing_rejected :
  ∃ g, play [Wall 3 3 "vertical"] start_position = Some g
       ∧ wall_in_range g 3 3 = true
       ∧ wall_exists g 3 3 "horizontal" = false
       ∧ wall_intersects g 3 3 "horizontal" = true
       ∧ is_valid_wall_placement g 3 3 "horizontal" = Some false.
Proof. eexists. split; [by vm_compute|]. by vm_compute. Qed.

(** ** C4 *)

(** Neither mutator looks at the terminal flag: in the finished game
    reached by [winning_script] the winner can still be moved off the
    goal row, and can still place a wall. *)
Lemma mutators_ignore_game_over :
  ¬ (∀ g r c wall_type,
       reachable g → game_over g = true →
       (∀ b g', move_player g r c = Some (b, g') →
                b = false ∧ game_state g' = game_state g)
       ∧ (∀ b g', place_wall g r c wall_type = Some (b, g') →
                  b = false ∧ game_state g' = game_state g)).
Proof.
  intros Hclaim.
  destruct (Hclaim finished_example 1 4 "horizontal"
              finished_example_reachable eq_refl) as [Hmove _].
  destruct (move_player finished_example 1 4) as [[b g']|] eqn:Hm;
    [|by vm_compute in Hm].
  destruct (Hmove b g' eq_refl) as [-> _].
  by vm_compute in Hm.
Qed.

Example move_after_game_over :
  game_over finished_example = true
  ∧ (fst <$> move_player finished_example 1 4) = Some true
  ∧ (player_positions ∘ snd <$> move_player finished_example 1 4)
    = Some [(1, 4); (0, 3)]
  ∧ (fst <$> place_wall finished_example 3 3 "vertical") = Some true
  ∧ (walls_remaining ∘ snd <$> place_wall finished_example 3 3 "vertical")
    = Some [9; 10].
Proof. by vm_compute. Qed.

(** C4, as the code has it.  The terminal flag is honoured by the event
    loop: once the game is over a click on the board calls neither
    mutator and leaves the object as it is, and [next_turn] does not pass
    the turn. *)
Theorem game_over_blocks_board_clicks g mouse_pos :
  game_over g = true →
  board_click g mouse_pos = Some g ∧ next_turn g = Some g.
Proof.
  intros Hover. split; [|by apply next_turn_over].
  unfold board_click. destruct mouse_pos as [mx my]. rewrite Hover.
  simpl. by destruct (_ && _).
Qed.

Lemma game_over_blocks_board_clicks_witness :
  board_click finished_example (130, 200) = Some finished_example
  ∧ next_turn finished_example = Some finished_example.
Proof.
  apply (game_over_blocks_board_clicks finished_example (130, 200)).
  reflexivity.
Defined.

(** ** C6 *)

(** C6 on the code.  In [edge_example] player 1 on (4,1) is to move,
    player 0 stands next to it on (4,0) at the left edge, and there are no
    walls: the straight jump to (4,-1) is off the board, and the two cells
    beside the neighbour, (3,0) and (5,0), are on the board, one open step
    from the neighbour and free.  The generator returns neither. *)
Theorem diagonal_fallback_missing :
  reachable edge_example
  ∧ player_positions edge_example !! current_player edge_example
    = Some (4, 1)
  ∧ (4, 0) ∈ player_positions edge_example
  ∧ open_step 9 ∅ ∅ (4, 1) (4, 0)
  ∧ in_board 9 4 (-1) = false
  ∧ open_step 9 ∅ ∅ (4, 0) (3, 0)
  ∧ open_step 9 ∅ ∅ (4, 0) (5, 0)
  ∧ ((3, 0) ∉ player_positions edge_example)
  ∧ ((5, 0) ∉ player_positions edge_example)
  ∧ get_possible_moves edge_example = Some [(3, 1); (5, 1); (4, 2)]
  ∧ moves_in_direction edge_example 4 1 (0, -1) = [].
Proof.
  split_and!; try (by vm_compute).
  - apply edge_example_reachable.
  - set_solver.
  - apply (step_left 9 ∅ ∅ 4 1); [lia|lia|set_solver].
  - apply (step_up 9 ∅ ∅ 4 0); [lia|lia|set_solver].
  - apply (step_down 9 ∅ ∅ 4 0); [lia|lia|set_solver].
  - simpl. rewrite !elem_of_cons, elem_of_nil. naive_solver.
  - simpl. rewrite !elem_of_cons, elem_of_nil. naive_solver.
Qed.

Lemma jump_over_opponent_witness :
  ((2, 4) ∈ [(2, 4); (5, 4); (4, 3); (4, 5)]
   ↔ open_step 9 ∅ ∅ (4, 4) (3, 4) ∧ open_step 9 ∅ ∅ (3, 4) (2, 4)
     ∧ (2, 4) ∉ player_positions jump_example)
  ∧ (0 ≤ 2 < 9 ∧ 0 ≤ 4 < 9 → ¬ open_step 9 ∅ ∅ (3, 4) (2, 4) →
     moves_in_direction jump_example 4 4 (-1, 0) = [])
  ∧ (3, 4) ∉ [(2, 4); (5, 4); (4, 3); (4, 5)].
Proof.
  apply (proj1 jump_over_opponent jump_example 4 4 (-1, 0)
           [(2, 4); (5, 4); (4, 3); (4, 5)]).
  - reflexivity.
  - vm_compute. reflexivity.
  - apply list_elem_of_here.
  - apply (step_up 9 ∅ ∅ 4 4); [lia|lia|apply not_elem_of_empty].
  - apply list_elem_of_further, list_elem_of_here.
Defined.

(** * Further properties *)

(** ** No call raises in a reachable state *)

(** X1.  In a state reachable from initialization no lookup fails and no
    division by zero occurs: [get_possible_moves], [move_player],
    [is_valid_wall_placement] and [place_wall] return for every argument,
    and [find_path_to_goal] returns for every player and all wall sets. *)
Theorem reachable_calls_return g :
  reachable g →
  is_Some (get_possible_moves g)
  ∧ (∀ r c, is_Some (move_player g r c))
  ∧ (∀ r c wall_type, is_Some (is_valid_wall_placement g r c wall_type))
  ∧ (∀ r c wall_type, is_Some (place_wall g r c wall_type))
  ∧ (∀ i th tv, (i < num_players g)%nat →
                is_Some (find_path_to_goal g i th tv)).
Proof.
  intros Hwf%reachable_well_formed. split_and!.
  - by apply get_possible_moves_total.
  - intros r c. destruct (move_player_total g r c Hwf) as (b & g' & ->).
    by eexists.
  - intros r c w. by apply is_valid_wall_placement_total.
  - intros r c w. destruct (place_wall_total g r c w Hwf) as (b & g' & ->).
    by eexists.
  - intros i th tv Hi.
    destruct (lookup_lt_is_Some_2 (player_positions g) i) as [pos Hpos];
      [by rewrite (wf_positions g Hwf)|].
    destruct (at_goal_total g i pos Hwf Hi) as (wr & wc & _ & Hwr & Hwc & _).
    destruct (find_path_to_goal_correct g i th tv wr wc pos Hwr Hwc Hpos)
      as (b & -> & _).
    by eexists.
Qed.

Lemma reachable_calls_return_witness :
  is_Some (get_possible_moves start_position)
  ∧ (∀ r c, is_Some (move_player start_position r c))
  ∧ (∀ r c wall_type,
       is_Some (is_valid_wall_placement start_position r c wall_type))
  ∧ (∀ r c wall_type, is_Some (place_wall start_position r c wall_type))
  ∧ (∀ i th tv, (i < num_players start_position)%nat →
                is_Some (find_path_to_goal start_position i th tv)).
Proof.
  apply (reachable_calls_return start_position).
  apply (reachable_init 9 2); [lia|lia|by vm_compute].
Defined.

(** ** The legal moves, exactly *)

Lemma open_step_on_board N H V a b :
  open_step N H V a b → 0 ≤ b.1 < N ∧ 0 ≤ b.2 < N.
Proof. intros Hs. destruct Hs; simpl; lia. Qed.

Lemma legal_move_iff g r c moves x :
  player_positions g !! current_player g = Some (r, c) →
  get_possible_moves g = Some moves →
  x ∈ moves ↔
    (x ∉ player_positions g)
    ∧ (open_step (BOARD_SIZE g) (horizontal_walls g) (vertical_walls g)
         (r, c) x
       ∨ ∃ d, d ∈ directions
           ∧ x = (r + d.1 + d.1, c + d.2 + d.2)
           ∧ (r + d.1, c + d.2) ∈ player_positions g
           ∧ open_step (BOARD_SIZE g) (horizontal_walls g)
               (vertical_walls g) (r, c) (r + d.1, c + d.2)
           ∧ open_step (BOARD_SIZE g) (horizontal_walls g)
               (vertical_walls g) (r + d.1, c + d.2) x).
Proof.
  intros Hpos Hmoves.
  assert (moves = flat_map (moves_in_direction g r c) directions) as ->.
  { rewrite (get_possible_moves_eq g r c Hpos) in Hmoves. congruence. }
  rewrite elem_of_flat_map. split.
  - intros (d & Hd & Hx).
    destruct (moves_in_direction_cases g r c d Hd)
      as [[_ Hm]|[(Ho & Hn & Hm)|[(Ho & Hocc & Ho2 & Hn & Hm)
                                 |(_ & _ & _ & Hm)]]];
      rewrite Hm in Hx.
    + by apply elem_of_nil in Hx.
    + apply list_elem_of_singleton in Hx as ->. split; [done|by left].
    + apply list_elem_of_singleton in Hx as ->. split; [done|].
      right. by exists d.
    + by apply elem_of_nil in Hx.
  - intros [Hfree [Ho|(d & Hd & -> & Hocc & Ho & Ho2)]].
    + pose proof Ho as (d & Hd & Hx & _)%open_step_code_step.
      simpl in Hx. subst x. exists d. split; [done|].
      destruct (moves_in_direction_cases g r c d Hd)
        as [[Hno _]|[(_ & _ & Hm)|[(_ & Hocc & _)|(_ & Hocc & _)]]];
        [done| |done|done].
      rewrite Hm. apply list_elem_of_here.
    + exists d. split; [done|].
      destruct (moves_in_direction_cases g r c d Hd)
        as [[Hno _]|[(_ & Hn & _)|[(_ & _ & _ & _ & Hm)|(_ & _ & Hno & _)]]];
        [done|done| |].
      * rewrite Hm. apply list_elem_of_here.
      * destruct Hno. done.
Qed.

(** X2.  A cell is a legal move of the active player exactly when no
    pawn stands on it and it is either one open step away, or two open
    steps away in a straight line across a cell on which a pawn stands.
    In particular every legal move is on the board, and no legal move is
    diagonal. *)
Theorem legal_moves_exactly g r c moves x :
  player_positions g !! current_player g = Some (r, c) →
  get_possible_moves g = Some moves →
  (x ∈ moves ↔
     (x ∉ player_positions g)
     ∧ (open_step (BOARD_SIZE g) (horizontal_walls g) (vertical_walls g)
          (r, c) x
        ∨ ∃ d, d ∈ directions
            ∧ x = (r + d.1 + d.1, c + d.2 + d.2)
            ∧ (r + d.1, c + d.2) ∈ player_positions g
            ∧ open_step (BOARD_SIZE g) (horizontal_walls g)
                (vertical_walls g) (r, c) (r + d.1, c + d.2)
            ∧ open_step (BOARD_SIZE g) (horizontal_walls g)
                (vertical_walls g) (r + d.1, c + d.2) x))
  ∧ (x ∈ moves →
     0 ≤ x.1 < BOARD_SIZE g ∧ 0 ≤ x.2 < BOARD_SIZE g
     ∧ (x.1 = r ∨ x.2 = c)).
Proof.
  intros Hpos Hmoves. split; [by apply legal_move_iff|].
  intros Hx. apply (legal_move_iff g r c moves x Hpos Hmoves) in Hx
    as [_ [Ho|(d & Hd & -> & _ & _ & Ho)]].
  - pose proof (open_step_on_board _ _ _ _ _ Ho) as [? ?].
    split; [done|]. split; [done|].
    apply open_step_code_step in Ho as (d & Hd & -> & _).
    apply direction_unit in Hd. simpl. lia.
  - pose proof (open_step_on_board _ _ _ _ _ Ho) as [? ?].
    split; [done|]. split; [done|].
    apply direction_unit in Hd. simpl. lia.
Qed.

Lemma legal_moves_exactly_witness :
  ((7, 4) ∈ [(7, 4); (8, 3); (8, 5)] ↔
     ((7, 4) ∉ player_positions start_position)
     ∧ (open_step 9 ∅ ∅ (8, 4) (7, 4)
        ∨ ∃ d, d ∈ directions
            ∧ (7, 4) = (8 + d.1 + d.1, 4 + d.2 + d.2)
            ∧ (8 + d.1, 4 + d.2) ∈ player_positions start_position
            ∧ open_step 9 ∅ ∅ (8, 4) (8 + d.1, 4 + d.2)
            ∧ open_step 9 ∅ ∅ (8 + d.1, 4 + d.2) (7, 4)))
  ∧ ((7, 4) ∈ [(7, 4); (8, 3); (8, 5)] →
     0 ≤ 7 < 9 ∧ 0 ≤ 4 < 9 ∧ (7 = 8 ∨ 4 = 4)).
Proof.
  apply (legal_moves_exactly start_position 8 4
           [(7, 4); (8, 3); (8, 5)] (7, 4)).
  - reflexivity.
  - vm_compute. reflexivity.
Defined.

(** ** Pawns stay on the board *)

Lemma elem_of_insert_inv {A} (l : list A) (i : nat) (x p : A) :
  p ∈ <[i := x]> l → p = x ∨ p ∈ l.
Proof.
  intros [j Hj]%list_elem_of_lookup.
  destruct (decide (i = j)) as [->|Hne].
  - destruct (decide (j < length l)%nat).
    + rewrite list_lookup_insert_eq in Hj by done. left. congruence.
    + rewrite list_insert_ge in Hj by lia. right.
      by eapply list_elem_of_lookup_2.
  - rewrite list_lookup_insert_ne in Hj by done. right.
    by eapply list_elem_of_lookup_2.
Qed.

Lemma initialize_game_layout N n g :
  3 ≤ N → (1 ≤ n ≤ 4)%nat → initialize_game N n = Some g →
  BOARD_SIZE g = N ∧ horizontal_walls g = ∅ ∧ vertical_walls g = ∅
  ∧ game_over g = false ∧ winner g = None
  ∧ pawns_on_board g ∧ goals_on_board g ∧ nobody_home g.
Proof.
  intros HN Hn. unfold initialize_game.
  destruct (get_possible_moves _) as [moves|]; [|done].
  cbn [mbind option_bind]. intros [= <-].
  assert (Hhalf : 1 ≤ N `div` 2 < N - 1)
    by (Z.div_mod_to_equations; lia).
  split_and!; try done.
  - intros p. simpl.
    assert (n = 1 ∨ n = 2 ∨ n = 3 ∨ n = 4)%nat
      as [-> | [-> | [-> | ->]]] by lia;
      simpl; rewrite ?elem_of_cons, ?elem_of_nil;
      intros Hp; repeat (destruct Hp as [->|Hp]; [simpl; lia|]); done.
  - intros i wr wc. simpl.
    assert (n = 1 ∨ n = 2 ∨ n = 3 ∨ n = 4)%nat
      as [-> | [-> | [-> | ->]]] by lia; simpl;
      repeat (destruct i as [|i]; simpl;
              [intros [= <-] [= <-];
               first [left; eexists; split; [done|lia]
                     |right; eexists; split; [done|lia]]|]);
      done.
  - intros i pos wr wc. unfold goal_cell. simpl.
    assert (n = 1 ∨ n = 2 ∨ n = 3 ∨ n = 4)%nat
      as [-> | [-> | [-> | ->]]] by lia; simpl;
      repeat (destruct i as [|i]; simpl;
              [intros [= <-] [= <-] [= <-]; simpl;
               intros [[=]|[=]]; lia|]);
      done.
Qed.

Lemma mutator_keeps_goals g g' :
  (∃ r c b, move_player g r c = Some (b, g'))
  ∨ (∃ r c w b, place_wall g r c w = Some (b, g')) →
  BOARD_SIZE g' = BOARD_SIZE g ∧ num_players g' = num_players g
  ∧ win_rows g' = win_rows g ∧ win_cols g' = win_cols g.
Proof.
  intros [(r & c & b & Hm)|(r & c & w & b & Hp)].
  - apply move_player_frame in Hm as (? & ? & ? & ? & _). done.
  - apply place_wall_frame in Hp as (? & ? & _ & ? & ? & _). done.
Qed.

Lemma reachable_goals_on_board g : reachable g → goals_on_board g.
Proof.
  induction 1 as [N n g HN Hn Hinit|g r c b g' _ IH Hm|g r c w b g' _ IH Hp].
  - by apply (initialize_game_layout N n g HN Hn Hinit).
  - destruct (mutator_keeps_goals g g') as (HN & _ & Hr & Hc);
      [left; by exists r, c, b|].
    unfold goals_on_board. by rewrite HN, Hr, Hc.
  - destruct (mutator_keeps_goals g g') as (HN & _ & Hr & Hc);
      [right; by exists r, c, w, b|].
    unfold goals_on_board. by rewrite HN, Hr, Hc.
Qed.

Lemma possible_move_on_board g moves x :
  get_possible_moves g = Some moves → x ∈ moves →
  0 ≤ x.1 < BOARD_SIZE g ∧ 0 ≤ x.2 < BOARD_SIZE g.
Proof.
  intros Hmoves Hx.
  pose proof Hmoves as (r & c & Hpos & _)%get_possible_moves_inv.
  destruct (proj1 (legal_move_iff g r c moves x Hpos Hmoves) Hx)
    as [_ [Ho|(d & _ & _ & _ & _ & Ho)]];
    by apply open_step_on_board in Ho.
Qed.

Lemma move_player_accepted g r c g' :
  move_player g r c = Some (true, g') →
  ∃ moves, get_possible_moves g = Some moves ∧ (r, c) ∈ moves.
Proof.
  intros (moves & Hmoves & Hcases)%move_player_cases.
  destruct Hcases as [(? & _)|(_ & Hin & _)]; [done|by exists moves].
Qed.

Lemma reachable_pawns_on_board g : reachable g → pawns_on_board g.
Proof.
  induction 1 as [N n g HN Hn Hinit|g r c b g' _ IH Hm|g r c w b g' _ IH Hp].
  - by apply (initialize_game_layout N n g HN Hn Hinit).
  - pose proof (move_player_frame _ _ _ _ _ Hm) as (HN & _).
    intros p Hp. rewrite HN. destruct b.
    + pose proof (move_player_accepted _ _ _ _ Hm) as (moves & Hmv & Hin).
      apply move_player_positions in Hm as [_ Hpos].
      rewrite Hpos in Hp. apply elem_of_insert_inv in Hp as [->|Hp].
      * by apply (possible_move_on_board g moves).
      * by apply IH.
    + apply move_player_cases in Hm as (moves & _ & Hcases).
      destruct Hcases as [(_ & _ & ->)|(? & _)]; [|done]. by apply IH.
  - pose proof (place_wall_frame _ _ _ _ _ _ Hp) as (HN & _ & Hpos & _).
    intros p. rewrite HN, Hpos. apply IH.
Qed.

(** ** Every player can always reach a goal *)

Lemma open_step_sym N H V a b :
  0 ≤ a.1 < N ∧ 0 ≤ a.2 < N →
  open_step N H V a b → open_step N H V b a.
Proof.
  intros Ha Hs. destruct Hs as [r c ? ? ?|r c ? ? ?|r c ? ? ?|r c ? ? ?];
    simpl in Ha.
  - pose proof (step_down N H V (r - 1) c) as Hback.
    replace (r - 1 + 1) with r in Hback by lia. apply Hback; (lia || done).
  - pose proof (step_up N H V (r + 1) c) as Hback.
    replace (r + 1 - 1) with r in Hback by lia. apply Hback; (lia || done).
  - pose proof (step_right N H V r (c - 1)) as Hback.
    replace (c - 1 + 1) with c in Hback by lia. apply Hback; (lia || done).
  - pose proof (step_left N H V r (c + 1)) as Hback.
    replace (c + 1 - 1) with c in Hback by lia. apply Hback; (lia || done).
Qed.

Lemma walk_column N c r r' :
  0 ≤ c < N → 0 ≤ r < N → 0 ≤ r' < N →
  rtc (open_step N ∅ ∅) (r, c) (r', c).
Proof.
  intros Hc. remember (Z.to_nat (Z.abs (r - r'))) as k eqn:Hk.
  revert r Hk. induction k as [|k IH]; intros r Hk Hr Hr'.
  - assert (r = r') as -> by lia. done.
  - destruct (decide (r' < r)).
    + eapply rtc_l; [apply step_up; [lia|lia|apply not_elem_of_empty]|].
      apply IH; lia.
    + eapply rtc_l; [apply step_down; [lia|lia|apply not_elem_of_empty]|].
      apply IH; lia.
Qed.

Lemma walk_row N r c c' :
  0 ≤ r < N → 0 ≤ c < N → 0 ≤ c' < N →
  rtc (open_step N ∅ ∅) (r, c) (r, c').
Proof.
  intros Hr. remember (Z.to_nat (Z.abs (c - c'))) as k eqn:Hk.
  revert c Hk. induction k as [|k IH]; intros c Hk Hc Hc'.
  - assert (c = c') as -> by lia. done.
  - destruct (decide (c' < c)).
    + eapply rtc_l; [apply step_left; [lia|lia|apply not_elem_of_empty]|].
      apply IH; lia.
    + eapply rtc_l; [apply step_right; [lia|lia|apply not_elem_of_empty]|].
      apply IH; lia.
Qed.

Lemma initialize_game_reach N n g :
  3 ≤ N → (1 ≤ n ≤ 4)%nat → initialize_game N n = Some g →
  all_reach_goal g.
Proof.
  intros HN Hn Hinit.
  destruct (initialize_game_layout N n g HN Hn Hinit)
    as (HB & HH & HV & _ & _ & Hpawns & Hgoals & _).
  intros i [r c] wr wc Hpos Hwr Hwc. rewrite HH, HV, HB.
  destruct (Hpawns (r, c)) as [Hr Hc];
    [by eapply list_elem_of_lookup_2|].
  rewrite HB in Hr, Hc. simpl in Hr, Hc.
  destruct (Hgoals i wr wc Hwr Hwc) as [(x & -> & Hx)|(y & -> & Hy)].
  - rewrite HB in Hx. exists (x, c). split; [by apply walk_column|by left].
  - rewrite HB in Hy. exists (r, y). split; [by apply walk_row|by right].
Qed.

Lemma move_player_reach g r c g' :
  pawns_on_board g → all_reach_goal g →
  move_player g r c = Some (true, g') → all_reach_goal g'.
Proof.
  intros Hpawns Hreach Hm.
  pose proof (move_player_frame _ _ _ _ _ Hm)
    as (HN & _ & Hwr & Hwc & _ & _ & HH & HV).
  pose proof (move_player_accepted _ _ _ _ Hm) as (moves & Hmoves & Hin).
  pose proof Hmoves as (r0 & c0 & Hcur & _)%get_possible_moves_inv.
  apply move_player_positions in Hm as [_ Hpos].
  intros i pos wr wc. rewrite HN, HH, HV, Hwr, Hwc, Hpos.
  intros Hi Hr Hc.
  destruct (decide (i = current_player g)) as [->|Hne].
  2:{ rewrite list_lookup_insert_ne in Hi by done. by eapply Hreach. }
  rewrite list_lookup_insert_eq in Hi by (by eapply lookup_lt_Some).
  injection Hi as <-.
  destruct (Hreach _ _ _ _ Hcur Hr Hc) as (t & Hpath & Hgoal).
  exists t. split; [|done].
  assert (Hhome : 0 ≤ (r0, c0).1 < BOARD_SIZE g
                  ∧ 0 ≤ (r0, c0).2 < BOARD_SIZE g).
  { apply Hpawns. by eapply list_elem_of_lookup_2. }
  destruct (proj1 (legal_move_iff g r0 c0 moves (r, c) Hcur Hmoves) Hin)
    as [_ [Ho|(d & _ & _ & _ & Ho1 & Ho2)]].
  - eapply rtc_l; [|exact Hpath]. by apply open_step_sym.
  - eapply rtc_l; [|eapply rtc_l; [|exact Hpath]].
    + apply open_step_sym; [|done]. by eapply open_step_on_board.
    + by apply open_step_sym.
Qed.

Lemma place_wall_reach g r c wall_type g' :
  well_formed g →
  place_wall g r c wall_type = Some (true, g') → all_reach_goal g'.
Proof.
  intros Hwf Hp.
  pose proof (place_wall_frame _ _ _ _ _ _ Hp)
    as (HN & _ & Hpos & Hwr & Hwc & _).
  pose proof (place_wall_commit _ _ _ _ _ Hp)
    as (_ & _ & _ & _ & _ & Hvalid & _ & _ & Hwalls).
  apply is_valid_wall_placement_paths in Hvalid.
  intros i pos wr wc. rewrite HN, Hpos, Hwr, Hwc. intros Hi Hr Hc.
  replace (horizontal_walls g') with (test_walls g r c wall_type).1
    by (by rewrite <- Hwalls).
  replace (vertical_walls g') with (test_walls g r c wall_type).2
    by (by rewrite <- Hwalls).
  destruct (decide (wr = Some pos.1 ∨ wc = Some pos.2)) as [Hg|Hng].
  - by exists pos.
  - eapply paths_remain_true; try done.
    apply elem_of_seq. apply lookup_lt_Some in Hi.
    rewrite (wf_positions g Hwf) in Hi. lia.
Qed.

Lemma rejected_same_state g g' :
  (∃ r c, move_player g r c = Some (false, g'))
  ∨ (∃ r c w, place_wall g r c w = Some (false, g')) →
  ∃ m, g' = set_message m g.
Proof.
  intros [(r & c & Hm)|(r & c & w & Hp)].
  - apply move_player_cases in Hm as (moves & _ & Hcases).
    destruct Hcases as [(_ & _ & ->)|(? & _)]; [by eexists|done].
  - apply place_wall_cases in Hp as (left & _ & Hcases).
    destruct Hcases as [(_ & _ & ->)|[(_ & _ & _ & ->)|(? & _)]];
      [by eexists|by eexists|done].
Qed.

Lemma reachable_all_reach_goal g : reachable g → all_reach_goal g.
Proof.
  induction 1 as [N n g HN Hn Hinit|g r c b g' Hg IH Hm|g r c w b g' Hg IH Hp].
  - by eapply initialize_game_reach.
  - destruct b.
    + eapply move_player_reach; [|done|done].
      by apply reachable_pawns_on_board.
    + destruct (rejected_same_state g g') as [m ->]; [|done].
      left. by exists r, c.
  - destruct b.
    + eapply place_wall_reach; [|done]. by apply reachable_well_formed.
    + destruct (rejected_same_state g g') as [m ->]; [|done].
      right. by exists r, c, w.
Qed.

(** X3.  In every state reachable from initialization every pawn stands
    on the board, and every player - whoever's turn it is, whether the
    game is over or not - has a sequence of open steps from the pawn's
    cell to a cell of the player's goal line. *)
Theorem paths_always_remain g :
  reachable g →
  pawns_on_board g
  ∧ ∀ i pos wr wc,
      player_positions g !! i = Some pos →
      win_rows g !! i = Some wr → win_cols g !! i = Some wc →
      reaches_goal (BOARD_SIZE g) (horizontal_walls g) (vertical_walls g)
        wr wc pos.
Proof.
  intros Hg. split.
  - by apply reachable_pawns_on_board.
  - by apply reachable_all_reach_goal.
Qed.

Lemma paths_always_remain_witness :
  pawns_on_board edge_example
  ∧ ∀ i pos wr wc,
      player_positions edge_example !! i = Some pos →
      win_rows edge_example !! i = Some wr →
      win_cols edge_example !! i = Some wc →
      reaches_goal (BOARD_SIZE edge_example) (horizontal_walls edge_example)
        (vertical_walls edge_example) wr wc pos.
Proof.
  apply (paths_always_remain edge_example).
  eapply play_reachable; [|apply edge_script_run].
  apply (reachable_init 9 2); [lia|lia|by vm_compute].
Defined.

(** ** What an accepted wall adds *)

Lemma is_valid_wall_placement_checks g r c wall_type :
  is_valid_wall_placement g r c wall_type = Some true →
  wall_in_range g r c = true ∧ wall_exists g r c wall_type = false
  ∧ wall_intersects g r c wall_type = false.
Proof.
  unfold is_valid_wall_placement.
  destruct (wall_in_range g r c); [|done].
  destruct (wall_exists g r c wall_type); [done|].
  destruct (wall_intersects g r c wall_type); done.
Qed.

Lemma wall_in_range_true g r c :
  wall_in_range g r c = true ↔
    0 ≤ r < BOARD_SIZE g - 1 ∧ 0 ≤ c < BOARD_SIZE g - 1.
Proof.
  unfold wall_in_range. rewrite andb_true_iff, !bool_decide_eq_true. tauto.
Qed.

Lemma wall_exists_false g r c wall_type :
  wall_exists g r c wall_type = false →
  if bool_decide (wall_type = "horizontal")
  then ((r, c) ∉ horizontal_walls g) ∧ ((r, c + 1) ∉ horizontal_walls g)
  else ((r, c) ∉ vertical_walls g) ∧ ((r + 1, c) ∉ vertical_walls g).
Proof.
  unfold wall_exists. case_bool_decide;
    rewrite orb_false_iff, !bool_decide_eq_false; tauto.
Qed.

(** X4.  An accepted wall adds exactly its two blockers to the set of its
    orientation, both of them new, and leaves the other set alone: the
    set grows by two.  Any [wall_type] other than "horizontal" is placed
    as a vertical wall. *)
Theorem accepted_wall_adds_two_blockers g r c wall_type g' :
  place_wall g r c wall_type = Some (true, g') →
  if bool_decide (wall_type = "horizontal") then
    horizontal_walls g' = {[ (r, c); (r, c + 1) ]} ∪ horizontal_walls g
    ∧ ((r, c) ∉ horizontal_walls g) ∧ ((r, c + 1) ∉ horizontal_walls g)
    ∧ size (horizontal_walls g') = (size (horizontal_walls g) + 2)%nat
    ∧ vertical_walls g' = vertical_walls g
  else
    vertical_walls g' = {[ (r, c); (r + 1, c) ]} ∪ vertical_walls g
    ∧ ((r, c) ∉ vertical_walls g) ∧ ((r + 1, c) ∉ vertical_walls g)
    ∧ size (vertical_walls g') = (size (vertical_walls g) + 2)%nat
    ∧ horizontal_walls g' = horizontal_walls g.
Proof.
  intros Hp.
  apply place_wall_commit in Hp
    as (_ & _ & _ & _ & _ & Hvalid & _ & _ & Hwalls).
  apply is_valid_wall_placement_checks in Hvalid as (_ & Hfree & _).
  apply wall_exists_false in Hfree. unfold test_walls in Hwalls.
  destruct (bool_decide (wall_type = "horizontal"));
    destruct Hfree as [Ha Hb]; injection Hwalls as -> ->.
  - split_and!; [set_solver|done|done| |done].
    rewrite size_union, size_union, !size_singleton; [lia| |].
    + by apply disjoint_singleton_l.
    + apply disjoint_singleton_l, not_elem_of_union. split; [|done].
      rewrite elem_of_singleton. intros [=]. lia.
  - split_and!; [set_solver|done|done| |done].
    rewrite size_union, size_union, !size_singleton; [lia| |].
    + by apply disjoint_singleton_l.
    + apply disjoint_singleton_l, not_elem_of_union. split; [|done].
      rewrite elem_of_singleton. intros [=]. lia.
Qed.

Lemma accepted_wall_adds_two_blockers_witness :
  ∃ g', place_wall start_position 3 3 "horizontal" = Some (true, g')
  ∧ horizontal_walls g'
    = {[ (3, 3); (3, 3 + 1) ]} ∪ horizontal_walls start_position
  ∧ ((3, 3) ∉ horizontal_walls start_position)
  ∧ ((3, 3 + 1) ∉ horizontal_walls start_position)
  ∧ size (horizontal_walls g')
    = (size (horizontal_walls start_position) + 2)%nat
  ∧ vertical_walls g' = vertical_walls start_position.
Proof.
  destruct (place_wall start_position 3 3 "horizontal") as [[b g']|] eqn:Hp;
    [|by vm_compute in Hp].
  assert (b = true) as -> by (vm_compute in Hp; congruence).
  exists g'. split; [done|].
  apply (accepted_wall_adds_two_blockers start_position 3 3 "horizontal" g').
  exact Hp.
Defined.

(** ** Blockers lie between cells of the board *)

Lemma reachable_walls_in_range g : reachable g → walls_in_range g.
Proof.
  induction 1 as [N n g HN Hn Hinit|g r c b g' _ IH Hm|g r c w b g' _ IH Hp].
  - destruct (initialize_game_layout N n g HN Hn Hinit)
      as (_ & HH & HV & _).
    unfold walls_in_range. rewrite HH, HV. split; intros ? ?; set_solver.
  - apply move_player_frame in Hm as (HN & _ & _ & _ & _ & _ & HH & HV).
    unfold walls_in_range. by rewrite HN, HH, HV.
  - pose proof (place_wall_frame _ _ _ _ _ _ Hp) as (HN & _).
    destruct b.
    + pose proof (place_wall_commit _ _ _ _ _ Hp)
        as (_ & _ & _ & _ & _ & Hvalid & _ & _ & Hwalls).
      apply is_valid_wall_placement_checks in Hvalid as (Hrange & _ & _).
      apply wall_in_range_true in Hrange. destruct IH as [IHh IHv].
      unfold walls_in_range. rewrite HN. unfold test_walls in Hwalls.
      case_bool_decide; injection Hwalls as -> ->; split; try done.
      * intros r0 c0. rewrite !elem_of_union, !elem_of_singleton.
        intros [[= -> ->]|[[= -> ->]|Hold]]; [lia|lia|by apply IHh].
      * intros r0 c0. rewrite !elem_of_union, !elem_of_singleton.
        intros [[= -> ->]|[[= -> ->]|Hold]]; [lia|lia|by apply IHv].
    + destruct (rejected_same_state g g') as [m ->]; [|done].
      right. by exists r, c, w.
Qed.

(** X5.  In every state reachable from initialization each blocker lies
    between two cells of the board: a horizontal blocker [(r, c)] has
    [0 <= r < BOARD_SIZE - 1] and [0 <= c < BOARD_SIZE], a vertical one
    [0 <= r < BOARD_SIZE] and [0 <= c < BOARD_SIZE - 1]. *)
Theorem blockers_between_cells g :
  reachable g →
  (∀ r c, (r, c) ∈ horizontal_walls g →
          0 ≤ r < BOARD_SIZE g - 1 ∧ 0 ≤ c < BOARD_SIZE g)
  ∧ (∀ r c, (r, c) ∈ vertical_walls g →
            0 ≤ r < BOARD_SIZE g ∧ 0 ≤ c < BOARD_SIZE g - 1).
Proof. apply reachable_walls_in_range. Qed.

Lemma blockers_between_cells_witness :
  (∀ r c, (r, c) ∈ horizontal_walls start_position →
          0 ≤ r < BOARD_SIZE start_position - 1
          ∧ 0 ≤ c < BOARD_SIZE start_position)
  ∧ (∀ r c, (r, c) ∈ vertical_walls start_position →
            0 ≤ r < BOARD_SIZE start_position
            ∧ 0 ≤ c < BOARD_SIZE start_position - 1).
Proof.
  apply (blockers_between_cells start_position).
  apply (reachable_init 9 2); [lia|lia|by vm_compute].
Defined.

(** ** The wall ledger *)

Lemma ledger_same_walls g g' :
  player_walls g' = player_walls g →
  horizontal_walls g' = horizontal_walls g →
  vertical_walls g' = vertical_walls g →
  ledger g → ledger g'.
Proof.
  intros Hpw HH HV [Ht Hs Hch Hcv Hd].
  split; unfold recorded, record_set in *; rewrite ?Hpw, ?HH, ?HV; done.
Qed.

Lemma initialize_game_no_records N n g i rec :
  initialize_game N n = Some g → ¬ recorded g i rec.
Proof.
  unfold initialize_game.
  destruct (get_possible_moves _) as [moves|]; [|done].
  cbn [mbind option_bind]. intros [= <-] (walls & Hwalls & Hrec).
  simpl in Hwalls. apply elem_of_list_to_map_2 in Hwalls.
  apply list_elem_of_fmap in Hwalls as (j & [= -> ->] & _).
  by apply elem_of_nil in Hrec.
Qed.

Lemma initialize_game_ledger N n g :
  3 ≤ N → (1 ≤ n ≤ 4)%nat → initialize_game N n = Some g → ledger g.
Proof.
  intros HN Hn Hinit.
  destruct (initialize_game_layout N n g HN Hn Hinit) as (_ & HH & HV & _).
  split.
  - intros i rec Hr. by apply (initialize_game_no_records N n) in Hr.
  - intros i rec u Hr. by apply (initialize_game_no_records N n) in Hr.
  - intros u. rewrite HH. set_solver.
  - intros u. rewrite HV. set_solver.
  - intros i j rec rec' u Hr.
    by apply (initialize_game_no_records N n) in Hr.
Qed.

(** The records after an accepted wall: the old ones and the new one. *)
Lemma recorded_after_commit g g' cp mine rec0 :
  player_walls g !! cp = Some mine →
  player_walls g' = <[cp := mine ++ [rec0]]> (player_walls g) →
  ∀ i rec, recorded g' i rec ↔ recorded g i rec ∨ (i = cp ∧ rec = rec0).
Proof.
  intros Hmine Hpw i rec. unfold recorded. rewrite Hpw. split.
  - intros (walls & Hwalls & Hrec).
    destruct (decide (cp = i)) as [->|Hne].
    + rewrite lookup_insert_eq in Hwalls. injection Hwalls as <-.
      apply elem_of_app in Hrec as [Hrec|Hrec].
      * left. by exists mine.
      * right. by apply list_elem_of_singleton in Hrec.
    + rewrite lookup_insert_ne in Hwalls by done. left. by exists walls.
  - intros [(walls & Hwalls & Hrec)|[-> ->]].
    + destruct (decide (cp = i)) as [->|Hne].
      * rewrite lookup_insert_eq. eexists. split; [done|].
        apply elem_of_app. left. congruence.
      * rewrite lookup_insert_ne by done. by exists walls.
    + rewrite lookup_insert_eq. eexists. split; [done|].
      apply elem_of_app. right. apply list_elem_of_here.
Qed.

Lemma place_wall_ledger g r c wall_type g' :
  ledger g → place_wall g r c wall_type = Some (true, g') → ledger g'.
Proof.
  intros [Ht Hs Hch Hcv Hd] Hp.
  pose proof (place_wall_commit _ _ _ _ _ Hp)
    as (left & mine & _ & _ & Hmine & Hvalid & _ & Hpw & Hwalls).
  apply is_valid_wall_placement_checks in Hvalid as (_ & Hfree & _).
  apply wall_exists_false in Hfree. unfold test_walls in Hwalls.
  pose proof (recorded_after_commit g g' _ _ _ Hmine Hpw) as Hrec.
  destruct (bool_decide (wall_type = "horizontal"));
    destruct Hfree as [Ha Hb]; injection Hwalls as HH HV.
  - split.
    + intros i rec [Hold| [_ ->]]%Hrec; [by eapply Ht|by left].
    + intros i rec u [Hold| [_ ->]]%Hrec Hu.
      * specialize (Hs i rec u Hold Hu). unfold record_set in *.
        rewrite HH, HV. case_bool_decide; set_solver.
      * unfold record_set. simpl in *. rewrite HH. set_solver.
    + intros u. rewrite HH, !elem_of_union, !elem_of_singleton.
      intros [->|[->|Hold]].
      * exists (current_player g), r, c. split; [apply Hrec; by right|].
        set_solver.
      * exists (current_player g), r, c. split; [apply Hrec; by right|].
        set_solver.
      * destruct (Hch u Hold) as (i & r0 & c0 & Hr0 & Hu).
        exists i, r0, c0. split; [apply Hrec; by left|done].
    + intros u. rewrite HV. intros Hold.
      destruct (Hcv u Hold) as (i & r0 & c0 & Hr0 & Hu).
      exists i, r0, c0. split; [apply Hrec; by left|done].
    + intros i j rec rec' u [Hi|[-> ->]]%Hrec [Hj|[-> ->]]%Hrec Htag Hu Hu'.
      * by eapply Hd.
      * exfalso. specialize (Hs i rec u Hi Hu). unfold record_set in Hs.
        simpl in Htag, Hu'. rewrite Htag in Hs. simpl in Hs.
        rewrite !elem_of_cons, elem_of_nil in Hu'.
        destruct Hu' as [->|[->|[]]]; done.
      * exfalso. specialize (Hs j rec' u Hj Hu'). unfold record_set in Hs.
        simpl in Htag, Hu. rewrite <- Htag in Hs. simpl in Hs.
        rewrite !elem_of_cons, elem_of_nil in Hu.
        destruct Hu as [->|[->|[]]]; done.
      * done.
  - split.
    + intros i rec [Hold| [_ ->]]%Hrec; [by eapply Ht|by right].
    + intros i rec u [Hold| [_ ->]]%Hrec Hu.
      * specialize (Hs i rec u Hold Hu). unfold record_set in *.
        rewrite HH, HV. case_bool_decide; set_solver.
      * unfold record_set. simpl in *. rewrite HV. set_solver.
    + intros u. rewrite HH. intros Hold.
      destruct (Hch u Hold) as (i & r0 & c0 & Hr0 & Hu).
      exists i, r0, c0. split; [apply Hrec; by left|done].
    + intros u. rewrite HV, !elem_of_union, !elem_of_singleton.
      intros [->|[->|Hold]].
      * exists (current_player g), r, c. split; [apply Hrec; by right|].
        set_solver.
      * exists (current_player g), r, c. split; [apply Hrec; by right|].
        set_solver.
      * destruct (Hcv u Hold) as (i & r0 & c0 & Hr0 & Hu).
        exists i, r0, c0. split; [apply Hrec; by left|done].
    + intros i j rec rec' u [Hi|[-> ->]]%Hrec [Hj|[-> ->]]%Hrec Htag Hu Hu'.
      * by eapply Hd.
      * exfalso. specialize (Hs i rec u Hi Hu). unfold record_set in Hs.
        simpl in Htag, Hu'. rewrite Htag in Hs. simpl in Hs.
        rewrite !elem_of_cons, elem_of_nil in Hu'.
        destruct Hu' as [->|[->|[]]]; done.
      * exfalso. specialize (Hs j rec' u Hj Hu'). unfold record_set in Hs.
        simpl in Htag, Hu. rewrite <- Htag in Hs. simpl in Hs.
        rewrite !elem_of_cons, elem_of_nil in Hu.
        destruct Hu as [->|[->|[]]]; done.
      * done.
Qed.

Lemma reachable_ledger g : reachable g → ledger g.
Proof.
  induction 1 as [N n g HN Hn Hinit|g r c b g' _ IH Hm|g r c w b g' _ IH Hp].
  - by eapply initialize_game_ledger.
  - apply move_player_frame in Hm as (_ & _ & _ & _ & _ & Hpw & HH & HV).
    by apply (ledger_same_walls g g').
  - destruct b.
    + by eapply place_wall_ledger.
    + destruct (rejected_same_state g g') as [m ->];
        [|by apply (ledger_same_walls g)].
      right. by exists r, c, w.
Qed.

(** X6.  In every state reachable from initialization the wall sets and
    the ownership lists agree: a blocker is in the horizontal set exactly
    when it is one of the two blockers [(r, c)], [(r, c + 1)] of a
    recorded ["h"] wall, in the vertical set exactly when it is one of
    [(r, c)], [(r + 1, c)] of a recorded ["v"] wall, and two recorded
    walls of the same orientation that share a blocker are the same wall
    of the same player. *)
Theorem walls_match_records g :
  reachable g →
  (∀ u, u ∈ horizontal_walls g ↔
        ∃ i r c, recorded g i ("h", r, c) ∧ u ∈ [(r, c); (r, c + 1)])
  ∧ (∀ u, u ∈ vertical_walls g ↔
          ∃ i r c, recorded g i ("v", r, c) ∧ u ∈ [(r, c); (r + 1, c)])
  ∧ (∀ i j tag r c r' c' u,
       recorded g i (tag, r, c) → recorded g j (tag, r', c') →
       u ∈ record_units (tag, r, c) → u ∈ record_units (tag, r', c') →
       i = j ∧ r = r' ∧ c = c').
Proof.
  intros [Ht Hs Hch Hcv Hd]%reachable_ledger. split_and!.
  - intros u. split; [apply Hch|].
    intros (i & r & c & Hr & Hu). by apply (Hs i ("h", r, c) u Hr).
  - intros u. split; [apply Hcv|].
    intros (i & r & c & Hr & Hu). by apply (Hs i ("v", r, c) u Hr).
  - intros i j tag r c r' c' u Hi Hj Hu Hu'.
    destruct (Hd i j _ _ u Hi Hj eq_refl Hu Hu') as [-> [= -> ->]]. done.
Qed.

Lemma walls_match_records_witness :
  (∀ u, u ∈ horizontal_walls start_position ↔
        ∃ i r c, recorded start_position i ("h", r, c)
                 ∧ u ∈ [(r, c); (r, c + 1)])
  ∧ (∀ u, u ∈ vertical_walls start_position ↔
          ∃ i r c, recorded start_position i ("v", r, c)
                   ∧ u ∈ [(r, c); (r + 1, c)])
  ∧ (∀ i j tag r c r' c' u,
       recorded start_position i (tag, r, c) →
       recorded start_position j (tag, r', c') →
       u ∈ record_units (tag, r, c) → u ∈ record_units (tag, r', c') →
       i = j ∧ r = r' ∧ c = c').
Proof.
  apply (walls_match_records start_position).
  apply (reachable_init 9 2); [lia|lia|by vm_compute].
Defined.

(** ** Who owns a blocker *)

Lemma initialize_game_dom N n g j :
  initialize_game N n = Some g →
  is_Some (player_walls g !! j) → (j < num_players g)%nat.
Proof.
  unfold initialize_game.
  destruct (get_possible_moves _) as [moves|]; [|done].
  cbn [mbind option_bind]. intros [= <-] [walls Hwalls].
  simpl in *. apply elem_of_list_to_map_2 in Hwalls.
  apply list_elem_of_fmap in Hwalls as (k & [= -> ->] & Hk).
  apply elem_of_seq in Hk. lia.
Qed.

Lemma reachable_player_walls_dom g j :
  reachable g → is_Some (player_walls g !! j) → (j < num_players g)%nat.
Proof.
  intros Hg. revert j.
  induction Hg as [N n g HN Hn Hinit|g r c b g' Hg IH Hm
                  |g r c w b g' Hg IH Hp]; intros j.
  - by apply (initialize_game_dom N n).
  - apply move_player_frame in Hm as (_ & Hn & _ & _ & _ & Hpw & _).
    rewrite Hn, Hpw. apply IH.
  - pose proof (place_wall_frame _ _ _ _ _ _ Hp) as (_ & Hn & _).
    rewrite Hn. destruct b.
    + apply place_wall_commit in Hp
        as (_ & mine & _ & _ & Hmine & _ & _ & Hpw & _).
      rewrite Hpw. destruct (decide (current_player g = j)) as [<-|Hne].
      * intros _. apply IH. by eexists.
      * rewrite lookup_insert_ne by done. apply IH.
    + destruct (rejected_same_state g g') as [m ->]; [|apply IH].
      right. by exists r, c, w.
Qed.

Lemma first_owner_found g a b idxs default :
  (∃ j walls, j ∈ idxs ∧ player_walls g !! j = Some walls
              ∧ (a ∈ walls ∨ b ∈ walls)) →
  ∃ walls, player_walls g !! first_owner g a b idxs default = Some walls
           ∧ (a ∈ walls ∨ b ∈ walls).
Proof.
  induction idxs as [|k idxs IH]; intros (j & walls & Hj & Hwalls & Hin).
  - by apply elem_of_nil in Hj.
  - simpl. destruct (player_walls g !! k) as [mine|] eqn:Hk.
    + destruct (bool_decide (a ∈ mine) || bool_decide (b ∈ mine)) eqn:Hhit.
      * exists mine. split; [done|].
        apply orb_true_iff in Hhit.
        by rewrite !bool_decide_eq_true in Hhit.
      * apply IH. exists j, walls. split_and!; [|done|done].
        apply elem_of_cons in Hj as [->|Hj]; [|done].
        exfalso. apply orb_false_iff in Hhit.
        rewrite !bool_decide_eq_false in Hhit.
        assert (mine = walls) as -> by congruence. tauto.
    + apply IH. exists j, walls. split_and!; [|done|done].
      apply elem_of_cons in Hj as [->|Hj]; [congruence|done].
Qed.

(** X7.  In every state reachable from initialization the owner lookup
    of [draw_board] never falls back on its default for a blocker that is
    on the board: for a horizontal blocker it returns a player whose list
    holds the ["h"] wall the blocker belongs to, for a vertical blocker a
    player whose list holds the ["v"] wall, and that player is the only
    one with such a wall. *)
Theorem wall_owner_placed_it g :
  reachable g →
  (∀ r c, (r, c) ∈ horizontal_walls g →
     ∃ r0 c0,
       recorded g (wall_owner_h g r c) ("h", r0, c0)
       ∧ (r, c) ∈ [(r0, c0); (r0, c0 + 1)]
       ∧ ∀ j r1 c1, recorded g j ("h", r1, c1) →
                    (r, c) ∈ [(r1, c1); (r1, c1 + 1)] →
                    j = wall_owner_h g r c)
  ∧ (∀ r c, (r, c) ∈ vertical_walls g →
       ∃ r0 c0,
         recorded g (wall_owner_v g r c) ("v", r0, c0)
         ∧ (r, c) ∈ [(r0, c0); (r0 + 1, c0)]
         ∧ ∀ j r1 c1, recorded g j ("v", r1, c1) →
                      (r, c) ∈ [(r1, c1); (r1 + 1, c1)] →
                      j = wall_owner_v g r c).
Proof.
  intros Hg. pose proof (reachable_ledger g Hg) as [Ht Hs Hch Hcv Hd].
  split.
  - intros r c Hin.
    destruct (Hch _ Hin) as (j & r1 & c1 & (walls & Hwalls & Hrec) & Hu).
    destruct (first_owner_found g ("h", r, c) ("h", r, c - 1)
                (seq 0 (num_players g)) 0) as (mine & Hmine & Hhit).
    { exists j, walls. split_and!; [|done|].
      - apply elem_of_seq. split; [lia|]. simpl.
        apply reachable_player_walls_dom; [done|by eexists].
      - rewrite !elem_of_cons, elem_of_nil in Hu.
        destruct Hu as [[= -> ->]|[[= -> ->]|[]]]; [by left|right].
        by replace (c1 + 1 - 1) with c1 by lia. }
    fold (wall_owner_h g r c) in Hmine.
    assert (Hcover : ∃ r0 c0,
      recorded g (wall_owner_h g r c) ("h", r0, c0)
      ∧ (r, c) ∈ [(r0, c0); (r0, c0 + 1)]).
    { destruct Hhit as [Hhit|Hhit].
      - exists r, c. split; [by exists mine|apply list_elem_of_here].
      - exists r, (c - 1). split; [by exists mine|].
        replace (c - 1 + 1) with c by lia.
        apply list_elem_of_further, list_elem_of_here. }
    destruct Hcover as (r0 & c0 & Hr0 & Hu0).
    exists r0, c0. split_and!; [done|done|].
    intros k r2 c2 Hk Hu2.
    by destruct (Hd k _ _ _ (r, c) Hk Hr0 eq_refl Hu2 Hu0) as [-> _].
  - intros r c Hin.
    destruct (Hcv _ Hin) as (j & r1 & c1 & (walls & Hwalls & Hrec) & Hu).
    destruct (first_owner_found g ("v", r, c) ("v", r - 1, c)
                (seq 0 (num_players g)) 1) as (mine & Hmine & Hhit).
    { exists j, walls. split_and!; [|done|].
      - apply elem_of_seq. split; [lia|]. simpl.
        apply reachable_player_walls_dom; [done|by eexists].
      - rewrite !elem_of_cons, elem_of_nil in Hu.
        destruct Hu as [[= -> ->]|[[= -> ->]|[]]]; [by left|right].
        by replace (r1 + 1 - 1) with r1 by lia. }
    fold (wall_owner_v g r c) in Hmine.
    assert (Hcover : ∃ r0 c0,
      recorded g (wall_owner_v g r c) ("v", r0, c0)
      ∧ (r, c) ∈ [(r0, c0); (r0 + 1, c0)]).
    { destruct Hhit as [Hhit|Hhit].
      - exists r, c. split; [by exists mine|apply list_elem_of_here].
      - exists (r - 1), c. split; [by exists mine|].
        replace (r - 1 + 1) with r by lia.
        apply list_elem_of_further, list_elem_of_here. }
    destruct Hcover as (r0 & c0 & Hr0 & Hu0).
    exists r0, c0. split_and!; [done|done|].
    intros k r2 c2 Hk Hu2.
    by destruct (Hd k _ _ _ (r, c) Hk Hr0 eq_refl Hu2 Hu0) as [-> _].
Qed.

Lemma wall_owner_placed_it_witness :
  ∃ g, play fence_script start_position = Some g
  ∧ (∀ r c, (r, c) ∈ horizontal_walls g →
       ∃ r0 c0,
         recorded g (wall_owner_h g r c) ("h", r0, c0)
         ∧ (r, c) ∈ [(r0, c0); (r0, c0 + 1)]
         ∧ ∀ j r1 c1, recorded g j ("h", r1, c1) →
                      (r, c) ∈ [(r1, c1); (r1, c1 + 1)] →
                      j = wall_owner_h g r c)
  ∧ (∀ r c, (r, c) ∈ vertical_walls g →
       ∃ r0 c0,
         recorded g (wall_owner_v g r c) ("v", r0, c0)
         ∧ (r, c) ∈ [(r0, c0); (r0 + 1, c0)]
         ∧ ∀ j r1 c1, recorded g j ("v", r1, c1) →
                      (r, c) ∈ [(r1, c1); (r1 + 1, c1)] →
                      j = wall_owner_v g r c).
Proof.
  destruct (play fence_script start_position) as [g|] eqn:Hplay;
    [|by vm_compute in Hplay].
  exists g. split; [done|].
  apply (wall_owner_placed_it g).
  eapply play_reachable; [|exact Hplay].
  apply (reachable_init 9 2); [lia|lia|by vm_compute].
Defined.

(** ** The cached moves and the end of the game *)

Lemma get_possible_moves_same g g' :
  BOARD_SIZE g' = BOARD_SIZE g →
  player_positions g' = player_positions g →
  current_player g' = current_player g →
  horizontal_walls g' = horizontal_walls g →
  vertical_walls g' = vertical_walls g →
  get_possible_moves g' = get_possible_moves g.
Proof.
  intros HN Hpos Hcp HH HV.
  destruct (player_positions g !! current_player g) as [[r c]|] eqn:Hcur.
  2:{ unfold get_possible_moves. by rewrite Hpos, Hcp, Hcur. }
  rewrite (get_possible_moves_eq g r c Hcur).
  rewrite (get_possible_moves_eq g' r c) by congruence.
  f_equal. apply flat_map_ext.
  assert (Hdir : ∀ d, moves_in_direction g' r c d
                      = moves_in_direction g r c d).
  { intros [dr dc]. unfold moves_in_direction. rewrite HN, HH, HV, Hpos.
    assert (Hside : ∀ nr nc l, flat_map (side_jump g' nr nc) l
                               = flat_map (side_jump g nr nc) l).
    { intros nr nc l. induction l as [|[sr sc] l IH]; [done|].
      simpl. rewrite IH. unfold side_jump.
      by rewrite HN, HH, HV, Hpos. }
    by rewrite Hside. }
  done.
Qed.

Lemma next_turn_fresh g g' :
  game_over g = false → next_turn g = Some g' →
  get_possible_moves g' = Some (possible_moves g')
  ∧ current_player g'
    = ((current_player g + 1) `mod` num_players g)%nat
  ∧ message g' = turn_message (current_player g')
  ∧ hover_position g' = None ∧ hover_wall g' = None.
Proof.
  intros Hover. unfold next_turn. rewrite Hover. simpl.
  case_bool_decide; [done|].
  destruct (get_possible_moves _) as [moves|] eqn:Hmoves; [|done].
  cbn [mbind option_bind]. intros [= <-]. split; [|done].
  etrans; [|exact Hmoves]. by apply get_possible_moves_same.
Qed.

Lemma at_goal_false_not_goal g idx wr wc p :
  win_rows g !! idx = Some wr → win_cols g !! idx = Some wc →
  at_goal g idx (Some p) = Some false → ¬ goal_cell wr wc p.
Proof.
  intros Hwr Hwc Hgoal Hcell.
  destruct (at_goal_cell g idx wr wc p Hwr Hwc) as (b & Hb & Hiff).
  apply Hiff in Hcell. congruence.
Qed.

Lemma reachable_coherent g :
  reachable g →
  (game_over g = false →
   get_possible_moves g = Some (possible_moves g)
   ∧ winner g = None ∧ nobody_home g)
  ∧ (game_over g = true → winner g = Some (current_player g)).
Proof.
  induction 1 as [N n g HN Hn Hinit|g r c b g' Hg IH Hm|g r c w b g' Hg IH Hp].
  - destruct (initialize_game_layout N n g HN Hn Hinit)
      as (_ & _ & _ & Hover & Hwin & _ & _ & Hhome).
    split; [|congruence]. intros _. split_and!; [|done|done].
    revert Hinit. unfold initialize_game.
    destruct (get_possible_moves _) as [moves|] eqn:Hmoves; [|done].
    cbn [mbind option_bind]. intros [= <-].
    etrans; [|exact Hmoves]. by apply get_possible_moves_same.
  - destruct IH as [IHlive IHover].
    apply move_player_cases in Hm as (moves & Hmoves & Hcases).
    destruct Hcases as [(_ & _ & ->)|(_ & Hin & [[Hgoal ->]|[Hgoal Hnext]])].
    + split; [|done]. intros Hlive.
      destruct (IHlive Hlive) as (Hc & Hw & Hh). split_and!; [|done|done].
      etrans; [|exact Hc]. by apply get_possible_moves_same.
    + split; done.
    + destruct (game_over g) eqn:Hover.
      * rewrite next_turn_over in Hnext by done. injection Hnext as <-.
        split; [simpl; by rewrite Hover|]. intros _. simpl.
        by apply IHover.
      * pose proof (next_turn_fresh
                      (set_player_positions
                         (<[current_player g := (r, c)]>
                            (player_positions g)) g) g' Hover Hnext)
          as (Hfresh & _).
        apply next_turn_inv in Hnext as [Hb _]. unfold board_of in Hb.
        simpl in Hb. injection Hb as HN Hn Hpos Hwr Hwc _ _ _ _ Hov Hwin.
        destruct (IHlive eq_refl) as (_ & Hw & Hh).
        split; [|congruence]. intros _.
        split_and!; [done|congruence|].
        intros i pos wr wc. rewrite Hpos, Hwr, Hwc. intros Hi Hr Hc.
        pose proof Hmoves as (r0 & c0 & Hcur & _)%get_possible_moves_inv.
        destruct (decide (i = current_player g)) as [->|Hne].
        -- rewrite list_lookup_insert_eq in Hi
             by (by eapply lookup_lt_Some).
           injection Hi as <-.
           by eapply (at_goal_false_not_goal _ (current_player g)).
        -- rewrite list_lookup_insert_ne in Hi by done. by eapply Hh.
  - destruct IH as [IHlive IHover].
    apply place_wall_cases in Hp as (left & _ & Hcases).
    destruct Hcases as [(_ & _ & ->)|[(_ & _ & _ & ->)
                                     |(_ & _ & _ & mine & _ & Hnext)]].
    + split; [|done]. intros Hlive.
      destruct (IHlive Hlive) as (Hc & Hw & Hh). split_and!; [|done|done].
      etrans; [|exact Hc]. by apply get_possible_moves_same.
    + split; [|done]. intros Hlive.
      destruct (IHlive Hlive) as (Hc & Hw & Hh). split_and!; [|done|done].
      etrans; [|exact Hc]. by apply get_possible_moves_same.
    + pose proof (commit_wall_walls g r c w left mine) as Hcw.
      cbv zeta in Hcw.
      remember (commit_wall g r c w left mine) as g2 eqn:Heq in *.
      clear Heq.
      destruct Hcw as (_ & HN & Hn & Hpos & Hwr & Hwc & Hcp & Hov & Hwin).
      destruct (game_over g) eqn:Hover.
      * rewrite next_turn_over in Hnext by done. injection Hnext as <-.
        split; [by rewrite Hov|]. intros _. rewrite Hwin, Hcp.
        by apply IHover.
      * pose proof (next_turn_fresh _ _ Hov Hnext) as (Hfresh & _).
        apply next_turn_inv in Hnext as [Hb _]. unfold board_of in Hb.
        injection Hb as HN' Hn' Hpos' Hwr' Hwc' _ _ _ _ Hov' Hwin'.
        destruct (IHlive eq_refl) as (_ & Hw & Hh).
        split; [|congruence]. intros _.
        split_and!; [done|congruence|].
        intros i pos wr wc. rewrite Hpos', Hwr', Hwc', Hpos, Hwr, Hwc.
        apply Hh.
Qed.

(** X8.  While the game is not over, the cached [possible_moves] drawn
    by [draw_board] are the legal moves of the player to move: in every
    state reachable from initialization with [game_over] unset,
    [get_possible_moves()] returns [self.possible_moves]. *)
Theorem cached_moves_are_current g :
  reachable g → game_over g = false →
  get_possible_moves g = Some (possible_moves g).
Proof.
  intros Hg Hlive. by destruct (reachable_coherent g Hg) as [[? _] _].
Qed.

Lemma cached_moves_are_current_witness :
  get_possible_moves edge_example = Some (possible_moves edge_example).
Proof.
  apply (cached_moves_are_current edge_example); [|reflexivity].
  eapply play_reachable; [|apply edge_script_run].
  apply (reachable_init 9 2); [lia|lia|by vm_compute].
Defined.

(** X9.  In every state reachable from initialization: while the game
    is not over there is no winner and no pawn stands on a cell of its
    own goal line; once it is over, the winner is recorded and is the
    player whose turn it is. *)
Theorem winner_iff_game_over g :
  reachable g →
  (game_over g = false →
   winner g = None
   ∧ ∀ i pos wr wc,
       player_positions g !! i = Some pos →
       win_rows g !! i = Some wr → win_cols g !! i = Some wc →
       ¬ goal_cell wr wc pos)
  ∧ (game_over g = true →
     winner g = Some (current_player g)
     ∧ (current_player g < num_players g)%nat).
Proof.
  intros Hg. destruct (reachable_coherent g Hg) as [Hlive Hover]. split.
  - intros Hl. by destruct (Hlive Hl) as (_ & ? & ?).
  - intros Ho. split; [by apply Hover|].
    apply (wf_current g). by apply reachable_well_formed.
Qed.

Lemma winner_iff_game_over_witness :
  (game_over finished_example = false →
   winner finished_example = None
   ∧ ∀ i pos wr wc,
       player_positions finished_example !! i = Some pos →
       win_rows finished_example !! i = Some wr →
       win_cols finished_example !! i = Some wc →
       ¬ goal_cell wr wc pos)
  ∧ (game_over finished_example = true →
     winner finished_example = Some (current_player finished_example)
     ∧ (current_player finished_example
        < num_players finished_example)%nat).
Proof.
  apply (winner_iff_game_over finished_example).
  eapply play_reachable; [|apply winning_script_run].
  apply (reachable_init 9 2); [lia|lia|by vm_compute].
Defined.

(** ** Turn order *)

Lemma call_turn g g' b :
  (∃ r c, move_player g r c = Some (b, g'))
  ∨ (∃ r c w, place_wall g r c w = Some (b, g')) →
  current_player g'
  = (if b && negb (game_over g')
     then ((current_player g + 1) `mod` num_players g)%nat
     else current_player g)
  ∧ (game_over g = true → game_over g' = true)
  ∧ (game_over g' = true →
     winner g' = winner g ∨ winner g' = Some (current_player g)).
Proof.
  intros [(r & c & Hm)|(r & c & w & Hp)].
  - apply move_player_cases in Hm as (moves & _ & Hcases).
    destruct Hcases as [(-> & _ & ->)|(-> & _ & [[_ ->]|[_ Hnext]])].
    + split_and!; [done|done|by left].
    + split_and!; [done|done|by right].
    + apply next_turn_inv in Hnext as [Hb Hcp]. unfold board_of in Hb.
      simpl in Hb, Hcp.
      injection Hb as _ _ _ _ _ _ _ _ _ Hov Hwin.
      rewrite Hcp, Hov. split_and!; [by destruct (game_over g)|done|by left].
  - apply place_wall_cases in Hp as (left & _ & Hcases).
    destruct Hcases as [(-> & _ & ->)|[(-> & _ & _ & ->)
                                      |(-> & _ & _ & mine & _ & Hnext)]].
    + split_and!; [done|done|by left].
    + split_and!; [done|done|by left].
    + pose proof (commit_wall_walls g r c w left mine) as Hcw.
      cbv zeta in Hcw.
      remember (commit_wall g r c w left mine) as g2 eqn:Heq in *.
      clear Heq.
      destruct Hcw as (_ & _ & Hn & _ & _ & _ & Hcp2 & Hov2 & Hwin2).
      apply next_turn_inv in Hnext as [Hb Hcp]. unfold board_of in Hb.
      injection Hb as _ _ _ _ _ _ _ _ _ Hov Hwin.
      rewrite Hcp, Hov, Hov2, Hcp2, Hn.
      split_and!; [by destruct (game_over g)|done|left; congruence].
Qed.

(** X10.  The turn passes exactly on an accepted call that does not end
    the game: after [move_player] or [place_wall] returns [b], the
    current player is [(current_player + 1) mod num_players] if [b] is
    [True] and the game is not over afterwards, and is unchanged
    otherwise. *)
Theorem turn_passes_on_accepted_calls g g' b :
  (∃ r c, move_player g r c = Some (b, g'))
  ∨ (∃ r c w, place_wall g r c w = Some (b, g')) →
  current_player g'
  = (if b && negb (game_over g')
     then ((current_player g + 1) `mod` num_players g)%nat
     else current_player g).
Proof. intros Hcall. by apply call_turn in Hcall as [? _]. Qed.

Lemma turn_passes_on_accepted_calls_witness :
  ∃ g', place_wall start_position 3 3 "horizontal" = Some (true, g')
  ∧ current_player g'
    = (if true && negb (game_over g')
       then ((current_player start_position + 1)
             `mod` num_players start_position)%nat
       else current_player start_position).
Proof.
  destruct (place_wall start_position 3 3 "horizontal") as [[b g']|] eqn:Hp;
    [|by vm_compute in Hp].
  assert (b = true) as -> by (vm_compute in Hp; congruence).
  exists g'. split; [done|].
  apply (turn_passes_on_accepted_calls start_position g' true).
  right. by exists 3, 3, "horizontal".
Defined.

(** X11.  Once the game is over in a state reachable from
    initialization, no call of [move_player] or [place_wall] - accepted
    or not - ends that: the game stays over, the winner stays the same
    and the turn never passes. *)
Theorem game_stays_over g g' :
  reachable g → game_over g = true →
  (∃ r c b, move_player g r c = Some (b, g'))
  ∨ (∃ r c w b, place_wall g r c w = Some (b, g')) →
  game_over g' = true ∧ winner g' = winner g
  ∧ current_player g' = current_player g.
Proof.
  intros Hg Hover Hcall.
  destruct (reachable_coherent g Hg) as [_ Hwin]. specialize (Hwin Hover).
  assert (∃ b, (∃ r c, move_player g r c = Some (b, g'))
               ∨ (∃ r c w, place_wall g r c w = Some (b, g')))
    as [b Hb].
  { destruct Hcall as [(r & c & b & ?)|(r & c & w & b & ?)];
      exists b; [left|right]; eauto. }
  apply call_turn in Hb as (Hcp & Hstay & Hw).
  specialize (Hstay Hover). rewrite Hstay, andb_false_r in Hcp.
  split_and!; [done| |done].
  destruct (Hw Hstay) as [?|?]; congruence.
Qed.

Lemma game_stays_over_witness :
  game_over (two_player_state (1, 4) (0, 3) 0 true (Some 0%nat)
               "Player 1 wins!" [(0, 4); (2, 4); (1, 3); (1, 5)]) = true
  ∧ winner (two_player_state (1, 4) (0, 3) 0 true (Some 0%nat)
              "Player 1 wins!" [(0, 4); (2, 4); (1, 3); (1, 5)])
    = winner finished_example
  ∧ current_player (two_player_state (1, 4) (0, 3) 0 true (Some 0%nat)
                      "Player 1 wins!" [(0, 4); (2, 4); (1, 3); (1, 5)])
    = current_player finished_example.
Proof.
  apply (game_stays_over finished_example).
  - eapply play_reachable; [|apply winning_script_run].
    apply (reachable_init 9 2); [lia|lia|by vm_compute].
  - reflexivity.
  - left. exists 1, 4, true. by vm_compute.
Defined.

(** ** The search and the walls *)

Lemma open_step_fewer_walls N H V H' V' a b :
  H ⊆ H' → V ⊆ V' → open_step N H' V' a b → open_step N H V a b.
Proof.
  intros HH HV Hs. destruct Hs; constructor; set_solver.
Qed.

(** X12.  Taking blockers away never cuts a path: if the search finds a
    way to the goal across the wall sets [H'] and [V'], it finds one
    across any subsets of them. *)
Theorem fewer_walls_keep_paths g player_idx H V H' V' start wr wc :
  player_positions g !! player_idx = Some start →
  win_rows g !! player_idx = Some wr →
  win_cols g !! player_idx = Some wc →
  H ⊆ H' → V ⊆ V' →
  find_path_to_goal g player_idx H' V' = Some true →
  find_path_to_goal g player_idx H V = Some true.
Proof.
  intros Hpos Hwr Hwc HH HV Hfound.
  destruct (find_path_to_goal_correct g player_idx H' V' wr wc start
              Hwr Hwc Hpos) as (b' & Hb' & Hiff').
  destruct (find_path_to_goal_correct g player_idx H V wr wc start
              Hwr Hwc Hpos) as (b & -> & Hiff).
  f_equal. apply Hiff.
  assert (b' = true) as -> by congruence.
  destruct (proj1 Hiff' eq_refl) as (t & Hpath & Hgoal).
  exists t. split; [|done].
  eapply rtc_subrel; [|exact Hpath].
  intros x y. by apply open_step_fewer_walls.
Qed.

Lemma fewer_walls_keep_paths_witness :
  find_path_to_goal start_position 0 ∅ ∅ = Some true.
Proof.
  apply (fewer_walls_keep_paths start_position 0 ∅ ∅
           {[ (3, 3); (3, 4) ]} ∅ (8, 4) (Some 0) None);
    [reflexivity|reflexivity|reflexivity|set_solver|set_solver|].
  vm_compute. reflexivity.
Defined.

Lemma bfs_loop_same_goals fuel g g' idx H V queue visited :
  BOARD_SIZE g' = BOARD_SIZE g →
  win_rows g' = win_rows g → win_cols g' = win_cols g →
  bfs_loop fuel g' idx H V queue visited
  = bfs_loop fuel g idx H V queue visited.
Proof.
  intros HN Hwr Hwc. revert queue visited.
  induction fuel as [|fuel IH]; intros queue visited; [done|].
  simpl. destruct queue as [|curr rest]; [done|].
  rewrite (at_goal_same_goals g' g) by done.
  destruct (at_goal g idx (Some curr)) as [[|]|]; [done| |done].
  rewrite HN. apply IH.
Qed.

Lemma find_path_to_goal_same g g' player_idx H V :
  BOARD_SIZE g' = BOARD_SIZE g →
  win_rows g' = win_rows g → win_cols g' = win_cols g →
  player_positions g' !! player_idx = player_positions g !! player_idx →
  find_path_to_goal g' player_idx H V = find_path_to_goal g player_idx H V.
Proof.
  intros HN Hwr Hwc Hpos. unfold find_path_to_goal. rewrite Hpos, HN.
  destruct (player_positions g !! player_idx) as [p|]; [|done].
  cbn [mbind option_bind]. by rewrite (bfs_loop_same_goals _ g g').
Qed.

(** X13.  Pawns are no obstacles to the search: the verdict of
    [find_path_to_goal] for a player depends on the board size, the goal
    lines, the wall sets given and that player's own cell only, not on
    where the other pawns stand or whose turn it is. *)
Theorem search_ignores_other_pawns g g' player_idx H V :
  BOARD_SIZE g' = BOARD_SIZE g →
  win_rows g' = win_rows g → win_cols g' = win_cols g →
  player_positions g' !! player_idx = player_positions g !! player_idx →
  find_path_to_goal g' player_idx H V = find_path_to_goal g player_idx H V.
Proof. apply find_path_to_goal_same. Qed.

Lemma search_ignores_other_pawns_witness :
  find_path_to_goal edge_example 0 {[ (3, 3); (3, 4) ]} ∅
  = find_path_to_goal (two_player_position (4, 0) (7, 7)) 0
      {[ (3, 3); (3, 4) ]} ∅.
Proof.
  apply (search_ignores_other_pawns (two_player_position (4, 0) (7, 7))
           edge_example 0); reflexivity.
Defined.

(** ** Mouse clicks *)

Lemma pixel_cell (k d : Z) :
  0 ≤ d < SQUARE_SIZE →
  (PADDING + k * SQUARE_SIZE + d - PADDING) `div` SQUARE_SIZE = k.
Proof.
  unfold SQUARE_SIZE, PADDING. intros Hd.
  replace (60 + k * 70 + d - 60) with (k * 70 + d) by lia.
  rewrite Z.div_add_l by lia. rewrite Z.div_small by lia. lia.
Qed.

(** Left of the panel no button is hit. *)
Lemma left_of_panel_no_button g0 g p :
  BOARD_SIZE g0 = BOARD_SIZE g →
  p.1 ≤ GAME_SIZE g - PADDING →
  on_mouse_down (draw_ui g0) g p = board_click g p.
Proof.
  intros HN Hp. unfold on_mouse_down, draw_ui, hits, collidepoint, HEIGHT.
  simpl. unfold GAME_SIZE, PADDING in *. rewrite HN.
  rewrite !(bool_decide_eq_false_2 (_ ≤ p.1 < _)) by lia. simpl.
  destruct (wall_placement_mode g0); simpl;
    by rewrite ?(bool_decide_eq_false_2 (_ ≤ p.1 < _)) by lia.
Qed.

Lemma click_in_cell g0 g r c dx dy :
  BOARD_SIZE g0 = BOARD_SIZE g →
  0 ≤ r < BOARD_SIZE g → 0 ≤ c < BOARD_SIZE g →
  0 ≤ dx < SQUARE_SIZE → 0 ≤ dy < SQUARE_SIZE →
  game_over g = false → wall_placement_mode g = false →
  on_mouse_down (draw_ui g0) g
    (PADDING + c * SQUARE_SIZE + dx, PADDING + r * SQUARE_SIZE + dy)
  = snd <$> move_player g r c.
Proof.
  intros HN Hr Hc Hdx Hdy Hlive Hmode.
  rewrite left_of_panel_no_button; [|done|].
  2:{ simpl. unfold GAME_SIZE, SQUARE_SIZE, PADDING in *. lia. }
  unfold board_click. rewrite Hlive, Hmode, !pixel_cell by done. simpl.
  rewrite !bool_decide_eq_true_2; [done| |];
    unfold GAME_SIZE, SQUARE_SIZE, PADDING in *; lia.
Qed.

(** X14.  In move mode, while the game is not over, a click on any pixel
    of the square of cell [(r, c)] - whatever buttons were drawn - asks
    [move_player] for exactly that cell. *)
Theorem click_selects_cell g0 g r c dx dy :
  BOARD_SIZE g0 = BOARD_SIZE g →
  0 ≤ r < BOARD_SIZE g → 0 ≤ c < BOARD_SIZE g →
  0 ≤ dx < SQUARE_SIZE → 0 ≤ dy < SQUARE_SIZE →
  game_over g = false → wall_placement_mode g = false →
  on_mouse_down (draw_ui g0) g
    (PADDING + c * SQUARE_SIZE + dx, PADDING + r * SQUARE_SIZE + dy)
  = snd <$> move_player g r c.
Proof. apply click_in_cell. Qed.

Lemma click_selects_cell_witness :
  on_mouse_down (draw_ui start_position) start_position
    (PADDING + 4 * SQUARE_SIZE + 69, PADDING + 7 * SQUARE_SIZE + 0)
  = snd <$> move_player start_position 7 4.
Proof.
  apply (click_selects_cell start_position start_position 7 4 69 0);
    (reflexivity || (unfold SQUARE_SIZE; simpl; lia)).
Defined.

Lemma move_player_legal g r c moves :
  well_formed g → get_possible_moves g = Some moves → (r, c) ∈ moves →
  ∃ g', move_player g r c = Some (true, g').
Proof.
  intros Hwf Hmoves Hin.
  destruct (move_player_total g r c Hwf) as (b & g' & Hm).
  pose proof Hm as (moves' & Hmoves' & Hcases)%move_player_cases.
  destruct Hcases as [(_ & Hn & _)|(-> & _)]; [|by exists g'].
  destruct Hn. congruence.
Qed.

(** X15.  Every circle that [draw_board] highlights is a move that
    works: in a state reachable from initialization, a click on the
    centre of a highlighted circle is dispatched to [move_player] for the
    cell of that circle, the move is accepted, and the pawn of the player
    to move ends on that cell. *)
Theorem highlighted_circle_moves_pawn g p :
  reachable g → p ∈ highlighted_moves g →
  ∃ r c g',
    p = cell_centre r c
    ∧ move_player g r c = Some (true, g')
    ∧ on_mouse_down (draw_ui g) g p = Some g'
    ∧ player_positions g' !! current_player g = Some (r, c).
Proof.
  intros Hg Hp. unfold highlighted_moves in Hp.
  destruct (wall_placement_mode g) eqn:Hmode;
    [by apply elem_of_nil in Hp|].
  destruct (game_over g) eqn:Hlive; [by apply elem_of_nil in Hp|].
  simpl in Hp. apply list_elem_of_fmap in Hp as ([r c] & -> & Hin).
  pose proof (reachable_well_formed g Hg) as Hwf.
  destruct (reachable_coherent g Hg) as [Hcache _].
  destruct (Hcache Hlive) as (Hmoves & _).
  destruct (possible_move_on_board g _ (r, c) Hmoves Hin) as [Hr Hc].
  destruct (move_player_legal g r c _ Hwf Hmoves Hin) as [g' Hm].
  exists r, c, g'. split_and!; [done|done| |].
  - unfold cell_centre. simpl in *.
    rewrite (click_in_cell g g r c (SQUARE_SIZE `div` 2)
               (SQUARE_SIZE `div` 2)); try done.
    by rewrite Hm.
  - apply move_player_positions in Hm as [_ ->].
    apply list_lookup_insert_eq.
    rewrite (wf_positions g Hwf). apply (wf_current g Hwf).
Qed.

Lemma highlighted_circle_moves_pawn_witness :
  ∃ r c g',
    (375, 585) = cell_centre r c
    ∧ move_player start_position r c = Some (true, g')
    ∧ on_mouse_down (draw_ui start_position) start_position (375, 585)
      = Some g'
    ∧ player_positions g' !! current_player start_position = Some (r, c).
Proof.
  apply (highlighted_circle_moves_pawn start_position (375, 585)).
  - apply (reachable_init 9 2); [lia|lia|by vm_compute].
  - vm_compute. apply list_elem_of_here.
Defined.

(** X16.  In wall mode, while the game is not over, a click anywhere on
    the board asks [place_wall] for the selected orientation at the
    clicked cell, moved up or left by one on the last row or column; on a
    board of side at least 2 that anchor always passes the range check of
    [is_valid_wall_placement]. *)
Theorem wall_click_in_range g mx my :
  2 ≤ BOARD_SIZE g →
  PADDING ≤ mx ≤ GAME_SIZE g - PADDING →
  PADDING ≤ my ≤ GAME_SIZE g - PADDING →
  game_over g = false → wall_placement_mode g = true →
  let r := (my - PADDING) `div` SQUARE_SIZE in
  let c := (mx - PADDING) `div` SQUARE_SIZE in
  board_click g (mx, my)
  = snd <$> place_wall g (r `min` (BOARD_SIZE g - 2))
              (c `min` (BOARD_SIZE g - 2)) (selected_wall_type g)
  ∧ wall_in_range g (r `min` (BOARD_SIZE g - 2))
      (c `min` (BOARD_SIZE g - 2)) = true.
Proof.
  intros HN Hx Hy Hlive Hmode r c.
  assert (Hr : 0 ≤ r) by (apply Z.div_pos; unfold SQUARE_SIZE; lia).
  assert (Hc : 0 ≤ c) by (apply Z.div_pos; unfold SQUARE_SIZE; lia).
  split.
  - unfold board_click. rewrite Hlive, Hmode. simpl.
    rewrite !bool_decide_eq_true_2 by done. simpl.
    fold r c. by rewrite !Z.max_r by lia.
  - apply wall_in_range_true. lia.
Qed.

Lemma wall_click_in_range_witness :
  board_click (set_wall_placement_mode true start_position) (689, 60)
  = snd <$> place_wall (set_wall_placement_mode true start_position)
              (0 `min` (9 - 2)) (8 `min` (9 - 2)) "horizontal"
  ∧ wall_in_range (set_wall_placement_mode true start_position)
      (0 `min` (9 - 2)) (8 `min` (9 - 2)) = true.
Proof.
  apply (wall_click_in_range
           (set_wall_placement_mode true start_position) 689 60);
    (reflexivity || (vm_compute; intuition congruence)).
Defined.

(** ** The rule methods and the input mode *)

Lemma with_ui_own g :
  with_ui (wall_placement_mode g) (selected_wall_type g) g = g.
Proof. by destruct g. Qed.

Lemma find_path_to_goal_with_ui m t g idx th tv :
  find_path_to_goal (with_ui m t g) idx th tv = find_path_to_goal g idx th tv.
Proof. by apply find_path_to_goal_same. Qed.

Lemma paths_remain_with_ui m t g th tv idxs :
  paths_remain (with_ui m t g) th tv idxs = paths_remain g th tv idxs.
Proof.
  induction idxs as [|p idxs IH]; [done|]. simpl.
  change (at_goal (with_ui m t g) p (player_positions g !! p))
    with (at_goal g p (player_positions g !! p)).
  destruct (at_goal g p (player_positions g !! p)) as [[|]|]; [done| |done].
  cbn [mbind option_bind]. rewrite find_path_to_goal_with_ui.
  destruct (find_path_to_goal g p th tv) as [[|]|]; done.
Qed.

Lemma is_valid_wall_placement_with_ui m t g r c w :
  is_valid_wall_placement (with_ui m t g) r c w
  = is_valid_wall_placement g r c w.
Proof.
  unfold is_valid_wall_placement.
  change (wall_in_range (with_ui m t g) r c) with (wall_in_range g r c).
  change (wall_exists (with_ui m t g) r c w) with (wall_exists g r c w).
  change (wall_intersects (with_ui m t g) r c w)
    with (wall_intersects g r c w).
  change (test_walls (with_ui m t g) r c w) with (test_walls g r c w).
  repeat case_match; try done. simpl. apply paths_remain_with_ui.
Qed.

Lemma get_possible_moves_with_ui m t g :
  get_possible_moves (with_ui m t g) = get_possible_moves g.
Proof. by apply get_possible_moves_same. Qed.

Lemma next_turn_with_ui m t g :
  next_turn (with_ui m t g) = with_ui m t <$> next_turn g.
Proof.
  unfold next_turn. simpl. destruct (game_over g); [done|]. simpl.
  case_bool_decide; [done|].
  set (g2 := set_message _ (set_current_player _ g)).
  match goal with
  | |- get_possible_moves ?a ≫= _ = _ =>
      rewrite (get_possible_moves_same g2 a) by done
  end.
  by destruct (get_possible_moves g2).
Qed.

Lemma move_player_with_ui m t g r c :
  move_player (with_ui m t g) r c
  = prod_map id (with_ui m t) <$> move_player g r c.
Proof.
  unfold move_player. rewrite get_possible_moves_with_ui.
  destruct (get_possible_moves g) as [moves|]; [|done].
  cbn [mbind option_bind]. case_bool_decide; [done|].
  set (g1 := set_player_positions _ g).
  change (set_player_positions _ (with_ui m t g)) with (with_ui m t g1).
  change (at_goal (with_ui m t g1) (current_player (with_ui m t g1)))
    with (at_goal g1 (current_player g1)).
  destruct (at_goal g1 (current_player g1) (Some (r, c))) as [[|]|];
    [done| |done].
  cbn [mbind option_bind].
  rewrite next_turn_with_ui. by destruct (next_turn g1).
Qed.

Lemma place_wall_with_ui m t g r c w :
  place_wall (with_ui m t g) r c w
  = prod_map id (with_ui m t) <$> place_wall g r c w.
Proof.
  unfold place_wall. simpl.
  destruct (walls_remaining g !! current_player g) as [left|]; [|done].
  cbn [mbind option_bind]. case_bool_decide; [done|].
  rewrite is_valid_wall_placement_with_ui.
  destruct (is_valid_wall_placement g r c w) as [[|]|]; [|done|done].
  cbn [mbind option_bind negb].
  destruct (player_walls g !! current_player g) as [mine|]; [|done].
  cbn [mbind option_bind].
  assert (commit_wall (with_ui m t g) r c w left mine
          = with_ui m t (commit_wall g r c w left mine)) as ->.
  { unfold commit_wall. by case_bool_decide. }
  rewrite next_turn_with_ui. by destruct (next_turn _).
Qed.

(** ** States of the running program *)

Lemma place_wall_no_crossing g r c wall_type g' :
  ledger g → no_crossing g →
  wall_type = "horizontal" ∨ wall_type = "vertical" →
  place_wall g r c wall_type = Some (true, g') → no_crossing g'.
Proof.
  intros [Ht Hs Hch Hcv Hd] Hnc Htype Hp.
  pose proof (place_wall_commit _ _ _ _ _ Hp)
    as (left & mine & _ & _ & Hmine & Hvalid & _ & Hpw & _).
  apply is_valid_wall_placement_checks in Hvalid as (_ & _ & Hcross).
  pose proof (recorded_after_commit g g' _ _ _ Hmine Hpw) as Hrec.
  unfold wall_intersects in Hcross.
  apply orb_false_iff in Hcross as [Hch' Hcv'].
  intros i j r0 c0 [Hi|[-> Hi]]%Hrec [Hj|[-> Hj]]%Hrec.
  - by eapply Hnc.
  - destruct Htype as [-> | ->]; [done|]. injection Hj as -> ->.
    pose proof (Hs i ("h", r, c) (r, c) Hi (list_elem_of_here _ _)).
    pose proof (Hs i ("h", r, c) (r, c + 1) Hi
                  (list_elem_of_further _ _ _ (list_elem_of_here _ _))).
    unfold record_set in *. simpl in *.
    rewrite !bool_decide_eq_true_2 in Hcv' by done. done.
  - destruct Htype as [-> | ->]; [|done]. injection Hi as -> ->.
    pose proof (Hs j ("v", r, c) (r, c) Hj (list_elem_of_here _ _)).
    pose proof (Hs j ("v", r, c) (r + 1, c) Hj
                  (list_elem_of_further _ _ _ (list_elem_of_here _ _))).
    unfold record_set in *. simpl in *.
    rewrite !bool_decide_eq_true_2 in Hch' by done. done.
  - destruct Htype as [-> | ->]; done.
Qed.

Lemma ui_invariant_start g : new_game = Some g → ui_invariant g.
Proof.
  rewrite new_game_start. intros [= <-]. split_and!; try done.
  - apply start_position_reachable.
  - by left.
  - intros i j r c Hrec _.
    by apply (initialize_game_no_records 9 2 start_position i ("h", r, c)
                new_game_start).
Qed.

Lemma ui_invariant_mutator g g' b :
  ui_invariant g →
  (∃ r c, move_player g r c = Some (b, g'))
  ∨ (∃ r c, place_wall g r c (selected_wall_type g) = Some (b, g')) →
  ui_invariant g'.
Proof.
  intros (Hreach & HN & Hn & Htype & Hnc) Hcall.
  assert (Hnorm : reachable (with_ui false "horizontal" g')
                  ∧ selected_wall_type g' = selected_wall_type g).
  { destruct Hcall as [(r & c & Hm)|(r & c & Hp)].
    - split.
      + apply (reachable_move _ r c b _ Hreach).
        rewrite move_player_with_ui, Hm. done.
      + rewrite <- (with_ui_own g) in Hm. rewrite move_player_with_ui in Hm.
        destruct (move_player g r c) as [[b0 g0]|]; [|done].
        by injection Hm as _ <-.
    - split.
      + apply (reachable_wall _ r c (selected_wall_type g) b _ Hreach).
        rewrite place_wall_with_ui, Hp. done.
      + rewrite <- (with_ui_own g) in Hp at 1.
        rewrite place_wall_with_ui in Hp.
        destruct (place_wall g r c _) as [[b0 g0]|]; [|done].
        by injection Hp as _ <-. }
  destruct Hnorm as [Hreach' Htype'].
  destruct (mutator_keeps_goals g g') as (HN' & Hn' & _).
  { destruct Hcall as [(r & c & Hm)|(r & c & Hp)];
      [left; by exists r, c, b
      |right; by exists r, c, (selected_wall_type g), b]. }
  split_and!; [done|congruence|congruence|congruence|].
  destruct Hcall as [(r & c & Hm)|(r & c & Hp)].
  - apply move_player_frame in Hm as (_ & _ & _ & _ & _ & Hpw & _).
    unfold no_crossing, recorded. by rewrite Hpw.
  - destruct b.
    + eapply place_wall_no_crossing; [|done|done|done].
      apply (ledger_same_walls (with_ui false "horizontal" g)); try done.
      by apply reachable_ledger.
    + destruct (rejected_same_state g g') as [m ->]; [|done].
      right. by exists r, c, (selected_wall_type g).
Qed.

Lemma ui_invariant_click ui g p g' :
  ui_invariant g → on_mouse_down ui g p = Some g' → ui_invariant g'.
Proof.
  intros Hinv. pose proof Hinv as (Hreach & HN & Hn & Htype & Hnc).
  unfold on_mouse_down. repeat case_match.
  - intros [= <-]. by split_and!.
  - intros [= <-]. by split_and!.
  - rewrite HN, Hn. apply ui_invariant_start.
  - intros [= <-]. split_and!; try done. by left.
  - intros [= <-]. split_and!; try done. by right.
  - unfold board_click. destruct p as [mx my].
    repeat case_match; try (by intros [= <-]).
    + destruct (move_player g _ _) as [[b g0]|] eqn:Hm; [|done].
      intros [= <-]. eapply (ui_invariant_mutator g); [done|].
      left. eauto.
    + destruct (place_wall g _ _ _) as [[b g0]|] eqn:Hp; [|done].
      intros [= <-]. eapply (ui_invariant_mutator g); [done|].
      right. eauto.
Qed.

Lemma ui_invariant_clicks ui clicks g g' :
  ui_invariant g → clicks_from ui g clicks = Some g' → ui_invariant g'.
Proof.
  revert g. induction clicks as [|p clicks IH]; intros g Hinv; simpl.
  - by intros [= <-].
  - destruct (on_mouse_down ui g p) as [g1|] eqn:Hclick; [|done].
    cbn [mbind option_bind]. apply IH. by eapply ui_invariant_click.
Qed.

Lemma ui_reachable_invariant g : ui_reachable g → ui_invariant g.
Proof.
  induction 1 as [g Hstart|g clicks g' _ IH Hframe].
  - by apply ui_invariant_start.
  - by eapply ui_invariant_clicks.
Qed.

(** X17.  In every state of the running program - the constructor's
    state followed by any frames of mouse clicks - the selected
    orientation is "horizontal" or "vertical", and no recorded horizontal
    wall and recorded vertical wall are anchored at the same
    intersection: walls placed by clicking never cross. *)
Theorem clicked_walls_never_cross g :
  ui_reachable g →
  (selected_wall_type g = "horizontal" ∨ selected_wall_type g = "vertical")
  ∧ ∀ i j r c,
      recorded g i ("h", r, c) → recorded g j ("v", r, c) → False.
Proof.
  intros (_ & _ & _ & Htype & Hnc)%ui_reachable_invariant. done.
Qed.

Lemma clicked_walls_never_cross_witness :
  (selected_wall_type start_position = "horizontal"
   ∨ selected_wall_type start_position = "vertical")
  ∧ ∀ i j r c,
      recorded start_position i ("h", r, c) →
      recorded start_position j ("v", r, c) → False.
Proof.
  apply (clicked_walls_never_cross start_position).
  apply ui_reachable_start. by vm_compute.
Defined.

(** X18.  The running program only ever shows states of the rules
    engine: every state reached by frames of mouse clicks is, up to the
    two input-mode attributes, a state reachable from initialization by
    calls of [move_player] and [place_wall], on the 9 x 9 board with two
    players. *)
Theorem clicks_stay_in_engine_states g :
  ui_reachable g →
  reachable (with_ui false "horizontal" g)
  ∧ BOARD_SIZE g = 9 ∧ num_players g = 2%nat.
Proof.
  intros (Hreach & HN & Hn & _)%ui_reachable_invariant. done.
Qed.

Lemma clicks_stay_in_engine_states_witness :
  ∃ g, frame start_position [(790, 360); (375, 585)] = Some g
  ∧ reachable (with_ui false "horizontal" g)
  ∧ BOARD_SIZE g = 9 ∧ num_players g = 2%nat.
Proof.
  destruct (frame start_position [(790, 360); (375, 585)]) as [g|] eqn:Hf;
    [|by vm_compute in Hf].
  exists g. split; [done|].
  apply (clicks_stay_in_engine_states g).
  apply (ui_reachable_frame start_position [(790, 360); (375, 585)]);
    [|exact Hf].
  apply ui_reachable_start. by vm_compute.
Defined.

(** X19.  Once the game is over, the only click that changes the game
    state is the one on "New Game": any other click leaves positions,
    walls, counts, turn, terminal flag and winner as they are. *)
Theorem only_new_game_after_the_end ui g p g' :
  game_over g = true → on_mouse_down ui g p = Some g' →
  game_state g' = game_state g
  ∨ (collidepoint (restart_button ui) p = true
     ∧ initialize_game (BOARD_SIZE g) (num_players g) = Some g').
Proof.
  intros Hover. unfold on_mouse_down.
  destruct (collidepoint (move_button ui) p); [intros [= <-]; by left|].
  destruct (collidepoint (wall_button ui) p); [intros [= <-]; by left|].
  destruct (collidepoint (restart_button ui) p); [by right|].
  destruct (hits (h_wall_button ui) p); [intros [= <-]; by left|].
  destruct (hits (v_wall_button ui) p); [intros [= <-]; by left|].
  unfold board_click. destruct p as [mx my]. rewrite Hover. simpl.
  destruct (_ && _); intros [= <-]; by left.
Qed.

Lemma only_new_game_after_the_end_witness :
  game_state start_position = game_state finished_example
  ∨ (collidepoint (restart_button (draw_ui finished_example)) (800, 700)
     = true
     ∧ initialize_game (BOARD_SIZE finished_example)
         (num_players finished_example) = Some start_position).
Proof.
  apply (only_new_game_after_the_end (draw_ui finished_example)
           finished_example (800, 700) start_position).
  - reflexivity.
  - vm_compute. reflexivity.
Defined.

(** X20.  A click on "New Game" brings the running program back to the
    opening position, whatever state it is in and whichever frame drew
    the button. *)
Theorem new_game_restores_opening g0 g p :
  ui_reachable g0 → ui_reachable g →
  collidepoint (restart_button (draw_ui g0)) p = true →
  on_mouse_down (draw_ui g0) g p = Some start_position.
Proof.
  intros (_ & HN0 & Hn0 & _)%ui_reachable_invariant
         (_ & HN & Hn & _)%ui_reachable_invariant.
  unfold on_mouse_down, draw_ui, collidepoint, HEIGHT, GAME_SIZE.
  simpl. rewrite HN0, Hn0, HN, Hn. unfold SQUARE_SIZE, PADDING, PANEL_WIDTH.
  simpl. intros [Hx Hy]%andb_true_iff.
  apply bool_decide_eq_true in Hx, Hy.
  rewrite !(bool_decide_eq_false_2 (_ ≤ p.2 < 355 + 45)) by lia.
  rewrite !andb_false_r.
  rewrite !bool_decide_eq_true_2 by done. simpl. apply new_game_start.
Qed.

Lemma new_game_restores_opening_witness :
  on_mouse_down (draw_ui start_position) finished_example (800, 700)
  = Some start_position.
Proof.
  apply (new_game_restores_opening start_position finished_example
           (800, 700)).
  - apply ui_reachable_start. by vm_compute.
  - apply (ui_reachable_frame start_position
             ((λ p, cell_centre p.1 p.2) <$>
                [(7, 4); (0, 3); (6, 4); (0, 4); (5, 4); (0, 3); (4, 4);
                 (0, 4); (3, 4); (0, 3); (2, 4); (0, 4); (1, 4); (0, 3);
                 (0, 4)])).
    + apply ui_reachable_start. by vm_compute.
    + by vm_compute.
  - by vm_compute.
Defined.

(** ** Wall legality, exactly *)

Lemma paths_remain_complete g th tv idxs :
  well_formed g → (∀ i, i ∈ idxs → (i < num_players g)%nat) →
  (∀ i pos wr wc,
     i ∈ idxs →
     player_positions g !! i = Some pos →
     win_rows g !! i = Some wr → win_cols g !! i = Some wc →
     ¬ goal_cell wr wc pos →
     reaches_goal (BOARD_SIZE g) th tv wr wc pos) →
  paths_remain g th tv idxs = Some true.
Proof.
  intros Hwf. induction idxs as [|p rest IH]; intros Hidx Hall; [done|].
  simpl.
  assert (Hp : (p < num_players g)%nat) by (apply Hidx; set_solver).
  assert (Hrest : paths_remain g th tv rest = Some true).
  { apply IH; [intros i Hi; apply Hidx; set_solver|].
    intros i pos wr wc Hi. apply Hall. set_solver. }
  destruct (lookup_lt_is_Some_2 (player_positions g) p) as [pos Hpos];
    [by rewrite (wf_positions g Hwf)|].
  destruct (at_goal_total g p pos Hwf Hp)
    as (wr & wc & b & Hwr & Hwc & Hb & Hiff).
  rewrite Hpos, Hb. cbn [mbind option_bind]. destruct b; [done|].
  destruct (find_path_to_goal_correct g p th tv wr wc pos Hwr Hwc Hpos)
    as (ok & -> & Hok).
  cbn [mbind option_bind].
  assert (ok = true) as ->; [|done].
  apply Hok. apply (Hall p pos wr wc); [set_solver|done..|].
  intros Hg. apply Hiff in Hg. done.
Qed.

(** X21.  In a state reachable from initialization a segment is legal
    exactly when its anchor is in range, neither of its two blockers is
    on the board already, it does not cross, and with its two blockers
    added every player who is not on a goal cell still has a path to
    one. *)
Theorem wall_legal_exactly g o r c :
  reachable g →
  is_valid_wall_placement g r c (wall_type_of o) = Some true ↔
    (0 ≤ r < BOARD_SIZE g - 1 ∧ 0 ≤ c < BOARD_SIZE g - 1)
    ∧ (∀ u, u ∈ blockers_of o r c → u ∉ blockers g o)
    ∧ ¬ crosses g o r c
    ∧ ∀ i pos wr wc,
        player_positions g !! i = Some pos →
        win_rows g !! i = Some wr → win_cols g !! i = Some wc →
        ¬ goal_cell wr wc pos →
        reaches_goal (BOARD_SIZE g) (test_walls g r c (wall_type_of o)).1
          (test_walls g r c (wall_type_of o)).2 wr wc pos.
Proof.
  intros Hwf%reachable_well_formed.
  assert (Hfree : wall_exists g r c (wall_type_of o) = false
                  ↔ ∀ u, u ∈ blockers_of o r c → u ∉ blockers g o).
  { unfold wall_exists. destruct o; simpl;
      rewrite orb_false_iff, !bool_decide_eq_false; split.
    - intros [? ?] u. rewrite !elem_of_cons, elem_of_nil.
      intros [->|[->|[]]]; done.
    - intros Hu. split; apply Hu; set_solver.
    - intros [? ?] u. rewrite !elem_of_cons, elem_of_nil.
      intros [->|[->|[]]]; done.
    - intros Hu. split; apply Hu; set_solver. }
  assert (Hcross : wall_intersects g r c (wall_type_of o) = true
                   ↔ crosses g o r c).
  { unfold wall_intersects, crosses. destruct o; simpl;
      rewrite ?orb_false_r, andb_true_iff, !bool_decide_eq_true; split.
    - intros [? ?] u. rewrite !elem_of_cons, elem_of_nil.
      intros [->|[->|[]]]; done.
    - intros Hu. split; apply Hu; set_solver.
    - intros [? ?] u. rewrite !elem_of_cons, elem_of_nil.
      intros [->|[->|[]]]; done.
    - intros Hu. split; apply Hu; set_solver. }
  split.
  - intros Hvalid.
    pose proof (is_valid_wall_placement_checks _ _ _ _ Hvalid)
      as (Hr & Hf & Hc).
    split; [by apply wall_in_range_true|].
    split; [by apply Hfree|]. split.
    + intros Hx. apply Hcross in Hx. congruence.
    + intros i pos wr wc Hpos Hwr Hwc Hng.
      apply is_valid_wall_placement_paths in Hvalid.
      eapply paths_remain_true; try done.
      apply elem_of_seq. apply lookup_lt_Some in Hpos.
      rewrite (wf_positions g Hwf) in Hpos. lia.
  - intros (Hr & Hf & Hc & Hpaths). unfold is_valid_wall_placement.
    apply wall_in_range_true in Hr. apply Hfree in Hf. rewrite Hr, Hf.
    simpl.
    destruct (wall_intersects g r c (wall_type_of o)) eqn:Hx.
    { destruct Hc. by apply Hcross. }
    apply paths_remain_complete; [done| |].
    + intros i Hi. apply elem_of_seq in Hi. lia.
    + intros i pos wr wc _. apply Hpaths.
Qed.

Lemma wall_legal_exactly_witness :
  is_valid_wall_placement start_position 3 3 (wall_type_of Horizontal)
  = Some true ↔
    (0 ≤ 3 < BOARD_SIZE start_position - 1
     ∧ 0 ≤ 3 < BOARD_SIZE start_position - 1)
    ∧ (∀ u, u ∈ blockers_of Horizontal 3 3 →
            u ∉ blockers start_position Horizontal)
    ∧ ¬ crosses start_position Horizontal 3 3
    ∧ ∀ i pos wr wc,
        player_positions start_position !! i = Some pos →
        win_rows start_position !! i = Some wr →
        win_cols start_position !! i = Some wc →
        ¬ goal_cell wr wc pos →
        reaches_goal (BOARD_SIZE start_position)
          (test_walls start_position 3 3 (wall_type_of Horizontal)).1
          (test_walls start_position 3 3 (wall_type_of Horizontal)).2
          wr wc pos.
Proof.
  apply (wall_legal_exactly start_position Horizontal 3 3).
  apply (reachable_init 9 2); [lia|lia|by vm_compute].
Defined.

(** X22.  A segment whose anchor is out of range, or one of whose two
    blockers is already on the board, is rejected by [place_wall] in
    every well-formed state - also when the player has walls left - and
    the game state stays as it is. *)
Theorem misplaced_wall_rejected g o r c :
  well_formed g →
  ¬ (0 ≤ r < BOARD_SIZE g - 1 ∧ 0 ≤ c < BOARD_SIZE g - 1)
  ∨ (∃ u, u ∈ blockers_of o r c ∧ u ∈ blockers g o) →
  ∃ g', place_wall g r c (wall_type_of o) = Some (false, g')
        ∧ game_state g' = game_state g.
Proof.
  intros Hwf Hbad.
  assert (Hinvalid : is_valid_wall_placement g r c (wall_type_of o)
                     = Some false).
  { unfold is_valid_wall_placement.
    destruct (wall_in_range g r c) eqn:Hr; [|done]. simpl.
    destruct Hbad as [Hout|(u & Hu & Hin)].
    { destruct Hout. by apply wall_in_range_true. }
    assert (wall_exists g r c (wall_type_of o) = true) as ->; [|done].
    unfold wall_exists. destruct o; simpl in *;
      rewrite !elem_of_cons, elem_of_nil in Hu;
      apply orb_true_iff; rewrite !bool_decide_eq_true;
      destruct Hu as [->|[->|[]]]; auto. }
  unfold place_wall.
  destruct (lookup_lt_is_Some_2 (walls_remaining g) (current_player g))
    as [left ->].
  { rewrite (wf_walls_remaining g Hwf). apply (wf_current g Hwf). }
  cbn [mbind option_bind]. case_bool_decide; [by eexists|].
  rewrite Hinvalid. cbn [mbind option_bind negb]. by eexists.
Qed.

Lemma misplaced_wall_rejected_witness :
  ∃ g', place_wall start_position 8 3 (wall_type_of Vertical)
        = Some (false, g')
        ∧ game_state g' = game_state start_position.
Proof.
  apply (misplaced_wall_rejected start_position Vertical 8 3).
  - apply reachable_well_formed, start_position_reachable.
  - left. vm_compute. intuition congruence.
Defined.

(** X23.  A [wall_type] that is neither "horizontal" nor "vertical" is
    never checked for crossing: it is validated and placed as a vertical
    wall, so whenever the vertical wall at the same anchor would not
    cross, the two calls do the same. *)
Theorem unknown_wall_type_is_vertical g r c wall_type :
  wall_type ≠ "horizontal" → wall_type ≠ "vertical" →
  wall_intersects g r c wall_type = false
  ∧ (wall_intersects g r c "vertical" = false →
     place_wall g r c wall_type = place_wall g r c "vertical").
Proof.
  intros Hh Hv.
  assert (Hx : wall_intersects g r c wall_type = false).
  { unfold wall_intersects.
    rewrite (bool_decide_eq_false_2 (wall_type = "horizontal")) by done.
    by rewrite (bool_decide_eq_false_2 (wall_type = "vertical")) by done. }
  split; [done|]. intros Hxv. unfold place_wall.
  assert (is_valid_wall_placement g r c wall_type
          = is_valid_wall_placement g r c "vertical") as ->.
  { unfold is_valid_wall_placement, wall_exists, test_walls.
    rewrite Hx, Hxv.
    rewrite !(bool_decide_eq_false_2 (wall_type = "horizontal")) by done.
    by rewrite !(bool_decide_eq_false_2 ("vertical" = "horizontal"))
      by done. }
  assert (∀ left mine, commit_wall g r c wall_type left mine
                       = commit_wall g r c "vertical" left mine) as Hcw.
  { intros left mine. unfold commit_wall.
    rewrite !(bool_decide_eq_false_2 (wall_type = "horizontal")) by done.
    by rewrite !(bool_decide_eq_false_2 ("vertical" = "horizontal"))
      by done. }
  destruct (walls_remaining g !! current_player g) as [left|]; [|done].
  cbn [mbind option_bind]. case_bool_decide; [done|].
  destruct (is_valid_wall_placement g r c "vertical") as [[|]|];
    [|done|done].
  cbn [mbind option_bind negb].
  destruct (player_walls g !! current_player g) as [mine|]; [|done].
  cbn [mbind option_bind]. by rewrite Hcw.
Qed.

Lemma unknown_wall_type_is_vertical_witness :
  wall_intersects start_position 3 3 "diagonal" = false
  ∧ (wall_intersects start_position 3 3 "vertical" = false →
     place_wall start_position 3 3 "diagonal"
     = place_wall start_position 3 3 "vertical").
Proof.
  apply (unknown_wall_type_is_vertical start_position 3 3 "diagonal");
    intros [=].
Defined.

(** A run in which the missing check matters: across the horizontal wall
    at (3,3) a "vertical" wall at (3,3) is rejected, a wall of an unknown
    type at (3,3) is placed as a vertical one. *)
Example unknown_wall_type_crosses :
  ∃ g, play [Wall 3 3 "horizontal"] start_position = Some g
       ∧ fst <$> place_wall g 3 3 "vertical" = Some false
       ∧ fst <$> place_wall g 3 3 "diagonal" = Some true.
Proof. eexists. split; [by vm_compute|]. by vm_compute. Qed.

(** ** What each mutator leaves alone *)

(** X24.  [move_player] never touches the walls, the wall counts or the
    placed-wall lists, and [place_wall] never moves a pawn or ends the
    game; neither changes the board size, the number of players or the
    goal lines. *)
Theorem mutators_keep_to_their_part g g' b :
  ((∃ r c, move_player g r c = Some (b, g')) →
   horizontal_walls g' = horizontal_walls g
   ∧ vertical_walls g' = vertical_walls g
   ∧ walls_remaining g' = walls_remaining g
   ∧ player_walls g' = player_walls g)
  ∧ ((∃ r c w, place_wall g r c w = Some (b, g')) →
     player_positions g' = player_positions g
     ∧ game_over g' = game_over g ∧ winner g' = winner g)
  ∧ ((∃ r c, move_player g r c = Some (b, g'))
     ∨ (∃ r c w, place_wall g r c w = Some (b, g')) →
     BOARD_SIZE g' = BOARD_SIZE g ∧ num_players g' = num_players g
     ∧ win_rows g' = win_rows g ∧ win_cols g' = win_cols g).
Proof.
  split_and!.
  - intros (r & c & Hm).
    by apply move_player_frame in Hm as (_ & _ & _ & _ & ? & ? & ? & ?).
  - intros (r & c & w & Hp).
    by apply place_wall_frame in Hp as (_ & _ & ? & _ & _ & ? & ?).
  - intros Hcall. apply mutator_keeps_goals.
    destruct Hcall as [(r & c & ?)|(r & c & w & ?)];
      [left; by exists r, c, b|right; by exists r, c, w, b].
Qed.

Lemma mutators_keep_to_their_part_witness :
  ∃ g', move_player start_position 7 4 = Some (true, g')
  ∧ horizontal_walls g' = horizontal_walls start_position
  ∧ vertical_walls g' = vertical_walls start_position
  ∧ walls_remaining g' = walls_remaining start_position
  ∧ player_walls g' = player_walls start_position.
Proof.
  destruct (move_player start_position 7 4) as [[b g']|] eqn:Hm;
    [|by vm_compute in Hm].
  assert (b = true) as -> by (vm_compute in Hm; congruence).
  exists g'. split; [done|].
  apply (proj1 (mutators_keep_to_their_part start_position g' true)).
  by exists 7, 4.
Defined.

(** * The crossing test *)

(** In a reachable state both blockers of the crossing test are present
    exactly when a perpendicular wall is anchored at the candidate's own
    intersection, or two perpendicular walls meet end to end there. *)
Lemma crosses_recorded g o r c :
  reachable g →
  crosses g o r c
  ↔ wall_at g (perpendicular o) r c
    ∨ abutting_walls g (perpendicular o) r c.
Proof.
  intros Hreach. pose proof (reachable_ledger g Hreach) as HL.
  unfold crosses, wall_at, abutting_walls. destruct o; simpl; split.
  - intros Hu.
    destruct (ledger_complete_v g HL (r, c)) as (i & r1 & c1 & Hi & Hin1);
      [apply Hu; set_solver|].
    destruct (ledger_complete_v g HL (r + 1, c))
      as (j & r2 & c2 & Hj & Hin2); [apply Hu; set_solver|].
    rewrite !elem_of_cons, elem_of_nil in Hin1, Hin2.
    destruct Hin1 as [[= <- <-]|[[= Hr1 <-]|[]]].
    { left. by exists i. }
    destruct Hin2 as [[= <- <-]|[[= Hr2 <-]|[]]].
    + right. assert (r1 = r - 1) as -> by lia.
      split; [by exists i|by exists j].
    + left. assert (r2 = r) as -> by lia. by exists j.
  - intros [[i Hi]|[[i Hi] [j Hj]]] u;
      rewrite !elem_of_cons, elem_of_nil; intros [->|[->|[]]].
    + apply (ledger_sound g HL i ("v", r, c) (r, c) Hi).
      simpl. set_solver.
    + apply (ledger_sound g HL i ("v", r, c) (r + 1, c) Hi).
      simpl. set_solver.
    + apply (ledger_sound g HL i ("v", r - 1, c) (r, c) Hi).
      simpl. replace (r - 1 + 1) with r by lia. set_solver.
    + apply (ledger_sound g HL j ("v", r + 1, c) (r + 1, c) Hj).
      simpl. set_solver.
  - intros Hu.
    destruct (ledger_complete_h g HL (r, c)) as (i & r1 & c1 & Hi & Hin1);
      [apply Hu; set_solver|].
    destruct (ledger_complete_h g HL (r, c + 1))
      as (j & r2 & c2 & Hj & Hin2); [apply Hu; set_solver|].
    rewrite !elem_of_cons, elem_of_nil in Hin1, Hin2.
    destruct Hin1 as [[= <- <-]|[[= <- Hc1]|[]]].
    { left. by exists i. }
    destruct Hin2 as [[= <- <-]|[[= <- Hc2]|[]]].
    + right. assert (c1 = c - 1) as -> by lia.
      split; [by exists i|by exists j].
    + left. assert (c2 = c) as -> by lia. by exists j.
  - intros [[i Hi]|[[i Hi] [j Hj]]] u;
      rewrite !elem_of_cons, elem_of_nil; intros [->|[->|[]]].
    + apply (ledger_sound g HL i ("h", r, c) (r, c) Hi).
      simpl. set_solver.
    + apply (ledger_sound g HL i ("h", r, c) (r, c + 1) Hi).
      simpl. set_solver.
    + apply (ledger_sound g HL i ("h", r, c - 1) (r, c) Hi).
      simpl. replace (c - 1 + 1) with c by lia. set_solver.
    + apply (ledger_sound g HL j ("h", r, c + 1) (r, c + 1) Hj).
      simpl. set_solver.
Qed.

(** The rule as worded does not describe the test of the code, in either
    direction.  After [side_by_side_script] the columns 3 and 4 both
    carry a vertical blocker in row 3, and the horizontal segment at
    [(3, 3)] passes the crossing test all the same: the test looks at the
    rows 3 and 4 of one column boundary. *)
Lemma crossing_rule_as_worded_fails :
  ¬ (∀ g o r c,
       reachable g →
       wall_in_range g r c = true →
       wall_exists g r c (wall_type_of o) = false →
       (wall_intersects g r c (wall_type_of o) = true
        ↔ crosses_as_worded g o r c)).
Proof.
  intros Hclaim.
  destruct (play side_by_side_script start_position) as [g|] eqn:Hplay;
    [|by vm_compute in Hplay].
  assert (Hreach : reachable g)
    by (eapply play_reachable; [apply start_position_reachable|exact Hplay]).
  assert (Hfacts :
            wall_in_range g 3 3 = true
            ∧ wall_exists g 3 3 "horizontal" = false
            ∧ wall_intersects g 3 3 "horizontal" = false
            ∧ bool_decide ((3, 3) ∈ vertical_walls g) = true
            ∧ bool_decide ((3, 3 + 1) ∈ vertical_walls g) = true)
    by (vm_compute in Hplay; injection Hplay as <-; by vm_compute).
  destruct Hfacts as (Hrange & Hfree & Hno & Hl & Hr).
  destruct (Hclaim g Horizontal 3 3 Hreach Hrange Hfree) as [_ Hback].
  cbn [wall_type_of crosses_as_worded] in Hback. rewrite Hno in Hback.
  apply bool_decide_eq_true_1 in Hl, Hr.
  discriminate (Hback (conj Hl Hr)).
Qed.

(** The wall that the worded rule would refuse is placed. *)
Example side_by_side_accepted :
  ∃ g, play side_by_side_script start_position = Some g
       ∧ crosses_as_worded g Horizontal 3 3
       ∧ wall_in_range g 3 3 = true
       ∧ wall_exists g 3 3 "horizontal" = false
       ∧ wall_intersects g 3 3 "horizontal" = false
       ∧ is_valid_wall_placement g 3 3 "horizontal" = Some true
       ∧ (fst <$> place_wall g 3 3 "horizontal") = Some true.
Proof.
  destruct (play side_by_side_script start_position) as [g|] eqn:Hplay;
    [|by vm_compute in Hplay].
  exists g. split; [done|].
  assert (Hfacts :
            bool_decide ((3, 3) ∈ vertical_walls g) = true
            ∧ bool_decide ((3, 3 + 1) ∈ vertical_walls g) = true
            ∧ wall_in_range g 3 3 = true
            ∧ wall_exists g 3 3 "horizontal" = false
            ∧ wall_intersects g 3 3 "horizontal" = false
            ∧ is_valid_wall_placement g 3 3 "horizontal" = Some true
            ∧ (fst <$> place_wall g 3 3 "horizontal") = Some true)
    by (vm_compute in Hplay; injection Hplay as <-; by vm_compute).
  destruct Hfacts as (Hl & Hr & Hrest).
  apply bool_decide_eq_true_1 in Hl, Hr.
  split; [exact (conj Hl Hr)|exact Hrest].
Qed.

(** Between two walls that meet end to end the test fires, although only
    one of the two columns carries a vertical blocker in row 3 and no
    vertical wall is anchored at the intersection. *)
Example abutting_rejected :
  ∃ g, play abutting_script start_position = Some g
       ∧ ¬ crosses_as_worded g Horizontal 3 3
       ∧ ¬ wall_at g Vertical 3 3
       ∧ abutting_walls g Vertical 3 3
       ∧ wall_in_range g 3 3 = true
       ∧ wall_exists g 3 3 "horizontal" = false
       ∧ wall_intersects g 3 3 "horizontal" = true
       ∧ is_valid_wall_placement g 3 3 "horizontal" = Some false
       ∧ (fst <$> place_wall g 3 3 "horizontal") = Some false.
Proof.
  destruct (play abutting_script start_position) as [g|] eqn:Hplay;
    [|by vm_compute in Hplay].
  exists g. split; [done|].
  assert (Hreach : reachable g)
    by (eapply play_reachable; [apply start_position_reachable|exact Hplay]).
  assert (Hfacts :
            bool_decide ((3, 3 + 1) ∈ vertical_walls g) = false
            ∧ player_walls g !! 0%nat = Some [("v", 2, 3)]
            ∧ player_walls g !! 1%nat = Some [("v", 4, 3)]
            ∧ num_players g = 2%nat
            ∧ wall_in_range g 3 3 = true
            ∧ wall_exists g 3 3 "horizontal" = false
            ∧ wall_intersects g 3 3 "horizontal" = true
            ∧ is_valid_wall_placement g 3 3 "horizontal" = Some false
            ∧ (fst <$> place_wall g 3 3 "horizontal") = Some false)
    by (vm_compute in Hplay; injection Hplay as <-; by vm_compute).
  destruct Hfacts as (Hr & H0 & H1 & Hn & Hrest).
  apply bool_decide_eq_false_1 in Hr.
  split; [|split; [|split; [|exact Hrest]]].
  - intros [_ Hin]. exact (Hr Hin).
  - intros [i Hi].
    assert (Hfirst : recorded g 0 ("v", 2, 3))
      by (exists [("v", 2, 3)]; split;
          [exact H0|constructor]).
    assert (Hu : (3, 3) ∈ record_units ("v", 3, 3))
      by constructor.
    assert (Hu' : (3, 3) ∈ record_units ("v", 2, 3))
      by do 2 constructor.
    destruct (ledger_disjoint g (reachable_ledger g Hreach)
                i 0%nat ("v", 3, 3) ("v", 2, 3) (3, 3)
                Hi Hfirst eq_refl Hu Hu') as [_ [=]].
  - split.
    + exists 0%nat, [("v", 2, 3)]. split; [exact H0|].
      constructor.
    + exists 1%nat, [("v", 4, 3)]. split; [exact H1|].
      constructor.
Qed.

(** C8, as the code has it.  A candidate wall that passes the range and
    overlap checks is rejected for crossing exactly when both blocker
    units of the perpendicular segment anchored at the same intersection
    are present: for a horizontal segment at [(r, c)] the vertical
    blockers [(r, c)] and [(r + 1, c)], the rows [r] and [r + 1] of one
    column boundary; for a vertical segment the horizontal blockers
    [(r, c)] and [(r, c + 1)].  In a state reached by play that is the
    case exactly when a perpendicular wall is anchored at that
    intersection or two perpendicular walls meet end to end there.  No
    other arrangement of perpendicular blockers causes rejection for
    crossing: without it the verdict is that of the path check alone. *)
Theorem crossing_rule_as_coded g o r c :
  reachable g →
  wall_in_range g r c = true →
  wall_exists g r c (wall_type_of o) = false →
  (wall_intersects g r c (wall_type_of o) = true ↔ crosses g o r c)
  ∧ (crosses g o r c
     ↔ wall_at g (perpendicular o) r c
       ∨ abutting_walls g (perpendicular o) r c)
  ∧ (crosses g o r c →
     is_valid_wall_placement g r c (wall_type_of o) = Some false)
  ∧ (¬ crosses g o r c →
     is_valid_wall_placement g r c (wall_type_of o)
     = paths_remain g (test_walls g r c (wall_type_of o)).1
         (test_walls g r c (wall_type_of o)).2 (seq 0 (num_players g))).
Proof.
  intros Hreach Hrange Hfree.
  destruct (crossing_check_blockers g o r c Hrange Hfree)
    as (Htest & Hyes & Hno).
  split; [done|]. split; [by apply crosses_recorded|]. by split.
Qed.

Lemma crossing_rule_as_coded_witness :
  ∃ g, play abutting_script start_position = Some g
  ∧ (wall_intersects g 3 3 (wall_type_of Horizontal) = true
     ↔ crosses g Horizontal 3 3)
  ∧ (crosses g Horizontal 3 3
     ↔ wall_at g (perpendicular Horizontal) 3 3
       ∨ abutting_walls g (perpendicular Horizontal) 3 3)
  ∧ (crosses g Horizontal 3 3 →
     is_valid_wall_placement g 3 3 (wall_type_of Horizontal) = Some false)
  ∧ (¬ crosses g Horizontal 3 3 →
     is_valid_wall_placement g 3 3 (wall_type_of Horizontal)
     = paths_remain g (test_walls g 3 3 (wall_type_of Horizontal)).1
         (test_walls g 3 3 (wall_type_of Horizontal)).2
         (seq 0 (num_players g))).
Proof.
  destruct (play abutting_script start_position) as [g|] eqn:Hplay;
    [|by vm_compute in Hplay].
  exists g. split; [done|].
  apply (crossing_rule_as_coded g Horizontal 3 3).
  - eapply play_reachable; [|exact Hplay].
    apply (reachable_init 9 2); [lia|lia|by vm_compute].
  - vm_compute in Hplay. injection Hplay as <-. by vm_compute.
  - vm_compute in Hplay. injection Hplay as <-. by vm_compute.
Defined.
